(** * Connect Four with Monte Carlo Tree Search: the game state and the search engine

    A shallow embedding of [game.py] (class [Connect4]) and [mcts.py]
    (classes [MCTSNode] and [MCTS]), with the properties of the written
    specification stated and proved over it. *)

From Stdlib Require Import ZArith QArith Lia String Bool Sorted.
From Stdlib Require Reals.
From stdpp Require Import base list strings numbers.

Local Open Scope Z_scope.
Local Open Scope string_scope.
Local Open Scope list_scope.

(** ** Boards

    [game.py] keeps the grid in a numpy array of one-character strings,
    six rows of seven cells, row 0 on top.  A blank cell is the string
    [" "].  The embedding is a list of rows.  Every index the source uses
    lies inside the 6x7 grid; a read outside it (an [IndexError] in
    Python) never happens on a well-formed board and is given the blank
    cell here. *)

Abbreviation Board := (list (list string)).

Definition EMPTY : string := " ".

Definition ROWS : nat := 6.
Definition COLS : nat := 7.

Definition wf_board (b : Board) : Prop :=
  length b = ROWS ∧ Forall (λ row, length row = COLS) b.

Definition cell_at (b : Board) (r c : nat) : string :=
  match b !! r with
  | Some row => match row !! c with Some x => x | None => EMPTY end
  | None => EMPTY
  end.

Definition set_cell (b : Board) (r c : nat) (v : string) : Board :=
  match b !! r with
  | Some row => <[r := <[c := v]> row]> b
  | None => b
  end.

Definition empty_board : Board := replicate ROWS (replicate COLS EMPTY).

(** [range(n)] as column or row indices. *)
Definition range (lo n : nat) : list nat := seq lo n.

(** The first iteration of a [for] loop whose body returns. *)
Fixpoint first_hit {A B : Type} (f : A → option B) (l : list A) : option B :=
  match l with
  | [] => None
  | x :: l' => match f x with Some y => Some y | None => first_hit f l' end
  end.

(** [a == b == c == d and a != " "] *)
Definition same4 (a b c d : string) : bool :=
  (a =? b) && (b =? c) && (c =? d) && negb (a =? EMPTY).

(** ** The game state *)

Record Connect4 := mkConnect4 {
  board : Board;
  game_over : bool;
  player_list : list string;
  current_turn : Z;
  available_moves : list Z;
  sum : Z
}.

Definition set_board (s : Connect4) (b : Board) : Connect4 :=
  mkConnect4 b (game_over s) (player_list s) (current_turn s) (available_moves s) (sum s).
Definition set_game_over (s : Connect4) (g : bool) : Connect4 :=
  mkConnect4 (board s) g (player_list s) (current_turn s) (available_moves s) (sum s).
Definition set_current_turn (s : Connect4) (t : Z) : Connect4 :=
  mkConnect4 (board s) (game_over s) (player_list s) t (available_moves s) (sum s).
Definition set_available_moves (s : Connect4) (m : list Z) : Connect4 :=
  mkConnect4 (board s) (game_over s) (player_list s) (current_turn s) m (sum s).

(** [player_list[i % 2]]; Python's [%] with a positive modulus is [Z.modulo]. *)
Definition player_at (s : Connect4) (i : Z) : string :=
  match player_list s !! Z.to_nat (i mod 2) with Some p => p | None => "" end.

Definition open_columns (b : Board) : list Z :=
  Z.of_nat <$> filter (λ c, cell_at b 0 c = EMPTY) (range 0 7).

(** [_get_available_moves(self, board=None)]: the columns whose top cell is
    blank, left to right; when there is none the receiver's [game_over] is
    set.  Returns the list and the receiver afterwards. *)
Definition _get_available_moves (self : Connect4) (board_arg : option Board)
  : list Z * Connect4 :=
  let b := match board_arg with None => board self | Some b => b end in
  let moves := open_columns b in
  (moves, match moves with [] => set_game_over self true | _ => self end).

(** [Connect4()] *)
Definition new_game : Connect4 :=
  let g := mkConnect4 empty_board false ["R"; "Y"] 0 [] 0 in
  let '(moves, g) := _get_available_moves g (Some (board g)) in
  set_available_moves g moves.

(** [copy]: a fresh object from the constructor with the board, the flag,
    the turn, the players and the move list overwritten; [sum] keeps the
    constructor's 0. *)
Definition copy (self : Connect4) : Connect4 :=
  mkConnect4 (board self) (game_over self) (player_list self)
             (current_turn self) (available_moves self) (sum new_game).

(** [make_move]: refreshes [available_moves] first; on a legal column walks
    the flipped column ([invcol[n]] is row [len(invcol)-n-1]) to the first
    blank, writes the mover's token and advances the turn. *)
Definition make_move (self : Connect4) (move : Z) : bool * Connect4 :=
  let '(moves, s) := _get_available_moves self None in
  let s := set_available_moves s moves in
  if bool_decide (move ∈ available_moves s) then
    let len := length (board s) in
    match find (λ n, cell_at (board s) (len - n - 1)%nat (Z.to_nat move) =? EMPTY)
               (range 0 len) with
    | Some n =>
        let b' := set_cell (board s) (len - n - 1)%nat (Z.to_nat move)
                           (player_at s (current_turn s)) in
        (true, set_current_turn (set_board s b') (current_turn s + 1))
    | None => (false, s)
    end
  else (false, s).

(** [simulate_move(move, player, board)] with the defaults resolved by the
    caller: a copy of [b] with [player] in the lowest blank cell of the
    column, or an unchanged copy when the column is full.  This is for a
    column [0 <= move < 7], as in every call of the program: numpy counts
    a negative index from the right and raises [IndexError] beyond the
    grid, neither of which is embedded. *)
Definition simulate_move_on (b : Board) (move : Z) (player : string) : Board :=
  match find (λ r, cell_at b r (Z.to_nat move) =? EMPTY) [5; 4; 3; 2; 1; 0]%nat with
  | Some r => set_cell b r (Z.to_nat move) player
  | None => b
  end.

Definition simulate_move (self : Connect4) (move : Z)
    (player : option string) (board_arg : option Board) : Board :=
  let player := match player with
                | None => player_at self (current_turn self) | Some p => p end in
  let b := match board_arg with None => board self | Some b => b end in
  simulate_move_on b move player.

(** The test of one window: [board[..] == board[..] == board[..] == board[..]
    and board[..] != " "], returning the first cell. *)
Definition hit (b : Board) (p q r s : nat * nat) : option string :=
  if same4 (cell_at b p.1 p.2) (cell_at b q.1 q.2) (cell_at b r.1 r.2) (cell_at b s.1 s.2)
  then Some (cell_at b p.1 p.2) else None.

(** [for c in cols: for r in rows: if ...: return ...] *)
Definition scan (cols rows : list nat)
    (window : nat → nat → option string) : option string :=
  first_hit (λ c, first_hit (λ r, window r c) rows) cols.

(** [check_win_on_board]: the four scans in the source's order, each
    returning at its first window of four equal non-blank cells. *)
Definition check_win_on_board (b : Board) : option string :=
  match scan (range 0 (7 - 3)) (range 0 6)
          (λ r c, hit b (r, c) (r, c + 1) (r, c + 2) (r, c + 3))%nat with
  | Some t => Some t
  | None =>
  match scan (range 0 7) (range 0 (6 - 3))
          (λ r c, hit b (r, c) (r + 1, c) (r + 2, c) (r + 3, c))%nat with
  | Some t => Some t
  | None =>
  match scan (range 0 (7 - 3)) (range 0 (6 - 3))
          (λ r c, hit b (r, c) (r + 1, c + 1) (r + 2, c + 2) (r + 3, c + 3))%nat with
  | Some t => Some t
  | None =>
    scan (range 0 (7 - 3)) (range 3 3)
          (λ r c, hit b (r, c) (r - 1, c + 1) (r - 2, c + 2) (r - 3, c + 3))%nat
  end end end.

(** Python truthiness of a returned token: a non-empty string. *)
Definition truthy (t : string) : bool := negb (t =? "").

(** [_check_winstate]: the winner (and [game_over] set) when
    [check_win_on_board] gives a truthy token, otherwise [False], here
    [None]. *)
Definition _check_winstate (self : Connect4) : option string * Connect4 :=
  match check_win_on_board (board self) with
  | Some t => if truthy t then (Some t, set_game_over self true) else (None, self)
  | None => (None, self)
  end.

(** ** Outcomes of the search code

    [Raise] is a Python exception.  [Stuck] is not an outcome of the
    source: it marks a loop of the embedding that ran out of its iteration
    bound, or a node handle outside the store; the theorems show it does
    not arise. *)

Inductive exn := ValueError | IndexError.

Inductive res (A : Type) : Type :=
  | Ok (a : A)
  | Raise (e : exn)
  | Stuck.
Arguments Ok {A} a.
Arguments Raise {A} e.
Arguments Stuck {A}.

#[global] Instance res_ret : MRet res := λ A a, Ok a.
#[global] Instance res_bind : MBind res := λ A B f m,
  match m with Ok a => f a | Raise e => Raise e | Stuck => Stuck end.

(** ** Scores

    [uct_select_child] computes its keys in double-precision arithmetic
    with [math.log] and [math.sqrt].  The operations and the comparison
    are an interface here, so that what is proved holds for whatever
    they compute.  The carrier stands for all the doubles, the infinities
    and NaN among them: [exploration_constant] is a float, and the score
    computed for a visited child may overflow to an infinity or be NaN.
    [Flt x y] is [x < y] between two computed values, and [Flt_inf x] is
    [x < float('inf')], which fails when [x] is itself positive infinity
    or NaN.  A key is a computed value or the [float('inf')] of an
    unvisited child; no float is above [float('inf')]. *)

Class ScoreArith (F : Type) := {
  F_of_nat : nat → F;
  F_of_Q : Q → F;
  Fadd : F → F → F;
  Fmul : F → F → F;
  Fdiv : F → F → F;
  Fsqrt : F → F;
  Flog : F → F;
  Flt : F → F → bool;
  Flt_inf : F → bool
}.

Inductive key (F : Type) : Type :=
  | Computed (x : F)
  | Inf.
Arguments Computed {F} x.
Arguments Inf {F}.

Definition key_lt {F : Type} `{ScoreArith F} (a b : key F) : bool :=
  match a, b with
  | Computed x, Computed y => Flt x y
  | Computed x, Inf => Flt_inf x
  | Inf, _ => false
  end.

(** [sorted(l, key=...)]: Python's sort is stable and compares keys with
    [<] only; on keys among which [<] is a strict weak order, as it is
    among floats none of which is NaN, its result is the stable insertion
    sort's. *)
Fixpoint insert_by {K A : Type} (lt : K → K → bool) (x : K * A) (l : list (K * A))
  : list (K * A) :=
  match l with
  | [] => [x]
  | y :: l' => if lt y.1 x.1 then y :: insert_by lt x l' else x :: y :: l'
  end.

(** [s[-1]] *)
Fixpoint last_item {A : Type} (l : list A) : option A :=
  match l with
  | [] => None
  | [x] => Some x
  | _ :: l' => last_item l'
  end.

Definition sorted {K A : Type} (lt : K → K → bool) (l : list (K * A)) : list (K * A) :=
  foldr (insert_by lt) [] l.

(** ** Search nodes

    Nodes are Python objects reached through references ([children],
    [parent]) and updated in place.  The store is a list of nodes; a
    reference is an index into it, the root is index 0 and a new node is
    appended. *)

Record MCTSNode := mkNode {
  state : Connect4;
  parent : option nat;
  move : option Z;
  children : list nat;
  wins : Q;
  visits : nat;
  untried_moves : list Z;
  player_just_moved : string
}.

Abbreviation tree := (list MCTSNode).

Definition node_at (t : tree) (i : nat) : res MCTSNode :=
  match t !! i with Some n => Ok n | None => Stuck end.

(** [MCTSNode.__init__(state, parent, move)] *)
Definition MCTSNode_init (st : Connect4) (par : option nat) (mv : option Z) : MCTSNode :=
  let '(w, st) := _check_winstate st in
  let '(untried, st) :=
    match w with
    | Some _ => ([], st)
    | None => _get_available_moves st None
    end in
  mkNode st par mv [] 0%Q 0%nat untried (player_at st (current_turn st - 1)).

(** [list.remove(x)]: drops the first occurrence. *)
Fixpoint list_remove (x : Z) (l : list Z) : option (list Z) :=
  match l with
  | [] => None
  | y :: l' => if bool_decide (y = x) then Some l'
               else match list_remove x l' with Some r => Some (y :: r) | None => None end
  end.

(** [add_child(move, state)] on the node [self]: returns the new node's
    reference and the store. *)
Definition add_child (t : tree) (self : nat) (mv : Z) (st : Connect4) : res (nat * tree) :=
  n ← node_at t self;
  let node := MCTSNode_init (copy st) (Some self) (Some mv) in
  match list_remove mv (untried_moves n) with
  | None => Raise ValueError
  | Some untried =>
      let id := length t in
      let n' := mkNode (state n) (parent n) (move n) (children n ++ [id]) (wins n)
                       (visits n) untried (player_just_moved n) in
      Ok (id, <[self := n']> t ++ [node])
  end.

(** [update(result)] *)
Definition update (n : MCTSNode) (result : Q) : MCTSNode :=
  mkNode (state n) (parent n) (move n) (children n) (wins n + result)%Q
         (visits n + 1)%nat (untried_moves n) (player_just_moved n).

(** [random.choice(l)]: the random source is a sequence of naturals read
    at a position; an empty list raises [IndexError]. *)
Definition random_choice {A : Type} (rng : nat → nat) (pos : nat) (l : list A)
  : res (A * nat) :=
  match l !! (rng pos mod length l)%nat with
  | Some x => Ok (x, S pos)
  | None => Raise IndexError
  end.

(** [state.make_move(node.move)]: a node's move is [None] at the root only,
    and [None in available_moves] is false. *)
Definition make_move_opt (st : Connect4) (mv : option Z) : bool * Connect4 :=
  match mv with
  | Some m => make_move st m
  | None => let '(moves, s) := _get_available_moves st None in
            (false, set_available_moves s moves)
  end.

Record MCTS (F : Type) := mkMCTS {
  simulations : nat;
  exploration_constant : F
}.
Arguments simulations {F} _.
Arguments exploration_constant {F} _.

Section Search.
Context {F : Type} `{ScoreArith F}.

(** The key of [uct_select_child]'s sort for the child [c] of [self]:
    for a visited child the float that the formula computes, whatever it
    is, and [float('inf')] for an unvisited one.  [math.log(0)] raises
    [ValueError]; the divisions are by [c.visits > 0] and the argument of
    [math.sqrt] is not negative. *)
Definition uct_key (C : F) (self c : MCTSNode) : res (key F) :=
  if (0 <? visits c)%nat then
    if (0 <? visits self)%nat then
      Ok (Computed (Fadd (Fdiv (F_of_Q (wins c)) (F_of_nat (visits c)))
                         (Fmul C (Fsqrt (Fdiv (Flog (F_of_nat (visits self)))
                                              (F_of_nat (visits c)))))))
    else Raise ValueError
  else Ok Inf.

Fixpoint keyed (C : F) (t : tree) (self : MCTSNode) (cs : list nat)
  : res (list (key F * nat)) :=
  match cs with
  | [] => Ok []
  | c :: cs' =>
      cn ← node_at t c;
      k ← uct_key C self cn;
      ks ← keyed C t self cs';
      Ok ((k, c) :: ks)
  end.

(** [uct_select_child(exploration_constant)]: [s[-1]] of the sorted
    children; [IndexError] when there is no child. *)
Definition uct_select_child (t : tree) (self : nat) (C : F) : res nat :=
  n ← node_at t self;
  ks ← keyed C t n (children n);
  match last_item (sorted key_lt ks) with
  | Some (_, c) => Ok c
  | None => Raise IndexError
  end.

Variable rng : nat → nat.
Variable self : MCTS F.
Variable root_state : Connect4.

(** Selection: [while node.untried_moves == [] and node.children != []]. *)
Fixpoint select (fuel : nat) (t : tree) (node : nat) (st : Connect4)
  : res (nat * Connect4) :=
  n ← node_at t node;
  match untried_moves n, children n with
  | [], _ :: _ =>
      match fuel with
      | O => Stuck
      | S fuel' =>
          c ← uct_select_child t node (exploration_constant self);
          cn ← node_at t c;
          select fuel' t c (make_move_opt st (move cn)).2
      end
  | _, _ => Ok (node, st)
  end.

(** Expansion: [if node.untried_moves != []]. *)
Definition expand (t : tree) (node : nat) (st : Connect4) (pos : nat)
  : res (tree * nat * Connect4 * nat) :=
  n ← node_at t node;
  match untried_moves n with
  | [] => Ok (t, node, st, pos)
  | _ :: _ =>
      '(m, pos) ← random_choice rng pos (untried_moves n);
      let st := (make_move st m).2 in
      '(child, t) ← add_child t node m st;
      Ok (t, child, st, pos)
  end.

(** Rollout: [while not state.game_over]. *)
Fixpoint rollout (fuel : nat) (st : Connect4) (pos : nat) : res (Connect4 * nat) :=
  if game_over st then Ok (st, pos)
  else
    match fuel with
    | O => Stuck
    | S fuel' =>
        let '(legal_moves, st) := _get_available_moves st None in
        match legal_moves with
        | [] => Ok (st, pos)
        | _ :: _ =>
            '(m, pos) ← random_choice rng pos legal_moves;
            let st := (make_move st m).2 in
            let st := (_check_winstate st).2 in
            rollout fuel' st pos
        end
    end.

(** Backpropagation: [while node is not None]. *)
Fixpoint backpropagate (fuel : nat) (t : tree) (winner : option string)
    (node : option nat) : res tree :=
  match node with
  | None => Ok t
  | Some i =>
      match fuel with
      | O => Stuck
      | S fuel' =>
          n ← node_at t i;
          let result :=
            match winner with
            | Some w => if player_just_moved n =? w then 1%Q else 0%Q
            | None => (1 # 2)%Q
            end in
          backpropagate fuel' (<[i := update n result]> t) winner (parent n)
      end
  end.

(** The working state when the rollout starts: selection and expansion
    of one pass of the main loop. *)
Definition descend (t : tree) (pos : nat) : res (tree * nat * Connect4 * nat) :=
  '(node, st) ← select (length t) t 0%nat (copy root_state);
  expand t node st pos.

(** One pass of the main loop.  The rollout places one token per
    iteration, so it runs at most once per cell. *)
Definition simulate_once (t : tree) (pos : nat) : res (tree * nat) :=
  '(t, node, st, pos) ← descend t pos;
  '(st, pos) ← rollout (ROWS * COLS + 1) st pos;
  let '(winner, st) := _check_winstate st in
  t ← backpropagate (length t) t winner (Some node);
  Ok (t, pos).

(** [for _ in range(n)] *)
Fixpoint run_simulations (n : nat) (t : tree) (pos : nat) : res (tree * nat) :=
  match n with
  | O => Ok (t, pos)
  | S n' => '(t, pos) ← simulate_once t pos; run_simulations n' t pos
  end.

(** The inner loop of the second tactical scan: some reply on
    [sim_board] makes [check_win_on_board] report the opponent. *)
Definition opponent_can_win (rs : Connect4) (human_player : string)
    (sim_board : Board) (humans_legal_moves : list Z) : bool :=
  existsb (λ opp_move,
    match check_win_on_board
            (simulate_move rs opp_move (Some human_player) (Some sim_board)) with
    | Some t => t =? human_player
    | None => false
    end) humans_legal_moves.

(** The second tactical scan: the moves after which no reply of the
    opponent wins at once.  [_get_available_moves] is called on
    [root_state] itself, with the simulated board as argument. *)
Fixpoint safe_scan (rs : Connect4) (human_player : string) (legal_moves safe_moves : list Z)
  : list Z * Connect4 :=
  match legal_moves with
  | [] => (safe_moves, rs)
  | mv :: rest =>
      let sim_board := simulate_move rs mv None None in
      let '(humans_legal_moves, rs) := _get_available_moves rs (Some sim_board) in
      safe_scan rs human_player rest
                (if opponent_can_win rs human_player sim_board humans_legal_moves
                 then safe_moves else safe_moves ++ [mv])
  end.

(** What [get_best_move] has done when the main loop is about to start:
    an early return, or the root node to search from. *)
Inductive prelude :=
  | Return (r : option Z)
  | Search (root_node : MCTSNode).

Definition tactical_checks : prelude * Connect4 :=
  let root_node := MCTSNode_init (copy root_state) None None in
  match untried_moves root_node with
  | [] => (Return None, root_state)
  | [m] => (Return (Some m), root_state)
  | _ =>
      let '(legal_moves, rs) := _get_available_moves root_state None in
      let ai_player := player_at rs (current_turn rs) in
      let human_player := player_at rs (current_turn rs + 1) in
      match first_hit (λ mv,
              match check_win_on_board (simulate_move rs mv None None) with
              | Some t => if t =? ai_player then Some mv else None
              | None => None
              end) legal_moves with
      | Some mv => (Return (Some mv), rs)
      | None =>
          let '(safe_moves, rs) := safe_scan rs human_player legal_moves [] in
          let common_safe :=
            filter (λ m, m ∈ safe_moves) (untried_moves root_node) in
          let untried :=
            match safe_moves, common_safe with
            | _ :: _, _ :: _ => common_safe
            | _, _ => untried_moves root_node
            end in
          (Search (mkNode (state root_node) (parent root_node) (move root_node)
                          (children root_node) (wins root_node) (visits root_node)
                          untried (player_just_moved root_node)), rs)
      end
  end.

(** The keys of the final sort: [c.visits] for each child. *)
Fixpoint keyed_visits (t : tree) (cs : list nat) : res (list (nat * nat)) :=
  match cs with
  | [] => Ok []
  | c :: cs' => cn ← node_at t c; ks ← keyed_visits t cs'; Ok ((visits cn, c) :: ks)
  end.

(** [sorted(root_node.children, key=lambda c: c.visits)[-1].move] *)
Definition most_visited_move (t : tree) : res (option Z) :=
  root ← node_at t 0%nat;
  ks ← keyed_visits t (children root);
  match last_item (sorted Nat.ltb ks) with
  | Some (_, c) => cn ← node_at t c; Ok (move cn)
  | None => Raise IndexError
  end.

(** [get_best_move(root_state)]: the returned move (or the exception),
    the store and the position of the random source at the end, and
    [root_state] as the call leaves it. *)
Definition get_best_move : res (option Z * tree * nat) * Connect4 :=
  match tactical_checks with
  | (Return r, rs) =>
      (Ok (r, [MCTSNode_init (copy root_state) None None], 0%nat), rs)
  | (Search root_node, rs) =>
      ('(t, pos) ← run_simulations (simulations self) [root_node] 0%nat;
       mv ← most_visited_move t;
       Ok (mv, t, pos), rs)
  end.

End Search.

(** ** The game loop ([main.py])

    Console output is left out.  The lines [input()] reads are
    represented by what the program makes of them: the answer to the
    first prompt by whether its upper case is ["Y"] ([None] when there
    is no line to read), each later line by the result of [int(...)],
    [None] standing for a [ValueError].  At the end of the list the
    input is exhausted and [input()] raises [EOFError], which nothing
    catches. *)
Inductive outcome :=
  | Winner (w : string) (g : Connect4)
  | Draw (g : Connect4)
  | Uncaught (e : exn)
  | EndOfInput
  | OutOfFuel.

(** [while not valid_move]: returns the game after the human's move and
    the input left, or [None] at the end of the input. *)
Fixpoint human_turn (g : Connect4) (inputs : list (option Z))
  : option (Connect4 * list (option Z)) :=
  match inputs with
  | [] => None
  | None :: inputs' => human_turn g inputs'
  | Some x :: inputs' =>
      let chosen_move := x - 1 in
      if bool_decide (0 ≤ chosen_move ≤ 6)%Z then
        let '(possible_moves, g) := _get_available_moves g None in
        if bool_decide (chosen_move ∈ possible_moves) then
          Some ((make_move g chosen_move).2, inputs')
        else human_turn g inputs'
      else human_turn g inputs'
  end.

Section Main.
Context {F : Type} `{ScoreArith F}.
Variable rng : nat → nat.

(** [while not g.game_over]; [pos] is how far the random source has been
    read.  [break] and the end of the loop lead to the draw message,
    [return] to the winner's. *)
Fixpoint main_loop (fuel : nat) (ai : MCTS F) (human_player : string) (g : Connect4)
    (inputs : list (option Z)) (pos : nat) : outcome :=
  if game_over g then Draw g
  else
    match fuel with
    | O => OutOfFuel
    | S fuel' =>
        let current_turn_player := player_at g (current_turn g) in
        let moved :=
          if current_turn_player =? human_player then
            match human_turn g inputs with
            | Some (g, inputs) => inl (g, inputs, pos)
            | None => inr EndOfInput
            end
          else
            match get_best_move (λ n, rng (pos + n)%nat) ai g with
            | (Ok (Some move, _, used), g) =>
                inl ((make_move g move).2, inputs, (pos + used)%nat)
            | (Ok (None, _, _), g) => inr (Draw g)
            | (Raise e, _) => inr (Uncaught e)
            | (Stuck, _) => inr OutOfFuel
            end in
        match moved with
        | inr o => o
        | inl (g, inputs, pos) =>
            let '(result, g) := _check_winstate g in
            match result with
            | Some w => Winner w g
            | None => main_loop fuel' ai human_player g inputs pos
            end
        end
    end.

(** [main()]: a game makes at most 42 moves. *)
Definition main (choice : option bool) (inputs : list (option Z)) : outcome :=
  match choice with
  | None => EndOfInput
  | Some yellow =>
      main_loop (ROWS * COLS + 1) (mkMCTS F 1000 (F_of_nat 1))
                (if yellow then "Y" else "R") new_game inputs 0
  end.

End Main.

(** ** Notions of the specification *)

(** The token [t] fills four contiguous cells of a row, a column or a
    diagonal of either slope: the cells [(r + k*dr, c + k*dc)], [k] from 0
    to 3, all on the board. *)
Definition four_in_line (b : Board) (t : string) : Prop :=
  ∃ r c dr dc : Z,
    (dr, dc) ∈ [(0, 1); (1, 0); (1, 1); (-1, 1)] ∧
    ∀ k, 0 ≤ k < 4 →
      0 ≤ r + k * dr < 6 ∧ 0 ≤ c + k * dc < 7 ∧
      cell_at b (Z.to_nat (r + k * dr)) (Z.to_nat (c + k * dc)) = t.

(** A winning line: four in line of a token other than the blank. *)
Definition winning_line (b : Board) : Prop :=
  ∃ t, t ≠ EMPTY ∧ four_in_line b t.

(** A game played from the start: the moves applied in order. *)
Definition play (moves : list Z) : Connect4 :=
  foldl (λ s m, (make_move s m).2) new_game moves.

(** Red has filled the bottom row's first four cells. *)
Definition red_row_game : Connect4 := play [0; 0; 1; 1; 2; 2; 3].

(** Red to move with three in the bottom row and column 3 open. *)
Definition three_in_row_game : Connect4 := play [0; 0; 1; 1; 2; 2].

(** Red to move; Yellow threatens the bottom row at column 3. *)
Definition must_block_game : Connect4 := play [6; 0; 6; 1; 5; 2].

(** Red to move; Yellow has the bottom two rows of columns 0 to 2, so
    that a Yellow token in column 3 wins whatever Red plays. *)
Definition double_threat_game : Connect4 :=
  play [4; 0; 4; 0; 6; 1; 6; 1; 0; 2; 1; 2].

(** Red completes column 1, then Yellow completes column 0: one more
    move than a game lasts, four in line for both. *)
Definition two_lines_game : Connect4 := play [1; 0; 1; 0; 1; 0; 1; 0].

(** Column 0 is full after six moves in it. *)
Definition full_column_game : Connect4 := play [0; 0; 0; 0; 0; 0].

(** The data model's boards: 6x7, every cell blank or a player's token. *)
Definition valid_board (b : Board) : Prop :=
  wf_board b ∧ Forall (Forall (λ x, x ∈ [EMPTY; "R"; "Y"])) b.

(** The states the program builds: a valid board and the constructor's
    player list. *)
Definition wf_state (s : Connect4) : Prop :=
  valid_board (board s) ∧ player_list s = ["R"; "Y"].

(** Playing column [m] gives the player [p] four in line at once. *)
Definition immediate_win (b : Board) (p : string) (m : Z) : Prop :=
  p ≠ EMPTY ∧ four_in_line (simulate_move_on b m p) p.

(** After [ai] plays [m], some legal reply wins at once for [human]. *)
Definition winning_reply (b : Board) (ai human : string) (m : Z) : Prop :=
  ∃ opp, opp ∈ open_columns (simulate_move_on b m ai) ∧
         immediate_win (simulate_move_on b m ai) human opp.

(** In a sorted list [a] may stand before [b]: [b]'s key is not below
    [a]'s. *)
Definition may_precede {K A : Type} (lt : K → K → bool) (a b : K * A) : Prop :=
  lt b.1 a.1 = false.

(** The score [uct_select_child] sorts by, when no exception arises. *)
Definition uct_score {F : Type} `{ScoreArith F} (C : F) (self c : MCTSNode) : key F :=
  if (0 <? visits c)%nat then
    Computed (Fadd (Fdiv (F_of_Q (wins c)) (F_of_nat (visits c)))
                   (Fmul C (Fsqrt (Fdiv (Flog (F_of_nat (visits self)))
                                        (F_of_nat (visits c))))))
  else Inf.

(** [k] is the score of one of the children of [n]. *)
Definition child_score {F : Type} `{ScoreArith F} (C : F) (t : tree) (n : MCTSNode)
    (k : key F) : Prop :=
  ∃ c cn, c ∈ children n ∧ t !! c = Some cn ∧ k = uct_score C n cn.

(** [lt] is a strict weak order among the keys in [P]: asymmetric and
    negatively transitive (when [x] is below [z], any [y] is above [x] or
    below [z]).  The [<] of floats is one among keys none of which is
    NaN. *)
Definition ordered_on {K : Type} (P : K → Prop) (lt : K → K → bool) : Prop :=
  (∀ x y, P x → P y → lt x y = true → lt y x = false) ∧
  (∀ x y z, P x → P y → P z → lt x z = true → lt x y = true ∨ lt y z = true).

(** Idealised score arithmetic: the reals, with [ln] and [sqrt]. *)
Definition real_arith : ScoreArith Rdefinitions.R := {|
  F_of_nat := Raxioms.INR;
  F_of_Q := Rdefinitions.Q2R;
  Fadd := Rdefinitions.Rplus;
  Fmul := Rdefinitions.Rmult;
  Fdiv := Rdefinitions.Rdiv;
  Fsqrt := R_sqrt.sqrt;
  Flog := Rpower.ln;
  Flt := λ x y, if RIneq.Rlt_dec x y then true else false;
  Flt_inf := λ _, true
|}.

(** The reals with the special values of the doubles, to which the
    operations extend as IEEE 754 has them; a finite result is exact.
    No division by zero and no logarithm or square root outside its
    domain is computed by [uct_key]; these are given NaN. *)
Inductive xreal : Type :=
  | XFin (r : Rdefinitions.R)
  | XPInf
  | XNInf
  | XNaN.

Inductive sign : Type := Pos | Zero | Neg.

Definition sign_of (r : Rdefinitions.R) : sign :=
  match Rdefinitions.total_order_T (Rdefinitions.IZR 0) r with
  | inleft (left _) => Pos
  | inleft (right _) => Zero
  | inright _ => Neg
  end.

Definition xsign (x : xreal) : option sign :=
  match x with
  | XFin r => Some (sign_of r)
  | XPInf => Some Pos
  | XNInf => Some Neg
  | XNaN => None
  end.

Definition xadd (x y : xreal) : xreal :=
  match x, y with
  | XNaN, _ | _, XNaN => XNaN
  | XFin a, XFin b => XFin (Rdefinitions.Rplus a b)
  | XPInf, XNInf | XNInf, XPInf => XNaN
  | XPInf, _ | _, XPInf => XPInf
  | XNInf, _ | _, XNInf => XNInf
  end.

(** An infinity times zero is NaN; otherwise the signs multiply. *)
Definition xmul (x y : xreal) : xreal :=
  match x, y with
  | XFin a, XFin b => XFin (Rdefinitions.Rmult a b)
  | _, _ =>
      match xsign x, xsign y with
      | Some Zero, _ | _, Some Zero | None, _ | _, None => XNaN
      | Some Pos, Some Pos | Some Neg, Some Neg => XPInf
      | Some Pos, Some Neg | Some Neg, Some Pos => XNInf
      end
  end.

Definition xdiv (x y : xreal) : xreal :=
  match x, y with
  | XNaN, _ | _, XNaN => XNaN
  | XFin a, XFin b =>
      match sign_of b with Zero => XNaN | _ => XFin (Rdefinitions.Rdiv a b) end
  | XFin _, _ => XFin (Rdefinitions.IZR 0)
  | _, XFin b =>
      match xsign x, sign_of b with
      | Some Pos, Pos | Some Neg, Neg => XPInf
      | Some Pos, Neg | Some Neg, Pos => XNInf
      | _, _ => XNaN
      end
  | _, _ => XNaN
  end.

Definition xsqrt (x : xreal) : xreal :=
  match x with
  | XFin r => match sign_of r with Neg => XNaN | _ => XFin (R_sqrt.sqrt r) end
  | XPInf => XPInf
  | _ => XNaN
  end.

Definition xlog (x : xreal) : xreal :=
  match x with
  | XFin r => match sign_of r with Pos => XFin (Rpower.ln r) | _ => XNaN end
  | XPInf => XPInf
  | _ => XNaN
  end.

(** [x < y]: false as soon as one side is NaN. *)
Definition xlt (x y : xreal) : bool :=
  match x, y with
  | XNaN, _ | _, XNaN => false
  | XFin a, XFin b => if RIneq.Rlt_dec a b then true else false
  | _, XNInf | XPInf, _ => false
  | _, XPInf | XNInf, _ => true
  end.

Definition xreal_arith : ScoreArith xreal := {|
  F_of_nat := λ n, XFin (Raxioms.INR n);
  F_of_Q := λ q, XFin (Rdefinitions.Q2R q);
  Fadd := xadd;
  Fmul := xmul;
  Fdiv := xdiv;
  Fsqrt := xsqrt;
  Flog := xlog;
  Flt := xlt;
  Flt_inf := λ x, xlt x XPInf
|}.

(** A store whose root was never visited although its first child was. *)
Definition unvisited_root_tree : tree :=
  [ mkNode new_game None None [1; 2]%nat 0%Q 0%nat [] "Y";
    mkNode (play [0]) (Some 0%nat) (Some 0) [] 1%Q 1%nat [1; 2; 3; 4; 5; 6] "R";
    mkNode (play [1]) (Some 0%nat) (Some 1) [] 0%Q 0%nat [0; 2; 3; 4; 5; 6] "R" ].

(** A store whose root was visited twice: its first child never, its
    second child once, winning. *)
Definition late_visit_tree : tree :=
  [ mkNode new_game None None [1; 2]%nat 1%Q 2%nat [] "Y";
    mkNode (play [0]) (Some 0%nat) (Some 0) [] 0%Q 0%nat [1; 2; 3; 4; 5; 6] "R";
    mkNode (play [1]) (Some 0%nat) (Some 1) [] 1%Q 1%nat [0; 2; 3; 4; 5; 6] "R" ].

(** A store of three nodes: a root visited once, with a visited and an
    unvisited child. *)
Definition uct_example_tree : tree :=
  [ mkNode new_game None None [1; 2]%nat 1%Q 1%nat [] "Y";
    mkNode (play [0]) (Some 0%nat) (Some 0) [] 1%Q 1%nat [1; 2; 3; 4; 5; 6] "R";
    mkNode (play [1]) (Some 0%nat) (Some 1) [] 0%Q 0%nat [0; 2; 3; 4; 5; 6] "R" ].

(** What the loops rely on in a state: a 6x7 board and the constructor's
    player list. *)
Definition playable (s : Connect4) : Prop :=
  wf_board (board s) ∧ player_list s = ["R"; "Y"].

(** The cells of the grid, and how many of them are blank. *)
Definition grid : list (nat * nat) :=
  r ← seq 0 ROWS; c ← seq 0 COLS; [(r, c)].

Definition blanks (b : Board) : nat :=
  length (filter (λ rc, cell_at b rc.1 rc.2 = EMPTY) grid).

(** [anc t i k]: following [parent] references from node [i] reaches
    node [k] ([i] itself included). *)
Inductive anc (t : tree) : nat → nat → Prop :=
  | anc_self i : anc t i i
  | anc_up i n p k : t !! i = Some n → parent n = Some p → anc t p k → anc t i k.

(** The references of a store form a tree rooted at index 0: [parent] and
    [children] mirror each other, a parent is older than its child, and
    every node but the root carries the move that led to it. *)
Record tree_shape (t : tree) : Prop := mkShape {
  shape_root : ∃ root, t !! 0%nat = Some root ∧ parent root = None;
  shape_parent : ∀ i n p, t !! i = Some n → parent n = Some p →
      (p < i)%nat ∧ is_Some (move n) ∧ ∃ pn, t !! p = Some pn ∧ i ∈ children pn;
  shape_orphan : ∀ i n, t !! i = Some n → parent n = None → i = 0%nat;
  shape_children : ∀ i n c, t !! i = Some n → c ∈ children n →
      ∃ cn, t !! c = Some cn ∧ parent cn = Some i;
  shape_nodup : ∀ i n, t !! i = Some n → NoDup (children n)
}.

(** Two stores with the same nodes up to their statistics. *)
Definition same_links (t t' : tree) : Prop :=
  length t' = length t ∧
  ∀ i n, t !! i = Some n →
    ∃ n', t' !! i = Some n' ∧ parent n' = parent n ∧ children n' = children n ∧
          move n' = move n ∧ untried_moves n' = untried_moves n.

(** The invariant of the data model: [visits >= len(children)] at every
    node. *)
Definition visits_cover (t : tree) : Prop :=
  ∀ i n, t !! i = Some n → (length (children n) ≤ visits n)%nat.

(** The visit count of the node behind a reference; 0 when the store has
    no such node yet. *)
Definition visits_at (t : tree) (c : nat) : nat :=
  match t !! c with Some cn => visits cn | None => 0%nat end.

(** The sum of the visit counts of a node's children. *)
Definition children_visits (t : tree) (n : MCTSNode) : nat :=
  sum_list_with (λ c, match t !! c with Some cn => visits cn | None => 0%nat end)
                (children n).

(** What holds of the store between two passes of the main loop, [k]
    passes after its start. *)
Record loop_inv (k : nat) (t : tree) : Prop := mkLoopInv {
  inv_shape : tree_shape t;
  inv_cover : visits_cover t;
  inv_root : ∃ root, t !! 0%nat = Some root ∧
               visits root = k ∧ children_visits t root = k ∧
               (untried_moves root ≠ [] ∨ children root ≠ []) ∧
               (k ≠ 0%nat → children root ≠ [])
}.

(** ** Notions of the further properties *)

(** Row [r] is the lowest blank cell of column [c]. *)
Definition lowest_blank (b : Board) (c r : nat) : Prop :=
  (r < ROWS)%nat ∧ cell_at b r c = EMPTY ∧
  ∀ r', (r < r' < ROWS)%nat → cell_at b r' c ≠ EMPTY.

(** No token floats: below a token there is a token. *)
Definition gravity (b : Board) : Prop :=
  ∀ r c, (S r < ROWS)%nat → cell_at b r c ≠ EMPTY → cell_at b (S r) c ≠ EMPTY.

(** The states the program can build: from [Connect4()] by its methods,
    whatever their arguments. *)
Inductive reachable : Connect4 → Prop :=
  | reach_new : reachable new_game
  | reach_move s m : reachable s → reachable (make_move s m).2
  | reach_moves s b : reachable s → reachable (_get_available_moves s b).2
  | reach_check s : reachable s → reachable (_check_winstate s).2
  | reach_copy s : reachable s → reachable (copy s).

(** The states of a game: as above, but a board passed to
    [_get_available_moves] has an open column.  The calls of [main.py]
    and [mcts.py] are such: the one call that passes a board, in
    [get_best_move], passes the board after one more move, two or more
    columns being open before that move. *)
Inductive played : Connect4 → Prop :=
  | played_new : played new_game
  | played_move s m : played s → played (make_move s m).2
  | played_moves s b :
      played s → (∀ b', b = Some b' → open_columns b' ≠ []) →
      played (_get_available_moves s b).2
  | played_check s : played s → played (_check_winstate s).2
  | played_copy s : played s → played (copy s).

(** The score of the child behind a reference; infinity when the store
    has no such node. *)
Definition score_at {F : Type} `{ScoreArith F} (C : F) (t : tree) (self : MCTSNode)
    (c : nat) : key F :=
  match t !! c with Some cn => uct_score C self cn | None => Inf end.

(** A store whose root has three children visited once each: the first
    two won their playout, the third lost it. *)
Definition tied_children_tree : tree :=
  [ mkNode new_game None None [1; 2; 3]%nat 1%Q 3%nat [] "Y";
    mkNode (play [0]) (Some 0%nat) (Some 0) [] 1%Q 1%nat [0; 1; 2; 3; 4; 5; 6] "R";
    mkNode (play [1]) (Some 0%nat) (Some 1) [] 1%Q 1%nat [0; 1; 2; 3; 4; 5; 6] "R";
    mkNode (play [2]) (Some 0%nat) (Some 2) [] 0%Q 1%nat [0; 1; 2; 3; 4; 5; 6] "R" ].

(** A store whose root has two children, none of the three visited. *)
Definition fresh_children_tree : tree :=
  [ mkNode new_game None None [1; 2]%nat 0%Q 0%nat [] "Y";
    mkNode (play [0]) (Some 0%nat) (Some 0) [] 0%Q 0%nat [0; 1; 2; 3; 4; 5; 6] "R";
    mkNode (play [1]) (Some 0%nat) (Some 1) [] 0%Q 0%nat [0; 1; 2; 3; 4; 5; 6] "R" ].

(** The result backpropagation hands to [update] at a node: 1 when the
    node's [player_just_moved] is the winner, 0 when another player won,
    0.5 without a winner. *)
Definition reward (winner : option string) (n : MCTSNode) : Q :=
  match winner with
  | Some w => if player_just_moved n =? w then 1%Q else 0%Q
  | None => (1 # 2)%Q
  end.

(** The moves of a node's children, in the order of [children]. *)
Definition child_moves (t : tree) (n : MCTSNode) : list Z :=
  omap (λ c, t !! c ≫= move) (children n).

(** The store after an expansion of node [j]: the node with one more
    child and the untried moves [u], and the child appended. *)
Definition grown (t : tree) (j : nat) (n : MCTSNode) (u : list Z) (new : MCTSNode) : tree :=
  <[j := mkNode (state n) (parent n) (move n) (children n ++ [length t])
                (wins n) (visits n) u (player_just_moved n)]> t ++ [new].

(** The store after a backpropagation from [node] with the winner [w]:
    [update] has been applied to the ancestors of [node], once each. *)
Definition bumped (w : option string) (node : nat) (t t' : tree) : Prop :=
  length t' = length t ∧
  ∀ k n, t !! k = Some n →
    (anc t node k → t' !! k = Some (update n (reward w n))) ∧
    (¬ anc t node k → t' !! k = Some n).

(** The store is a game tree over the root state [rs]: the root's
    snapshot shows the board and the turn of [rs]; every snapshot is a
    state of the program; a child's snapshot is its parent's after the
    child's move, a legal one, played by the side to move, which is the
    child's [player_just_moved]; the untried moves and the children's
    moves of a node are legal and pairwise distinct; a node with an
    untried move or a child has no winning line; and a snapshot with a
    winning line or without open column is flagged as over. *)
Record game_tree (rs : Connect4) (t : tree) : Prop := mkGameTree {
  gt_root : ∃ root, t !! 0%nat = Some root ∧ board (state root) = board rs ∧
                    current_turn (state root) = current_turn rs;
  gt_state : ∀ i n, t !! i = Some n → wf_state (state n);
  gt_child : ∀ i n p, t !! i = Some n → parent n = Some p →
      ∃ pn m, t !! p = Some pn ∧ move n = Some m ∧
              m ∈ open_columns (board (state pn)) ∧
              board (state n) =
                simulate_move_on (board (state pn)) m
                                 (player_at (state pn) (current_turn (state pn))) ∧
              current_turn (state n) = current_turn (state pn) + 1 ∧
              player_just_moved n = player_at (state pn) (current_turn (state pn));
  gt_moves : ∀ i n, t !! i = Some n →
      NoDup (untried_moves n ++ child_moves t n) ∧
      ∀ m, m ∈ untried_moves n → m ∈ open_columns (board (state n));
  gt_live : ∀ i n, t !! i = Some n → untried_moves n ≠ [] ∨ children n ≠ [] →
      ¬ winning_line (board (state n));
  gt_flag : ∀ i n, t !! i = Some n →
      winning_line (board (state n)) ∨ open_columns (board (state n)) = [] →
      game_over (state n) = true
}.

(** After [k] passes the untried moves of the root and the moves of its
    children are together the candidates [U], each once, and the root has
    a child for [k] of them, or for all. *)
Definition root_cands (U : list Z) (k : nat) (t : tree) : Prop :=
  ∃ root, t !! 0%nat = Some root ∧
          untried_moves root ++ child_moves t root ≡ₚ U ∧
          length (children root) = (k `min` length U)%nat.

(** The statistics of the nodes: wins between 0 and the visits; below
    the root every node has been visited, and one that has an untried move
    or a child has one visit more than its children together. *)
Definition stats_inv (t : tree) : Prop :=
  ∀ i n, t !! i = Some n →
    (0 <= wins n)%Q ∧ (wins n <= inject_Z (Z.of_nat (visits n)))%Q ∧
    (i ≠ 0%nat → (1 ≤ visits n)%nat ∧
                 (untried_moves n ≠ [] ∨ children n ≠ [] →
                  visits n = S (children_visits t n))).

(** Red to move with column 6 the only open one, and no winning line. *)
Definition single_column_game : Connect4 :=
  play [0; 0; 0; 0; 0; 0; 1; 1; 1; 1; 1; 1;
        4; 2; 2; 4; 4; 2; 2; 4; 4; 2; 2; 4;
        5; 3; 3; 5; 5; 3; 3; 5; 5; 3; 3; 5].

(** A full board without winning line, Red to move. *)
Definition drawn_game : Connect4 :=
  play [0; 0; 0; 0; 0; 0; 1; 1; 1; 1; 1; 1;
        4; 2; 2; 4; 4; 2; 2; 4; 4; 2; 2; 4;
        5; 3; 3; 5; 5; 3; 3; 5; 5; 3; 3; 5;
        6; 6; 6; 6; 6; 6].

(** The same game one move earlier: the top of column 6 is the only
    blank cell, Yellow to move. *)
Definition last_cell_game : Connect4 :=
  play [0; 0; 0; 0; 0; 0; 1; 1; 1; 1; 1; 1;
        4; 2; 2; 4; 4; 2; 2; 4; 4; 2; 2; 4;
        5; 3; 3; 5; 5; 3; 3; 5; 5; 3; 3; 5;
        6; 6; 6; 6; 6].

(** * Properties *)

(** ** Loops that return at the first hit *)

Lemma first_hit_Some {A B} (f : A → option B) l y :
  first_hit f l = Some y → ∃ x, x ∈ l ∧ f x = Some y.
Proof.
  induction l as [|x l IH]; simpl; [done|].
  destruct (f x) eqn:E.
  - intros [= <-]. exists x. split; [left | done].
  - intros Hl. destruct (IH Hl) as (x' & ? & ?). exists x'. split; [by right | done].
Qed.

Lemma first_hit_None {A B} (f : A → option B) l :
  first_hit f l = None ↔ ∀ x, x ∈ l → f x = None.
Proof.
  induction l as [|x l IH]; simpl.
  - split; [intros _ x Hx; inversion Hx | done].
  - destruct (f x) eqn:E.
    + split; [done|]. intros Hall. rewrite <- E. apply Hall. left.
    + rewrite IH. split.
      * intros Hall x' Hx'. inversion Hx'; subst; auto.
      * intros Hall x' Hx'. apply Hall. by right.
Qed.

Lemma scan_Some cols rows w t :
  scan cols rows w = Some t → ∃ c r, c ∈ cols ∧ r ∈ rows ∧ w r c = Some t.
Proof.
  unfold scan. intros Hs.
  apply first_hit_Some in Hs as (c & Hc & Hs).
  apply first_hit_Some in Hs as (r & Hr & Hs). eauto.
Qed.

Lemma scan_None cols rows w :
  scan cols rows w = None ↔ ∀ c r, c ∈ cols → r ∈ rows → w r c = None.
Proof.
  unfold scan. rewrite first_hit_None. split.
  - intros Hall c r Hc Hr. specialize (Hall c Hc).
    rewrite first_hit_None in Hall. auto.
  - intros Hall c Hc. rewrite first_hit_None. auto.
Qed.

Lemma same4_true a b c d :
  same4 a b c d = true ↔ a = b ∧ b = c ∧ c = d ∧ a ≠ EMPTY.
Proof.
  unfold same4. rewrite !andb_true_iff, negb_true_iff, !String.eqb_eq, String.eqb_neq.
  tauto.
Qed.

Lemma hit_Some b p q r s t :
  hit b p q r s = Some t ↔
  cell_at b p.1 p.2 = t ∧ cell_at b q.1 q.2 = t ∧ cell_at b r.1 r.2 = t ∧
  cell_at b s.1 s.2 = t ∧ t ≠ EMPTY.
Proof.
  unfold hit. destruct (same4 _ _ _ _) eqn:E.
  - apply same4_true in E as (E1 & E2 & E3 & E4). split.
    + intros [= <-]. repeat split; congruence.
    + intros (<- & _). done.
  - split; [done|]. intros (E1 & E2 & E3 & E4 & E5).
    assert (same4 (cell_at b p.1 p.2) (cell_at b q.1 q.2)
                  (cell_at b r.1 r.2) (cell_at b s.1 s.2) = true) as Ht
      by (apply same4_true; repeat split; congruence).
    congruence.
Qed.

(** ** Win detection *)

Ltac cell_from_hyps :=
  match goal with
  | H : cell_at ?b _ _ = ?t |- cell_at ?b _ _ = ?t =>
      rewrite <- H; f_equal; lia
  end.

Ltac line_of r c dr dc :=
  exists (Z.of_nat r), (Z.of_nat c), dr, dc; split;
  [ rewrite !elem_of_cons; tauto
  | let k := fresh "k" in let Hk := fresh "Hk" in
    intros k Hk;
    assert (k = 0 ∨ k = 1 ∨ k = 2 ∨ k = 3) as [-> | [-> | [-> | ->]]] by lia;
    (split; [lia | split; [lia | cell_from_hyps]]) ].

Lemma check_win_sound b t :
  check_win_on_board b = Some t → t ≠ EMPTY ∧ four_in_line b t.
Proof.
  unfold check_win_on_board, range.
  destruct (scan (seq 0 (7 - 3)) (seq 0 6) _) eqn:E1;
    [| destruct (scan (seq 0 7) (seq 0 (6 - 3)) _) eqn:E2;
       [| destruct (scan (seq 0 (7 - 3)) (seq 0 (6 - 3)) _) eqn:E3 ] ];
    intros E; simplify_eq;
    match goal with H : scan _ _ _ = Some _ |- _ =>
      apply scan_Some in H as (c & r & Hc & Hr & Hh) end;
    apply elem_of_seq in Hc; apply elem_of_seq in Hr;
    apply hit_Some in Hh as (H0 & H1 & H2 & H3 & Hne); simpl in *;
    (split; [done|]).
  - line_of r c 0 1.
  - line_of r c 1 0.
  - line_of r c 1 1.
  - line_of r c (-1) 1.
Qed.

Lemma check_win_complete b t :
  t ≠ EMPTY → four_in_line b t → check_win_on_board b ≠ None.
Proof.
  intros Hne (r & c & dr & dc & Hd & Hk) Hnone.
  pose proof (Hk 0 ltac:(lia)) as (Hr0 & Hc0 & K0).
  pose proof (Hk 1 ltac:(lia)) as (Hr1 & Hc1 & K1).
  pose proof (Hk 2 ltac:(lia)) as (Hr2 & Hc2 & K2).
  pose proof (Hk 3 ltac:(lia)) as (Hr3 & Hc3 & K3).
  clear Hk. unfold check_win_on_board, range in Hnone.
  destruct (scan (seq 0 (7 - 3)) (seq 0 6) _) eqn:E1; [done|].
  destruct (scan (seq 0 7) (seq 0 (6 - 3)) _) eqn:E2; [done|].
  destruct (scan (seq 0 (7 - 3)) (seq 0 (6 - 3)) _) eqn:E3; [done|].
  rename Hnone into E4.
  assert ((dr, dc) = (0, 1) ∨ (dr, dc) = (1, 0) ∨ (dr, dc) = (1, 1) ∨ (dr, dc) = (-1, 1))
    as Hdir by (rewrite !elem_of_cons, elem_of_nil in Hd; tauto).
  assert (∀ w, w (Z.to_nat r) (Z.to_nat c) = Some t →
               ∀ cols rows, Z.to_nat c ∈ cols → Z.to_nat r ∈ rows →
               scan cols rows w = None → False) as Hcontra.
  { intros w Hw cols rows Hc Hr Hs.
    rewrite scan_None in Hs. rewrite (Hs _ _ Hc Hr) in Hw. done. }
  destruct Hdir as [[= -> ->] | [[= -> ->] | [[= -> ->] | [= -> ->]]]].
  - eapply (Hcontra _ _ _ _ _ _ E1). Unshelve.
    + apply hit_Some; simpl; repeat split; try done; cell_from_hyps.
    + apply elem_of_seq; lia.
    + apply elem_of_seq; lia.
  - eapply (Hcontra _ _ _ _ _ _ E2). Unshelve.
    + apply hit_Some; simpl; repeat split; try done; cell_from_hyps.
    + apply elem_of_seq; lia.
    + apply elem_of_seq; lia.
  - eapply (Hcontra _ _ _ _ _ _ E3). Unshelve.
    + apply hit_Some; simpl; repeat split; try done; cell_from_hyps.
    + apply elem_of_seq; lia.
    + apply elem_of_seq; lia.
  - eapply (Hcontra _ _ _ _ _ _ E4). Unshelve.
    + apply hit_Some; simpl; repeat split; try done; cell_from_hyps.
    + apply elem_of_seq; lia.
    + apply elem_of_seq; lia.
Qed.

(** C1, as the code has it.  On every 6x7 board [check_win_on_board]
    returns only a non-blank token that fills four contiguous cells of a
    row, a column or a diagonal; it returns a token exactly when the board
    has such a line and [None] exactly when it has none; it never returns
    the blank; and when one token only has such a line, that token is the
    one returned. *)
Theorem check_win_on_board_correct (b : Board) :
  wf_board b →
  (∀ t, check_win_on_board b = Some t → t ≠ EMPTY ∧ four_in_line b t) ∧
  ((∃ t, check_win_on_board b = Some t) ↔ winning_line b) ∧
  (check_win_on_board b = None ↔ ¬ winning_line b) ∧
  check_win_on_board b ≠ Some EMPTY ∧
  (∀ t, t ≠ EMPTY → four_in_line b t →
        (∀ u, u ≠ EMPTY → four_in_line b u → u = t) →
        check_win_on_board b = Some t).
Proof.
  intros _. repeat split.
  - by apply check_win_sound in H as [? ?].
  - by apply check_win_sound in H as [? ?].
  - intros [t Ht]. exists t. by apply check_win_sound.
  - intros (t & Hne & Hl). pose proof (check_win_complete b t Hne Hl).
    destruct (check_win_on_board b) as [u|]; [by exists u | done].
  - intros Hnone (t & Hne & Hl). by apply (check_win_complete b t Hne Hl).
  - intros Hno. destruct (check_win_on_board b) as [u|] eqn:E; [|done].
    exfalso. apply Hno. exists u. by apply check_win_sound.
  - intros E. by apply check_win_sound in E as [? ?].
  - intros t Hne Hl Huniq. pose proof (check_win_complete b t Hne Hl).
    destruct (check_win_on_board b) as [u|] eqn:E; [|done].
    apply check_win_sound in E as [? ?]. f_equal. by apply Huniq.
Qed.

Lemma check_win_on_board_correct_witness :
  wf_board (board red_row_game) ∧
  check_win_on_board (board red_row_game) = Some "R" ∧
  ((∃ t, check_win_on_board (board red_row_game) = Some t) ↔
   winning_line (board red_row_game)).
Proof.
  assert (wf_board (board red_row_game)) as Hwf
    by (split; [vm_compute; reflexivity | vm_compute; repeat constructor]).
  split; [exact Hwf|]. split; [vm_compute; reflexivity|].
  apply (check_win_on_board_correct (board red_row_game) Hwf).
Defined.

(** C1, as stated, fails: on the board of [two_lines_game] Red fills
    four contiguous cells of column 1, and the scan returns Yellow, whose
    line in column 0 it meets first. *)
Lemma check_win_two_lines :
  wf_board (board two_lines_game) ∧
  ¬ (∀ t, check_win_on_board (board two_lines_game) = Some t ↔
          t ≠ EMPTY ∧ four_in_line (board two_lines_game) t).
Proof.
  split; [split; [vm_compute; reflexivity | vm_compute; repeat constructor]|].
  intros Hiff.
  assert (check_win_on_board (board two_lines_game) = Some "R") as Hr.
  { apply Hiff. split; [done|].
    exists 2, 1, 1, 0. split; [rewrite !elem_of_cons; tauto|].
    intros k Hk. assert (k = 0 ∨ k = 1 ∨ k = 2 ∨ k = 3) as [-> | [-> | [-> | ->]]] by lia;
      (split; [lia | split; [lia | vm_compute; reflexivity]]). }
  vm_compute in Hr. discriminate.
Qed.

(** ** Moves *)

(** C2, as the code has it.  On a column that is not open (full, or
    outside 0..6) [make_move] returns [False] and leaves the board, the
    turn index, the player list and [sum] as they were; the cached
    [available_moves] is refreshed to the open columns, and [game_over] is
    set when there is none. *)
Theorem make_move_unavailable (s : Connect4) (mv : Z) :
  mv ∉ open_columns (board s) →
  (make_move s mv).1 = false ∧
  board (make_move s mv).2 = board s ∧
  current_turn (make_move s mv).2 = current_turn s ∧
  player_list (make_move s mv).2 = player_list s ∧
  sum (make_move s mv).2 = sum s ∧
  available_moves (make_move s mv).2 = open_columns (board s) ∧
  game_over (make_move s mv).2 =
    match open_columns (board s) with [] => true | _ => game_over s end.
Proof.
  intros Hmv. unfold make_move, _get_available_moves.
  cbn [available_moves set_available_moves].
  rewrite bool_decide_eq_false_2 by done.
  destruct (open_columns (board s)); done.
Qed.

(** Closed decidable statements are settled by evaluation. *)
Ltac decide_by_compute :=
  match goal with |- ?P => apply (bool_decide_unpack P); vm_compute; exact I end.

Lemma make_move_unavailable_witness :
  (0 ∉ open_columns (board full_column_game)) ∧
  (make_move full_column_game 0).1 = false ∧
  board (make_move full_column_game 0).2 = board full_column_game.
Proof.
  assert (0 ∉ open_columns (board full_column_game)) as Hmv
    by decide_by_compute.
  split; [exact Hmv|].
  pose proof (make_move_unavailable full_column_game 0 Hmv) as (H1 & H2 & _).
  split; [exact H1 | exact H2].
Defined.

(** C2, as stated, fails: after six moves in column 0 a seventh is refused,
    and the call changes the state's [available_moves]. *)
Lemma make_move_unavailable_mutates :
  (0 ∉ open_columns (board full_column_game)) ∧
  (make_move full_column_game 0).1 = false ∧
  available_moves full_column_game = [0; 1; 2; 3; 4; 5; 6] ∧
  available_moves (make_move full_column_game 0).2 = [1; 2; 3; 4; 5; 6] ∧
  (make_move full_column_game 0).2 ≠ full_column_game.
Proof.
  split; [decide_by_compute|].
  split; [vm_compute; reflexivity|]. split; [vm_compute; reflexivity|].
  split; [vm_compute; reflexivity|].
  intros E. apply (f_equal available_moves) in E. vm_compute in E. discriminate.
Qed.

(** ** Boards after a move *)

Lemma cell_at_set_cell_ne b r c v r' c' :
  (r', c') ≠ (r, c) → cell_at (set_cell b r c v) r' c' = cell_at b r' c'.
Proof.
  intros Hne. unfold set_cell, cell_at.
  destruct (b !! r) as [row|] eqn:Er; [|done].
  destruct (decide (r' = r)) as [->|Hr].
  - rewrite list_lookup_insert_eq by (by eapply lookup_lt_Some).
    rewrite Er. rewrite list_lookup_insert_ne by congruence. done.
  - by rewrite list_lookup_insert_ne.
Qed.

Lemma cell_at_set_cell_eq b r c v :
  wf_board b → (r < ROWS)%nat → (c < COLS)%nat →
  cell_at (set_cell b r c v) r c = v.
Proof.
  intros [Hlen Hrows] Hr Hc. unfold set_cell, cell_at.
  destruct (b !! r) as [row|] eqn:Er.
  - rewrite list_lookup_insert_eq by lia.
    rewrite Forall_lookup in Hrows. specialize (Hrows _ _ Er). simpl in Hrows.
    rewrite list_lookup_insert_eq by lia. done.
  - apply lookup_ge_None in Er. lia.
Qed.

Lemma set_cell_wf b r c v : wf_board b → wf_board (set_cell b r c v).
Proof.
  intros [Hlen Hrows]. unfold set_cell.
  destruct (b !! r) as [row|] eqn:Er; [|done]. split.
  - by rewrite length_insert.
  - apply Forall_insert; [done|]. rewrite length_insert.
    rewrite Forall_lookup in Hrows. by apply (Hrows _ _ Er).
Qed.

(** Where a move lands: the lowest blank cell of the column. *)
Lemma simulate_move_on_cases b m p :
  simulate_move_on b m p = b ∨
  ∃ r, (r < ROWS)%nat ∧ cell_at b r (Z.to_nat m) = EMPTY ∧
       simulate_move_on b m p = set_cell b r (Z.to_nat m) p.
Proof.
  unfold simulate_move_on.
  destruct (find _ _) as [r|] eqn:E; [right | by left].
  apply find_some in E as [Hin E]. apply String.eqb_eq in E.
  exists r. split; [|done].
  apply list_elem_of_In in Hin. rewrite !elem_of_cons, elem_of_nil in Hin.
  unfold ROWS. lia.
Qed.

Lemma simulate_move_on_wf b m p : wf_board b → wf_board (simulate_move_on b m p).
Proof.
  intros Hwf. destruct (simulate_move_on_cases b m p) as [-> | (r & _ & _ & ->)];
    [done | by apply set_cell_wf].
Qed.

Lemma elem_of_open_columns b m :
  m ∈ open_columns b ↔ 0 ≤ m < 7 ∧ cell_at b 0 (Z.to_nat m) = EMPTY.
Proof.
  unfold open_columns, range. rewrite list_elem_of_fmap. split.
  - intros (c & -> & Hc). apply list_elem_of_filter in Hc as [Hc Hin].
    apply elem_of_seq in Hin. rewrite Nat2Z.id. split; [lia | done].
  - intros [Hm Hc]. exists (Z.to_nat m). split; [lia|].
    apply list_elem_of_filter. split; [done|]. apply elem_of_seq. lia.
Qed.
Lemma line_through_new_cell b r c p t :
  wf_board b → (r < ROWS)%nat → (c < COLS)%nat →
  ¬ winning_line b → t ≠ EMPTY →
  four_in_line (set_cell b r c p) t → t = p.
Proof.
  intros Hwf Hr Hc Hno Hne (r0 & c0 & dr & dc & Hd & Hk).
  assert (∀ k, 0 ≤ k < 4 →
            (Z.to_nat (r0 + k * dr), Z.to_nat (c0 + k * dc)) = (r, c) → t = p) as Hon.
  { intros k Hk4 [= Er Ec]. destruct (Hk k Hk4) as (_ & _ & Ht).
    rewrite Er, Ec, cell_at_set_cell_eq in Ht by done. done. }
  destruct (decide ((Z.to_nat (r0 + 0 * dr), Z.to_nat (c0 + 0 * dc)) = (r, c))) as [E0|N0];
    [by apply (Hon 0)|].
  destruct (decide ((Z.to_nat (r0 + 1 * dr), Z.to_nat (c0 + 1 * dc)) = (r, c))) as [E1|N1];
    [by apply (Hon 1)|].
  destruct (decide ((Z.to_nat (r0 + 2 * dr), Z.to_nat (c0 + 2 * dc)) = (r, c))) as [E2|N2];
    [by apply (Hon 2)|].
  destruct (decide ((Z.to_nat (r0 + 3 * dr), Z.to_nat (c0 + 3 * dc)) = (r, c))) as [E3|N3];
    [by apply (Hon 3)|].
  exfalso. apply Hno. exists t. split; [done|].
  exists r0, c0, dr, dc. split; [done|]. intros k Hk4.
  destruct (Hk k Hk4) as (Hrk & Hck & Ht). split; [done|]. split; [done|].
  rewrite cell_at_set_cell_ne in Ht; [done|].
  assert (k = 0 ∨ k = 1 ∨ k = 2 ∨ k = 3) as [-> | [-> | [-> | ->]]] by lia; done.
Qed.

Lemma check_win_None_iff b : check_win_on_board b = None ↔ ¬ winning_line b.
Proof.
  split.
  - intros Hnone (t & Hne & Hl). by apply (check_win_complete b t Hne Hl).
  - intros Hno. destruct (check_win_on_board b) as [u|] eqn:E; [|done].
    exfalso. apply Hno. exists u. by apply check_win_sound.
Qed.

(** On a board without a winning line, the scan after a move reports the
    mover or nobody. *)
Lemma check_win_after_move b m p t :
  wf_board b → ¬ winning_line b →
  check_win_on_board (simulate_move_on b m p) = Some t → t = p.
Proof.
  intros Hwf Hno E. apply check_win_sound in E as [Hne Hl].
  destruct (simulate_move_on_cases b m p) as [Eb | (r & Hr & _ & Eb)]; rewrite Eb in Hl.
  - exfalso. apply Hno. by exists t.
  - destruct (decide (Z.to_nat m < COLS)%nat) as [Hc|Hc].
    + by eapply line_through_new_cell.
    + exfalso. apply Hno. exists t. split; [done|].
      replace (set_cell b r (Z.to_nat m) p) with b in Hl; [done|].
      unfold set_cell. destruct (b !! r) as [row|] eqn:Er; [|done].
      destruct Hwf as [_ Hrows]. rewrite Forall_lookup in Hrows.
      specialize (Hrows _ _ Er). simpl in Hrows.
      rewrite (list_insert_ge row) by lia. by rewrite list_insert_id.
Qed.

Lemma check_win_immediate b m p :
  wf_board b → ¬ winning_line b →
  check_win_on_board (simulate_move_on b m p) = Some p ↔ immediate_win b p m.
Proof.
  intros Hwf Hno. split.
  - intros E. by apply check_win_sound in E.
  - intros [Hne Hl]. pose proof (check_win_complete _ _ Hne Hl) as Hsome.
    destruct (check_win_on_board _) as [t|] eqn:E; [|done].
    f_equal. by eapply check_win_after_move.
Qed.

Lemma no_line_after_move b m p :
  wf_board b → ¬ winning_line b → ¬ immediate_win b p m →
  ¬ winning_line (simulate_move_on b m p).
Proof.
  intros Hwf Hno Hnw. apply check_win_None_iff.
  destruct (check_win_on_board _) as [t|] eqn:E; [|done].
  exfalso. apply Hnw. apply check_win_immediate; [done..|].
  rewrite E. f_equal. by eapply check_win_after_move.
Qed.
(** ** The root node and the tactical checks *)

Lemma init_untried st par mv :
  untried_moves (MCTSNode_init st par mv) =
  match check_win_on_board (board st) with
  | Some t => if truthy t then [] else open_columns (board st)
  | None => open_columns (board st)
  end.
Proof.
  unfold MCTSNode_init, _check_winstate.
  destruct (check_win_on_board (board st)) as [t|]; [destruct (truthy t)|]; done.
Qed.

Lemma init_fields st par mv :
  parent (MCTSNode_init st par mv) = par ∧
  move (MCTSNode_init st par mv) = mv ∧
  children (MCTSNode_init st par mv) = [] ∧
  visits (MCTSNode_init st par mv) = 0%nat.
Proof.
  unfold MCTSNode_init.
  destruct (_check_winstate st) as [[w|] st1]; [done|].
  by destruct (_get_available_moves st1 None).
Qed.

Lemma valid_board_cell b r c : valid_board b → cell_at b r c ∈ [EMPTY; "R"; "Y"].
Proof.
  intros [_ Hcells]. unfold cell_at.
  destruct (b !! r) as [row|] eqn:Er; [|by left].
  destruct (row !! c) as [x|] eqn:Ec; [|by left].
  rewrite Forall_lookup in Hcells. specialize (Hcells _ _ Er).
  rewrite Forall_lookup in Hcells. by apply (Hcells _ _ Ec).
Qed.

Lemma winner_truthy b t :
  valid_board b → check_win_on_board b = Some t → truthy t = true.
Proof.
  intros Hvalid E. apply check_win_sound in E as [Hne (r & c & dr & dc & _ & Hk)].
  destruct (Hk 0 ltac:(lia)) as (_ & _ & Ht).
  pose proof (valid_board_cell b (Z.to_nat (r + 0 * dr)) (Z.to_nat (c + 0 * dc)) Hvalid)
    as Hcells.
  rewrite Ht, !elem_of_cons, elem_of_nil in Hcells.
  destruct Hcells as [-> | [-> | [-> | []]]]; done.
Qed.

Section Tactics.
Context {F : Type} `{ScoreArith F}.
Variable rng : nat → nat.
Variable self : MCTS F.

Lemma tactical_checks_won root :
  wf_state root → winning_line (board root) →
  tactical_checks root = (Return None, root).
Proof.
  intros [Hvalid _] Hwin. unfold tactical_checks.
  rewrite init_untried. simpl.
  destruct (check_win_on_board (board root)) as [t|] eqn:E.
  - by rewrite (winner_truthy _ _ Hvalid E).
  - by apply check_win_None_iff in E.
Qed.

Lemma tactical_checks_no_moves root :
  open_columns (board root) = [] → tactical_checks root = (Return None, root).
Proof.
  intros Hfull. unfold tactical_checks. rewrite init_untried. simpl. rewrite Hfull.
  destruct (check_win_on_board (board root)) as [t|]; [destruct (truthy t)|]; done.
Qed.

Lemma get_best_move_Return root r rs :
  tactical_checks root = (Return r, rs) →
  get_best_move rng self root =
    (Ok (r, [MCTSNode_init (copy root) None None], 0%nat), rs).
Proof. unfold get_best_move. by intros ->. Qed.
End Tactics.

(** C9.  When the root state already holds a winning line,
    [get_best_move] returns [None], the root node having no untried move,
    whatever columns are still open; the result is the one of a root
    without any open column. *)
Theorem get_best_move_won_root {F : Type} `{ScoreArith F}
    (rng : nat → nat) (self : MCTS F) (root : Connect4) :
  wf_state root → winning_line (board root) →
  untried_moves (MCTSNode_init (copy root) None None) = [] ∧
  get_best_move rng self root =
    (Ok (None, [MCTSNode_init (copy root) None None], 0%nat), root) ∧
  ∀ full, open_columns (board full) = [] →
    get_best_move rng self full =
      (Ok (None, [MCTSNode_init (copy full) None None], 0%nat), full).
Proof.
  intros Hwf Hwin. split; [|split].
  - rewrite init_untried. simpl. destruct Hwf as [Hvalid _].
    destruct (check_win_on_board (board root)) as [t|] eqn:E.
    + by rewrite (winner_truthy _ _ Hvalid E).
    + by apply check_win_None_iff in E.
  - apply get_best_move_Return. by apply tactical_checks_won.
  - intros full Hfull. apply get_best_move_Return. by apply tactical_checks_no_moves.
Qed.

Lemma get_best_move_won_root_witness :
  wf_state red_row_game ∧ winning_line (board red_row_game) ∧
  open_columns (board red_row_game) = [0; 1; 2; 3; 4; 5; 6] ∧
  get_best_move (H := real_arith) (λ _, 0%nat) (mkMCTS _ 1000%nat (Rdefinitions.IZR 1))
                red_row_game =
    (Ok (None, [MCTSNode_init (copy red_row_game) None None], 0%nat), red_row_game).
Proof.
  assert (wf_state red_row_game) as Hwf by decide_by_compute.
  assert (winning_line (board red_row_game)) as Hwin.
  { exists "R". apply check_win_sound. vm_compute. reflexivity. }
  split; [exact Hwf|]. split; [exact Hwin|]. split; [vm_compute; reflexivity|].
  exact (proj1 (proj2 (get_best_move_won_root (H := real_arith) _ _ red_row_game Hwf Hwin))).
Defined.
Lemma board_copy s : board (copy s) = board s.
Proof. done. Qed.

Lemma tactical_checks_open root a b l :
  ¬ winning_line (board root) → open_columns (board root) = a :: b :: l →
  tactical_checks root =
    let legal_moves := a :: b :: l in
    let ai_player := player_at root (current_turn root) in
    let human_player := player_at root (current_turn root + 1) in
    match first_hit (λ mv,
            match check_win_on_board (simulate_move root mv None None) with
            | Some t => if t =? ai_player then Some mv else None
            | None => None
            end) legal_moves with
    | Some mv => (Return (Some mv), root)
    | None =>
        let '(safe_moves, rs) := safe_scan root human_player legal_moves [] in
        let common_safe := filter (λ m, m ∈ safe_moves) legal_moves in
        (Search (mkNode (copy root) None None [] 0%Q 0%nat
                   match safe_moves, common_safe with
                   | _ :: _, _ :: _ => common_safe
                   | _, _ => legal_moves
                   end
                   (player_at root (current_turn root - 1))), rs)
    end.
Proof.
  intros Hno Hopen. apply check_win_None_iff in Hno.
  unfold tactical_checks, MCTSNode_init, _check_winstate, _get_available_moves.
  rewrite !board_copy, Hno. cbn zeta iota beta.
  cbn [untried_moves state parent move children wins visits player_just_moved].
  rewrite ?board_copy, !Hopen.
  destruct (first_hit _ _); [done|].
  destruct (safe_scan _ _ _ _) as [safe rs]. done.
Qed.

(** C4.  On a root without a winning line and with at least two open
    columns, when some legal move gives the side to move four in line at
    once, [get_best_move] returns such a move from its first tactical
    scan: the store holds the fresh root node only and the random source
    has not been read, whatever the simulation budget. *)
Theorem get_best_move_takes_win {F : Type} `{ScoreArith F}
    (rng : nat → nat) (self : MCTS F) (root : Connect4) :
  wf_state root → ¬ winning_line (board root) →
  (2 ≤ length (open_columns (board root)))%nat →
  (∃ m, m ∈ open_columns (board root) ∧
        immediate_win (board root) (player_at root (current_turn root)) m) →
  ∃ m, m ∈ open_columns (board root) ∧
       immediate_win (board root) (player_at root (current_turn root)) m ∧
       tactical_checks root = (Return (Some m), root) ∧
       get_best_move rng self root =
         (Ok (Some m, [MCTSNode_init (copy root) None None], 0%nat), root).
Proof.
  intros [[Hwf _] _] Hno Hlen (m & Hm & Hwin).
  destruct (open_columns (board root)) as [|a [|b l]] eqn:Hopen; simpl in Hlen; [lia..|].
  pose proof (tactical_checks_open root a b l Hno Hopen) as Ht. cbn zeta in Ht.
  destruct (first_hit _ _) as [mv|] eqn:Ef.
  - apply first_hit_Some in Ef as (mv' & Hin & Ef).
    destruct (check_win_on_board _) as [t|] eqn:Ew; [|done].
    destruct (t =? player_at root (current_turn root)) eqn:Et; [|done].
    apply String.eqb_eq in Et. subst t. simplify_eq.
    exists mv. split; [done|]. split.
    + by apply check_win_immediate.
    + split; [done|]. by apply get_best_move_Return.
  - exfalso. rewrite first_hit_None in Ef. specialize (Ef m Hm).
    apply (check_win_immediate _ _ _ Hwf Hno) in Hwin.
    unfold simulate_move in Ef. rewrite Hwin, String.eqb_refl in Ef. done.
Qed.

Lemma get_best_move_takes_win_witness :
  wf_state three_in_row_game ∧ ¬ winning_line (board three_in_row_game) ∧
  (2 ≤ length (open_columns (board three_in_row_game)))%nat ∧
  ∃ m, m ∈ open_columns (board three_in_row_game) ∧
       immediate_win (board three_in_row_game)
         (player_at three_in_row_game (current_turn three_in_row_game)) m ∧
       tactical_checks three_in_row_game = (Return (Some m), three_in_row_game) ∧
       get_best_move (H := real_arith) (λ _, 0%nat) (mkMCTS _ 1000%nat (Rdefinitions.IZR 1))
                     three_in_row_game =
         (Ok (Some m, [MCTSNode_init (copy three_in_row_game) None None], 0%nat),
          three_in_row_game).
Proof.
  assert (wf_state three_in_row_game) as Hwf by decide_by_compute.
  assert (¬ winning_line (board three_in_row_game)) as Hno
    by (apply check_win_None_iff; vm_compute; reflexivity).
  assert (2 ≤ length (open_columns (board three_in_row_game)))%nat as Hlen
    by (vm_compute; lia).
  assert (∃ m, m ∈ open_columns (board three_in_row_game) ∧
               immediate_win (board three_in_row_game)
                 (player_at three_in_row_game (current_turn three_in_row_game)) m) as Hwin.
  { exists 3. split; [decide_by_compute|].
    apply check_win_sound. vm_compute. reflexivity. }
  split; [exact Hwf|]. split; [exact Hno|]. split; [exact Hlen|].
  exact (get_best_move_takes_win (H := real_arith) _ _ three_in_row_game Hwf Hno Hlen Hwin).
Defined.

Lemma open_columns_NoDup b : NoDup (open_columns b).
Proof.
  unfold open_columns, range. apply NoDup_fmap_2; [apply _|].
  apply list.NoDup_filter, NoDup_seq.
Qed.

(** A second open column stays open when a token is dropped in one. *)
Lemma open_after_move b m p :
  (2 ≤ length (open_columns b))%nat → m ∈ open_columns b →
  open_columns (simulate_move_on b m p) ≠ [].
Proof.
  intros Hlen Hm.
  assert (∃ c, c ∈ open_columns b ∧ c ≠ m) as (c & Hc & Hcm).
  { pose proof (open_columns_NoDup b) as Hnd.
    destruct (open_columns b) as [|x [|y l]]; simpl in Hlen; [lia..|].
    destruct (decide (x = m)) as [->|Hx].
    - exists y. split; [right; left|]. intros ->.
      inversion Hnd as [|? ? Hnot _]. apply Hnot. left.
    - exists x. split; [left | done]. }
  apply elem_of_open_columns in Hc as [Hc0 Hc1].
  apply elem_of_open_columns in Hm as [Hm0 _].
  assert (c ∈ open_columns (simulate_move_on b m p)) as Hin.
  { apply elem_of_open_columns. split; [done|].
    destruct (simulate_move_on_cases b m p) as [-> | (r & _ & _ & ->)]; [done|].
    rewrite cell_at_set_cell_ne; [done|]. intros [= _ E]. lia. }
  intros E. rewrite E in Hin. by apply elem_of_nil in Hin.
Qed.

Lemma filter_iff_on {A} (P Q : A → Prop) `{!∀ x, Decision (P x), !∀ x, Decision (Q x)}
    (l : list A) :
  (∀ x, x ∈ l → (P x ↔ Q x)) → filter P l = filter Q l.
Proof.
  induction l as [|a l IH]; intros Hiff; [done|].
  rewrite !filter_cons.
  assert (filter P l = filter Q l) as -> by (apply IH; intros x Hx; apply Hiff; by right).
  apply decide_ext, Hiff. left. 
Qed.

Lemma safe_scan_spec rs human legal safe :
  (∀ m, m ∈ legal → open_columns (simulate_move rs m None None) ≠ []) →
  safe_scan rs human legal safe =
    (safe ++ filter (λ m, opponent_can_win rs human (simulate_move rs m None None)
                            (open_columns (simulate_move rs m None None)) = false) legal,
     rs).
Proof.
  revert safe. induction legal as [|m legal IH]; intros safe Hopen; simpl.
  - by rewrite app_nil_r.
  - unfold _get_available_moves.
    destruct (open_columns (simulate_move rs m None None)) as [|o os] eqn:E.
    { exfalso. apply (Hopen m); [left | done]. }
    rewrite IH by (intros m' Hm'; apply Hopen; by right).
    rewrite filter_cons.
    destruct (opponent_can_win rs human _ (o :: os)) eqn:Ec.
    + rewrite decide_False by (rewrite E, Ec; done). done.
    + rewrite decide_True by (rewrite E, Ec; done). by rewrite <- app_assoc.
Qed.

Lemma opponent_can_win_true rs human sim :
  wf_board sim → ¬ winning_line sim →
  opponent_can_win rs human sim (open_columns sim) = true ↔
  ∃ opp, opp ∈ open_columns sim ∧ immediate_win sim human opp.
Proof.
  intros Hwf Hno. unfold opponent_can_win. rewrite existsb_exists. split.
  - intros (opp & Hin & Ht). exists opp. split; [by apply list_elem_of_In|].
    unfold simulate_move in Ht.
    destruct (check_win_on_board _) as [t|] eqn:E; [|done].
    apply String.eqb_eq in Ht. subst t. by apply check_win_immediate.
  - intros (opp & Hin & Hw). exists opp. split; [by apply list_elem_of_In|].
    unfold simulate_move. apply (check_win_immediate _ _ _ Hwf Hno) in Hw.
    by rewrite Hw, String.eqb_refl.
Qed.

(** C5.  On a root without a winning line, with at least two open
    columns and no move that wins at once, the root node handed to the
    main loop has as untried moves exactly the legal moves after which the
    opponent has no reply winning at once, when there is such a move; when
    every legal move allows such a reply, its untried moves are all the
    legal moves. *)
Theorem get_best_move_prunes_unsafe {F : Type} `{ScoreArith F}
    (rng : nat → nat) (self : MCTS F) (root : Connect4) :
  let ai := player_at root (current_turn root) in
  let human := player_at root (current_turn root + 1) in
  wf_state root → ¬ winning_line (board root) →
  (2 ≤ length (open_columns (board root)))%nat →
  (∀ m, m ∈ open_columns (board root) → ¬ immediate_win (board root) ai m) →
  ∃ root_node,
    tactical_checks root = (Search root_node, root) ∧
    get_best_move rng self root =
      ('(t, pos) ← run_simulations rng self root (simulations self) [root_node] 0%nat;
       mv ← most_visited_move t; Ok (mv, t, pos), root) ∧
    ((∃ m, m ∈ open_columns (board root) ∧ ¬ winning_reply (board root) ai human m) →
     ∀ m, m ∈ untried_moves root_node ↔
          m ∈ open_columns (board root) ∧ ¬ winning_reply (board root) ai human m) ∧
    ((∀ m, m ∈ open_columns (board root) → winning_reply (board root) ai human m) →
     untried_moves root_node = open_columns (board root)).
Proof.
  intros ai human [[Hwf _] _] Hno Hlen Hnowin.
  assert (∀ m, m ∈ open_columns (board root) →
            (opponent_can_win root human (simulate_move root m None None)
               (open_columns (simulate_move root m None None)) = false
             ↔ ¬ winning_reply (board root) ai human m)) as Hsafe.
  { intros m Hm. rewrite <- not_true_iff_false.
    rewrite opponent_can_win_true;
      [done | by apply simulate_move_on_wf | apply no_line_after_move; auto]. }
  pose proof (safe_scan_spec root human (open_columns (board root)) []) as Hscan.
  rewrite app_nil_l in Hscan.
  specialize (Hscan ltac:(intros m Hm; by apply open_after_move)).
  destruct (open_columns (board root)) as [|a [|b l]] eqn:Hopen; simpl in Hlen; [lia..|].
  pose proof (tactical_checks_open root a b l Hno Hopen) as Ht. cbn zeta in Ht.
  destruct (first_hit _ _) as [mv|] eqn:Ef.
  { exfalso. apply first_hit_Some in Ef as (mv' & Hin & Ef).
    destruct (check_win_on_board _) as [t|] eqn:Ew; [|done].
    destruct (t =? player_at root (current_turn root)) eqn:Et; [|done].
    apply String.eqb_eq in Et. subst t.
    apply (Hnowin mv' Hin). by apply check_win_immediate. }
  unfold human in Hscan at 1. rewrite Hscan in Ht.
  set (safe := filter _ (a :: b :: l)) in *.
  assert (∀ m, m ∈ safe ↔ m ∈ a :: b :: l ∧ ¬ winning_reply (board root) ai human m)
    as Hsafe_in.
  { intros m. unfold safe. rewrite list_elem_of_filter. split.
    - intros [Hs Hm]. split; [done|]. by apply Hsafe.
    - intros [Hm Hs]. split; [|done]. by apply Hsafe. }
  assert (filter (λ m, m ∈ safe) (a :: b :: l) = safe) as Hcommon.
  { unfold safe. apply filter_iff_on. intros m Hm.
    rewrite list_elem_of_filter. tauto. }
  rewrite Hcommon in Ht.
  eexists. split; [exact Ht|]. split.
  { unfold get_best_move. by rewrite Ht. }
  cbn [untried_moves]. split.
  - intros (m0 & Hm0 & Hs0).
    assert (m0 ∈ safe) as Hin0 by (by apply Hsafe_in).
    destruct safe as [|s0 ss] eqn:Es; [by apply elem_of_nil in Hin0|].
    intros m. apply Hsafe_in.
  - intros Hall. destruct safe as [|s0 ss] eqn:Es; [done|].
    exfalso. assert (s0 ∈ s0 :: ss) as Hin0 by left.
    apply Hsafe_in in Hin0 as [Hm Hs]. by apply Hs, Hall.
Qed.

Lemma get_best_move_prunes_unsafe_witness :
  wf_state must_block_game ∧ ¬ winning_line (board must_block_game) ∧
  (2 ≤ length (open_columns (board must_block_game)))%nat ∧
  (∀ m, m ∈ open_columns (board must_block_game) →
        ¬ immediate_win (board must_block_game) "R" m) ∧
  ∃ root_node,
    tactical_checks must_block_game = (Search root_node, must_block_game) ∧
    untried_moves root_node = [3] ∧
    ((∃ m, m ∈ open_columns (board must_block_game) ∧
           ¬ winning_reply (board must_block_game) "R" "Y" m) →
     ∀ m, m ∈ untried_moves root_node ↔
          m ∈ open_columns (board must_block_game) ∧
          ¬ winning_reply (board must_block_game) "R" "Y" m).
Proof.
  assert (wf_state must_block_game) as Hwf by decide_by_compute.
  assert (¬ winning_line (board must_block_game)) as Hno
    by (apply check_win_None_iff; vm_compute; reflexivity).
  assert (2 ≤ length (open_columns (board must_block_game)))%nat as Hlen
    by (vm_compute; lia).
  assert (∀ m, m ∈ open_columns (board must_block_game) →
               ¬ immediate_win (board must_block_game)
                   (player_at must_block_game (current_turn must_block_game)) m) as Hnw.
  { assert (open_columns (board must_block_game) = [0; 1; 2; 3; 4; 5; 6]) as ->
      by (vm_compute; reflexivity).
    intros m Hm Hw. destruct Hwf as [[Hb _] _].
    apply (check_win_immediate _ _ _ Hb Hno) in Hw.
    rewrite !elem_of_cons, elem_of_nil in Hm.
    destruct Hm as [-> | [-> | [-> | [-> | [-> | [-> | [-> | []]]]]]]];
      vm_compute in Hw; discriminate. }
  split; [exact Hwf|]. split; [exact Hno|]. split; [exact Hlen|]. split; [exact Hnw|].
  destruct (get_best_move_prunes_unsafe (H := real_arith) (λ _, 0%nat)
              (mkMCTS _ 1000%nat (Rdefinitions.IZR 1)) must_block_game Hwf Hno Hlen Hnw)
    as (root_node & Ht & _ & Hsafe & _).
  exists root_node. split; [exact Ht|]. split; [|exact Hsafe].
  assert (tactical_checks must_block_game
          = (Search (mkNode (copy must_block_game) None None [] 0%Q 0%nat [3] "Y"),
             must_block_game)) as Hc by (vm_compute; reflexivity).
  rewrite Hc in Ht. apply (f_equal fst) in Ht. cbn [fst] in Ht.
  injection Ht as <-. reflexivity.
Defined.
(** ** Sorting and the last element *)

Section Sorting.
Context {K A : Type} (lt : K → K → bool).
Hypothesis lt_asym : ∀ x y, lt x y = true → lt y x = false.
Hypothesis lt_negtrans : ∀ x y z, lt x z = true → lt x y = true ∨ lt y z = true.

Local Abbreviation may_precede := (may_precede (A := A) lt).

Lemma lt_irrefl x : lt x x = false.
Proof. destruct (lt x x) eqn:E; [|done]. apply lt_asym in E as E'. congruence. Qed.

Lemma elem_of_insert_by (x y : K * A) l : y ∈ insert_by lt x l ↔ y = x ∨ y ∈ l.
Proof.
  induction l as [|z l IH]; simpl.
  - rewrite elem_of_cons. done.
  - destruct (lt z.1 x.1); rewrite !elem_of_cons, ?IH; tauto.
Qed.

Lemma elem_of_sorted (y : K * A) l : y ∈ sorted lt l ↔ y ∈ l.
Proof.
  induction l as [|z l IH]; simpl; [done|].
  rewrite elem_of_insert_by, elem_of_cons, IH. done.
Qed.

Lemma insert_by_sorted (x : K * A) l :
  StronglySorted may_precede l → StronglySorted may_precede (insert_by lt x l).
Proof.
  induction 1 as [|z l Hs IH Hz]; simpl.
  - repeat constructor.
  - destruct (lt z.1 x.1) eqn:E.
    + constructor; [done|]. apply list.Forall_forall. intros y Hy.
      apply elem_of_insert_by in Hy as [-> | Hy].
      * unfold may_precede. by apply lt_asym.
      * rewrite list.Forall_forall in Hz. by apply Hz.
    + constructor; [by constructor|]. constructor; [done|].
      apply list.Forall_forall. intros y Hy. rewrite list.Forall_forall in Hz.
      specialize (Hz y Hy). unfold may_precede in *.
      destruct (lt y.1 x.1) eqn:E'; [|done].
      destruct (lt_negtrans _ z.1 _ E'); congruence.
Qed.

Lemma sorted_sorted (l : list (K * A)) : StronglySorted may_precede (sorted lt l).
Proof.
  induction l as [|z l IH]; simpl; [constructor | by apply insert_by_sorted].
Qed.

Lemma last_item_sorted (l : list (K * A)) x :
  StronglySorted may_precede l → last_item l = Some x →
  x ∈ l ∧ ∀ y, y ∈ l → lt x.1 y.1 = false.
Proof.
  induction 1 as [|z l Hs IH Hz]; [done|]. simpl.
  destruct l as [|z' l'].
  - intros [= ->]. split; [left|]. intros y Hy.
    apply list_elem_of_singleton in Hy as ->. apply lt_irrefl.
  - intros Hl. destruct (IH Hl) as [Hin Hmax]. split; [by right|].
    intros y Hy. apply elem_of_cons in Hy as [-> | Hy]; [|by apply Hmax].
    rewrite list.Forall_forall in Hz. by apply (Hz x).
Qed.

Lemma last_item_nonempty (l : list (K * A)) : l ≠ [] → is_Some (last_item l).
Proof.
  induction l as [|z [|z' l'] IH]; [done | by eexists |].
  intros _. apply IH. done.
Qed.

(** [sorted(l)[-1]] on a non-empty list: an element of [l] below which
    no element's key lies. *)
Lemma last_sorted_max (l : list (K * A)) :
  l ≠ [] →
  ∃ x, last_item (sorted lt l) = Some x ∧ x ∈ l ∧ ∀ y, y ∈ l → lt x.1 y.1 = false.
Proof.
  intros Hne.
  assert (sorted lt l ≠ []) as Hne'.
  { destruct l as [|z l]; [done|]. intros E.
    assert (z ∈ sorted lt (z :: l)) as Hin by (apply elem_of_sorted; left).
    rewrite E in Hin. by apply elem_of_nil in Hin. }
  destruct (last_item_nonempty _ Hne') as [x Hx]. exists x. split; [done|].
  destruct (last_item_sorted _ _ (sorted_sorted l) Hx) as [Hin Hmax].
  split; [by apply elem_of_sorted|].
  intros y Hy. apply Hmax. by apply elem_of_sorted.
Qed.
End Sorting.

(** ** Sorting keys that are ordered among themselves *)

Section SortingOn.
Context {K A : Type} (lt : K → K → bool) (P : K → Prop).
Hypothesis lt_ordered : ordered_on P lt.

Local Abbreviation may_precede := (may_precede (A := A) lt).

Lemma lt_irrefl_on x : P x → lt x x = false.
Proof.
  intros Hx. destruct (lt x x) eqn:E; [|done].
  pose proof (proj1 lt_ordered x x Hx Hx E). congruence.
Qed.

Lemma insert_by_sorted_on (x : K * A) l :
  P x.1 → (∀ y, y ∈ l → P y.1) →
  StronglySorted may_precede l → StronglySorted may_precede (insert_by lt x l).
Proof.
  intros Hx Hl Hs. revert Hl.
  induction Hs as [|z l Hs IH Hz]; intros Hl; simpl.
  - repeat constructor.
  - assert (P z.1) as HPz by (apply Hl; left).
    assert (∀ y, y ∈ l → P y.1) as Hl' by (intros y Hy; apply Hl; by right).
    destruct (lt z.1 x.1) eqn:E.
    + constructor; [by apply IH|]. apply list.Forall_forall. intros y Hy.
      apply elem_of_insert_by in Hy as [-> | Hy].
      * unfold may_precede. by apply (proj1 lt_ordered).
      * rewrite list.Forall_forall in Hz. by apply Hz.
    + constructor; [by constructor|]. constructor; [done|].
      apply list.Forall_forall. intros y Hy. rewrite list.Forall_forall in Hz.
      specialize (Hz y Hy). unfold may_precede in *.
      destruct (lt y.1 x.1) eqn:E'; [|done].
      destruct (proj2 lt_ordered y.1 z.1 x.1 (Hl' y Hy) HPz Hx E'); congruence.
Qed.

Lemma sorted_sorted_on (l : list (K * A)) :
  (∀ y, y ∈ l → P y.1) → StronglySorted may_precede (sorted lt l).
Proof.
  induction l as [|z l IH]; intros Hl; simpl; [constructor|].
  apply insert_by_sorted_on.
  - apply Hl. left.
  - intros y Hy. apply elem_of_sorted in Hy. apply Hl. by right.
  - apply IH. intros y Hy. apply Hl. by right.
Qed.

Lemma last_item_sorted_on (l : list (K * A)) x :
  (∀ y, y ∈ l → P y.1) →
  StronglySorted may_precede l → last_item l = Some x →
  x ∈ l ∧ ∀ y, y ∈ l → lt x.1 y.1 = false.
Proof.
  intros Hl Hs. revert Hl.
  induction Hs as [|z l Hs IH Hz]; intros Hl; [done|]. simpl.
  destruct l as [|z' l'].
  - intros [= ->]. split; [left|]. intros y Hy.
    apply list_elem_of_singleton in Hy as ->. apply lt_irrefl_on, Hl. left.
  - intros Hlast.
    destruct (IH ltac:(intros y Hy; apply Hl; by right) Hlast) as [Hin Hmax].
    split; [by right|].
    intros y Hy. apply elem_of_cons in Hy as [-> | Hy]; [|by apply Hmax].
    rewrite list.Forall_forall in Hz. by apply (Hz x).
Qed.

(** [sorted(l)[-1]] on a non-empty list of keys ordered among themselves:
    an element of [l] below which no element's key lies. *)
Lemma last_sorted_max_on (l : list (K * A)) :
  (∀ y, y ∈ l → P y.1) → l ≠ [] →
  ∃ x, last_item (sorted lt l) = Some x ∧ x ∈ l ∧ ∀ y, y ∈ l → lt x.1 y.1 = false.
Proof.
  intros Hl Hne.
  assert (sorted lt l ≠ []) as Hne'.
  { destruct l as [|z l]; [done|]. intros E.
    assert (z ∈ sorted lt (z :: l)) as Hin by (apply (elem_of_sorted lt); left).
    rewrite E in Hin. by apply elem_of_nil in Hin. }
  destruct (last_item_nonempty _ Hne') as [x Hx]. exists x. split; [done|].
  destruct (last_item_sorted_on (sorted lt l) x) as [Hin Hmax]; [| |done|].
  - intros y Hy. apply elem_of_sorted in Hy. by apply Hl.
  - by apply sorted_sorted_on.
  - split; [by apply (elem_of_sorted lt)|].
    intros y Hy. apply Hmax. by apply (elem_of_sorted lt).
Qed.
End SortingOn.

(** ** UCT selection *)

Section UCT.
Context {F : Type} `{ScoreArith F}.

(** Computed values that [<] orders and that all lie below
    [float('inf')] make ordered keys. *)
Lemma key_lt_ordered (P : key F → Prop) :
  (∀ x y : F, Flt x y = true → Flt y x = false) →
  (∀ x y z : F, Flt x z = true → Flt x y = true ∨ Flt y z = true) →
  (∀ x : F, Flt_inf x = true) →
  ordered_on P key_lt.
Proof.
  intros Hasym Hneg Hinf. split.
  - intros [x|] [y|] _ _; simpl; try done; auto.
  - intros [x|] [y|] [z|] _ _ _; simpl; try done; auto.
Qed.

Lemma uct_score_Inf C n c : uct_score C n c = Inf ↔ visits c = 0%nat.
Proof.
  unfold uct_score. destruct (0 <? visits c)%nat eqn:E.
  - apply Nat.ltb_lt in E. split; [done | lia].
  - apply Nat.ltb_ge in E. split; [lia | done].
Qed.

Lemma uct_key_score C n c :
  (0 < visits n ∨ visits c = 0)%nat → uct_key C n c = Ok (uct_score C n c).
Proof.
  intros Hv. unfold uct_key, uct_score.
  destruct (0 <? visits c)%nat eqn:Ec; [|done].
  destruct (0 <? visits n)%nat eqn:En; [done|].
  apply Nat.ltb_lt in Ec. apply Nat.ltb_ge in En. lia.
Qed.

Lemma keyed_scores C (t : tree) n cs :
  (∀ c, c ∈ cs → ∃ cn, t !! c = Some cn ∧ (0 < visits n ∨ visits cn = 0)%nat) →
  ∃ ks, keyed C t n cs = Ok ks ∧ length ks = length cs ∧
        ∀ k c, (k, c) ∈ ks ↔
               c ∈ cs ∧ ∃ cn, t !! c = Some cn ∧ k = uct_score C n cn.
Proof.
  induction cs as [|c cs IH]; intros Hcs; simpl.
  - exists []. split; [done|]. split; [done|]. intros k c.
    split; [by intros ?%elem_of_nil | by intros [?%elem_of_nil _]].
  - destruct (Hcs c ltac:(left)) as (cn & Hc & Hv).
    destruct IH as (ks & -> & Hlen & Hks); [intros c' Hc'; apply Hcs; by right|].
    unfold node_at. rewrite Hc. simpl. rewrite (uct_key_score _ _ _ Hv). simpl.
    eexists. split; [done|]. split; [simpl; by rewrite Hlen|].
    intros k c'. rewrite !elem_of_cons, Hks. split.
    + intros [[= -> ->] | [Hin Hk]]; [split; [by left | eauto] | split; [by right | done]].
    + intros [[-> | Hin] (cn' & Hc' & ->)]; [left | right; eauto].
      by simplify_eq.
Qed.
End UCT.

(** C7.  On a node with children that was visited at least once, or has
    unvisited children only, and among whose children's scores [<] is a
    strict weak order (as it is when none is NaN), [uct_select_child]
    returns one of the children, and no child has a score above the
    returned child's, the score being
    [wins/visits + C * sqrt(ln(parent visits) / visits)] for a visited
    child and [float('inf')] for an unvisited one.  If in addition the
    score computed for each visited child is below [float('inf')], then
    as soon as some child is unvisited, so is the returned child. *)
Theorem uct_select_child_max {F : Type} `{ScoreArith F}
    (t : tree) (self : nat) (C : F) (n : MCTSNode) :
  t !! self = Some n → children n ≠ [] →
  (∀ c, c ∈ children n → is_Some (t !! c)) →
  ((0 < visits n)%nat ∨ ∀ c cn, c ∈ children n → t !! c = Some cn → visits cn = 0%nat) →
  ordered_on (child_score C t n) key_lt →
  ∃ c cn,
    uct_select_child t self C = Ok c ∧ c ∈ children n ∧ t !! c = Some cn ∧
    (∀ c' cn', c' ∈ children n → t !! c' = Some cn' →
               key_lt (uct_score C n cn) (uct_score C n cn') = false) ∧
    ((∀ c' cn', c' ∈ children n → t !! c' = Some cn' → (0 < visits cn')%nat →
                key_lt (uct_score C n cn') Inf = true) →
     (∃ c' cn', c' ∈ children n ∧ t !! c' = Some cn' ∧ visits cn' = 0%nat) →
     visits cn = 0%nat).
Proof.
  intros Hself Hne Hin Hvis Hord.
  destruct (keyed_scores C t n (children n)) as (ks & Hks & Hlen & Hmem).
  { intros c Hc. destruct (Hin c Hc) as [cn Hcn]. exists cn. split; [done|].
    destruct Hvis as [Hv | Hv]; [by left | right; by eapply Hv]. }
  assert (ks ≠ []) as Hks_ne.
  { intros ->. simpl in Hlen. destruct (children n); [done | simpl in Hlen; lia]. }
  destruct (last_sorted_max_on key_lt (child_score C t n) Hord ks)
    as ([k c] & Hlast & Hkc & Hmax); [|done|].
  { intros [k c] Hkc. apply Hmem in Hkc as (Hc & cn & Hcn & ->).
    exists c, cn. done. }
  apply Hmem in Hkc as (Hc & cn & Hcn & ->).
  assert (∀ c' cn', c' ∈ children n → t !! c' = Some cn' →
            key_lt (uct_score C n cn) (uct_score C n cn') = false) as Hbest.
  { intros c' cn' Hc' Hcn'. apply (Hmax (uct_score C n cn', c')).
    apply Hmem. eauto. }
  exists c, cn. split.
  { unfold uct_select_child, node_at. rewrite Hself. simpl. rewrite Hks. simpl.
    by rewrite Hlast. }
  split; [done|]. split; [done|]. split; [done|].
  intros Hbelow (c' & cn' & Hc' & Hcn' & Hzero).
  specialize (Hbest c' cn' Hc' Hcn').
  apply (uct_score_Inf C n) in Hzero. rewrite Hzero in Hbest.
  destruct (decide (visits cn = 0%nat)) as [|Hpos]; [done|].
  rewrite (Hbelow c cn Hc Hcn) in Hbest by lia. done.
Qed.

Lemma real_lt_asym (x y : Rdefinitions.R) :
  Flt (ScoreArith := real_arith) x y = true → Flt (ScoreArith := real_arith) y x = false.
Proof.
  simpl. destruct (RIneq.Rlt_dec x y) as [Hxy|]; [|done]. intros _.
  destruct (RIneq.Rlt_dec y x) as [Hyx|]; [|done].
  exfalso. exact (Raxioms.Rlt_asym _ _ Hxy Hyx).
Qed.

Lemma real_lt_negtrans (x y z : Rdefinitions.R) :
  Flt (ScoreArith := real_arith) x z = true →
  Flt (ScoreArith := real_arith) x y = true ∨ Flt (ScoreArith := real_arith) y z = true.
Proof.
  simpl. destruct (RIneq.Rlt_dec x z) as [Hxz|]; [|done]. intros _.
  destruct (RIneq.Rlt_dec x y) as [Hxy|Hxy]; [by left | right].
  destruct (RIneq.Rlt_dec y z) as [Hyz|Hyz]; [done|].
  exfalso. apply Hyz. apply RIneq.Rnot_lt_le in Hxy.
  exact (RIneq.Rle_lt_trans _ _ _ Hxy Hxz).
Qed.

(** The keys of the idealised arithmetic are ordered. *)
Lemma real_keys_ordered (P : key Rdefinitions.R → Prop) :
  ordered_on P (key_lt (H := real_arith)).
Proof.
  apply (key_lt_ordered (H := real_arith) P real_lt_asym real_lt_negtrans).
  done.
Qed.

Lemma uct_select_child_max_witness :
  ∃ c cn,
    uct_select_child (H := real_arith) uct_example_tree 0%nat (Rdefinitions.IZR 1) = Ok c ∧
    c ∈ [1; 2]%nat ∧ uct_example_tree !! c = Some cn ∧ visits cn = 0%nat.
Proof.
  destruct (uct_select_child_max (H := real_arith) uct_example_tree 0%nat
              (Rdefinitions.IZR 1)
              (mkNode new_game None None [1; 2]%nat 1%Q 1%nat [] "Y") eq_refl)
    as (c & cn & Hsel & Hc & Hcn & _ & Hzero).
  - done.
  - intros c Hc. simpl in Hc. rewrite !elem_of_cons, elem_of_nil in Hc.
    destruct Hc as [-> | [-> | []]]; by eexists.
  - left. simpl. lia.
  - apply real_keys_ordered.
  - exists c, cn. split; [exact Hsel|]. split; [exact Hc|]. split; [exact Hcn|].
    apply Hzero.
    + intros c' cn' _ _ Hv. unfold uct_score.
      destruct (0 <? visits cn')%nat eqn:E; [reflexivity|].
      apply Nat.ltb_ge in E. lia.
    + exists 2%nat. eexists. split; [right; left|]. split; [reflexivity|done].
Defined.

Lemma sign_of_pos (r : Rdefinitions.R) :
  Rdefinitions.Rlt (Rdefinitions.IZR 0) r → sign_of r = Pos.
Proof.
  intros Hr. unfold sign_of.
  destruct (Rdefinitions.total_order_T (Rdefinitions.IZR 0) r) as [[Hlt | Heq] | Hgt].
  - done.
  - exfalso. rewrite <- Heq in Hr. exact (RIneq.Rlt_irrefl _ Hr).
  - exfalso. exact (Raxioms.Rlt_asym _ _ Hr Hgt).
Qed.

(** With [exploration_constant = float('inf')] the score of a child
    visited once, under a parent visited twice, is infinite. *)
Lemma infinite_constant_score (w : Q) :
  xadd (xdiv (XFin (Rdefinitions.Q2R w)) (XFin (Raxioms.INR 1)))
       (xmul XPInf (xsqrt (xdiv (xlog (XFin (Raxioms.INR 2))) (XFin (Raxioms.INR 1)))))
  = XPInf.
Proof.
  assert (Rdefinitions.Rlt (Rdefinitions.IZR 0) (Raxioms.INR 1)) as H1
    by (apply RIneq.lt_0_INR; lia).
  assert (Rdefinitions.Rlt (Rdefinitions.IZR 0) (Raxioms.INR 2)) as H2
    by (apply RIneq.lt_0_INR; lia).
  assert (Rdefinitions.Rlt (Rdefinitions.IZR 0) (Rpower.ln (Raxioms.INR 2))) as Hln.
  { rewrite <- Rpower.ln_1. apply Rpower.ln_increasing; [apply RIneq.Rlt_0_1|].
    apply RIneq.lt_1_INR. lia. }
  pose proof (RIneq.Rdiv_lt_0_compat _ _ Hln H1) as Hdiv.
  pose proof (R_sqrt.sqrt_lt_R0 _ Hdiv) as Hsqrt.
  unfold xlog. rewrite (sign_of_pos _ H2).
  unfold xdiv. rewrite (sign_of_pos _ H1).
  unfold xsqrt. rewrite (sign_of_pos _ Hdiv).
  unfold xmul, xsign. rewrite (sign_of_pos _ Hsqrt). reflexivity.
Qed.

(** C7, as stated, fails in two ways.  On [late_visit_tree] with
    [exploration_constant = float('inf')] the score of the visited second
    child is infinite as well: it ties with the unvisited first child
    and, standing later in [children], is the one returned.  On
    [unvisited_root_tree] the call returns no child: it raises
    [ValueError]. *)
Lemma uct_select_child_visited_or_raises :
  uct_select_child (H := xreal_arith) late_visit_tree 0%nat XPInf = Ok 2%nat ∧
  visits_at late_visit_tree 1%nat = 0%nat ∧
  visits_at late_visit_tree 2%nat = 1%nat ∧
  ¬ (∃ c, uct_select_child (H := xreal_arith) late_visit_tree 0%nat XPInf = Ok c ∧
          visits_at late_visit_tree c = 0%nat) ∧
  uct_select_child (H := real_arith) unvisited_root_tree 0%nat (Rdefinitions.IZR 1)
    = Raise ValueError.
Proof.
  assert (uct_select_child (H := xreal_arith) late_visit_tree 0%nat XPInf = Ok 2%nat)
    as Hsel.
  { unfold uct_select_child, late_visit_tree.
    cbn [node_at lookup list_lookup mbind res_bind children keyed uct_key visits wins
         Nat.ltb Nat.leb Fadd Fmul Fdiv Fsqrt Flog F_of_nat F_of_Q xreal_arith].
    rewrite infinite_constant_score. reflexivity. }
  split; [exact Hsel|]. split; [reflexivity|]. split; [reflexivity|].
  split; [|reflexivity].
  intros (c & Hc & Hv). rewrite Hsel in Hc. injection Hc as <-. discriminate Hv.
Qed.

(** ** States along a playout *)

Lemma player_at_token s i :
  player_list s = ["R"; "Y"] → player_at s i = "R" ∨ player_at s i = "Y".
Proof.
  intros Hp. unfold player_at. rewrite Hp.
  assert (i mod 2 = 0 ∨ i mod 2 = 1) as [-> | ->]
    by (pose proof (Z.mod_pos_bound i 2); lia); auto.
Qed.

Lemma get_available_moves_playable s b :
  playable s → playable (_get_available_moves s b).2.
Proof.
  intros Hs. unfold _get_available_moves. simpl.
  by destruct (open_columns _).
Qed.

Lemma get_available_moves_board s b :
  board (_get_available_moves s b).2 = board s.
Proof. unfold _get_available_moves. simpl. by destruct (open_columns _). Qed.

Lemma check_winstate_playable s : playable s → playable (_check_winstate s).2.
Proof.
  intros Hs. unfold _check_winstate.
  destruct (check_win_on_board _) as [t|]; [destruct (truthy t)|]; done.
Qed.

Lemma check_winstate_board s : board (_check_winstate s).2 = board s.
Proof.
  unfold _check_winstate.
  destruct (check_win_on_board _) as [t|]; [destruct (truthy t)|]; done.
Qed.

Lemma copy_playable s : playable s → playable (copy s).
Proof. done. Qed.

(** What [make_move] does to the board. *)
Lemma make_move_board s m :
  board (make_move s m).2 = board s ∨
  ∃ r, (r < length (board s))%nat ∧ cell_at (board s) r (Z.to_nat m) = EMPTY ∧
       board (make_move s m).2 = set_cell (board s) r (Z.to_nat m) (player_at s (current_turn s)).
Proof.
  unfold make_move, _get_available_moves.
  cbn [available_moves set_available_moves].
  destruct (bool_decide _).
  - assert (∀ s', board s' = board s → player_list s' = player_list s →
              current_turn s' = current_turn s →
      let r := match find (λ n, cell_at (board s') (length (board s') - n - 1) (Z.to_nat m)
                               =? EMPTY) (range 0 (length (board s'))) with
               | Some n => (true, set_current_turn (set_board s'
                   (set_cell (board s') (length (board s') - n - 1) (Z.to_nat m)
                             (player_at s' (current_turn s')))) (current_turn s' + 1))
               | None => (false, s')
               end in
      board r.2 = board s ∨
      ∃ r0, (r0 < length (board s))%nat ∧ cell_at (board s) r0 (Z.to_nat m) = EMPTY ∧
            board r.2 = set_cell (board s) r0 (Z.to_nat m) (player_at s (current_turn s)))
      as Hgen.
    { intros s' Hb Hp Ht. cbn zeta. destruct (find _ _) as [n|] eqn:E; [|by left].
      right. apply find_some in E as [Hin E]. apply String.eqb_eq in E.
      apply list_elem_of_In, elem_of_seq in Hin.
      exists (length (board s') - n - 1)%nat. rewrite <- Hb.
      split; [lia|]. split; [done|]. simpl. unfold player_at. by rewrite Hp, Ht. }
    destruct (open_columns (board s)); apply Hgen; done.
  - left. by destruct (open_columns (board s)).
Qed.

Lemma make_move_playable s m : playable s → playable (make_move s m).2.
Proof.
  intros [Hwf Hp]. split.
  - destruct (make_move_board s m) as [-> | (r & _ & _ & ->)]; [done | by apply set_cell_wf].
  - unfold make_move, _get_available_moves.
    cbn [available_moves set_available_moves].
    destruct (bool_decide _); [destruct (find _ _)|]; by destruct (open_columns (board s)).
Qed.

Lemma make_move_opt_playable s m : playable s → playable (make_move_opt s m).2.
Proof.
  intros Hs. destruct m as [m|]; [by apply make_move_playable|].
  unfold make_move_opt, _get_available_moves. by destruct (open_columns _).
Qed.

(** A legal move is carried out. *)
Lemma make_move_legal s m :
  playable s → m ∈ open_columns (board s) →
  ∃ r, (r < ROWS)%nat ∧ cell_at (board s) r (Z.to_nat m) = EMPTY ∧
       board (make_move s m).2 = set_cell (board s) r (Z.to_nat m) (player_at s (current_turn s)).
Proof.
  intros [[Hlen Hrows] Hp] Hm. unfold make_move, _get_available_moves.
  cbn [available_moves set_available_moves].
  rewrite bool_decide_eq_true_2 by done.
  assert (∀ s', board s' = board s →
            is_Some (find (λ n, cell_at (board s') (length (board s') - n - 1) (Z.to_nat m)
                               =? EMPTY) (range 0 (length (board s'))))) as Hfound.
  { intros s' ->. destruct (find _ _) as [n|] eqn:E; [by eexists|]. exfalso.
    apply elem_of_open_columns in Hm as [_ Hm].
    pose proof (find_none _ _ E (length (board s) - 1)%nat) as Hnone.
    rewrite Hlen in Hnone.
    assert (In (ROWS - 1)%nat (range 0 ROWS)) as Hin
      by (apply list_elem_of_In, elem_of_seq; unfold ROWS; lia).
    specialize (Hnone Hin). unfold ROWS in Hnone. simpl in Hnone.
    by rewrite Hm in Hnone. }
  destruct (open_columns (board s)) as [|o os] eqn:Eo; [by apply elem_of_nil in Hm|].
  destruct (Hfound (set_available_moves s (o :: os)) eq_refl) as [n Hn].
  rewrite Hn. apply find_some in Hn as [Hin E]. apply String.eqb_eq in E.
  apply list_elem_of_In, elem_of_seq in Hin. simpl in *.
  exists (length (board s) - n - 1)%nat. rewrite Hlen in *.
  split; [unfold ROWS; lia|]. split; [done|]. unfold player_at. done.
Qed.

Lemma filter_length_lt {A} (P Q : A → Prop) `{!∀ x, Decision (P x), !∀ x, Decision (Q x)}
    (l : list A) (a : A) :
  a ∈ l → P a → ¬ Q a → (∀ x, Q x → P x) →
  (length (filter Q l) < length (filter P l))%nat.
Proof.
  intros Ha HPa HQa Himp.
  assert (∀ l', length (filter Q l') ≤ length (filter P l'))%nat as Hle.
  { induction l' as [|x l' IH]; [done|]. rewrite !filter_cons.
    destruct (decide (Q x)) as [HQ|HQ].
    - rewrite decide_True by auto. simpl. lia.
    - destruct (decide (P x)); simpl; lia. }
  induction l as [|x l IH]; [by apply elem_of_nil in Ha|].
  rewrite !filter_cons. apply elem_of_cons in Ha as [<- | Ha].
  - rewrite decide_False, decide_True by done. simpl. specialize (Hle l). lia.
  - specialize (IH Ha). destruct (decide (Q x)) as [HQ|HQ].
    + rewrite decide_True by auto. simpl. lia.
    + destruct (decide (P x)); simpl; lia.
Qed.

Lemma elem_of_grid r c : (r, c) ∈ grid ↔ (r < ROWS ∧ c < COLS)%nat.
Proof.
  unfold grid. rewrite list_elem_of_bind. split.
  - intros (r' & Hc & Hr). apply elem_of_seq in Hr.
    apply list_elem_of_bind in Hc as (c' & Hrc & Hc). apply elem_of_seq in Hc.
    apply list_elem_of_singleton in Hrc as [= -> ->]. lia.
  - intros [Hr Hc]. exists r. split; [|apply elem_of_seq; lia].
    apply list_elem_of_bind. exists c. split; [by apply list_elem_of_singleton|].
    apply elem_of_seq. lia.
Qed.

Lemma blanks_set_cell b r c v :
  wf_board b → (r < ROWS)%nat → (c < COLS)%nat →
  cell_at b r c = EMPTY → v ≠ EMPTY →
  (blanks (set_cell b r c v) < blanks b)%nat.
Proof.
  intros Hwf Hr Hc He Hv. unfold blanks.
  apply (filter_length_lt _ _ grid (r, c)).
  - by apply elem_of_grid.
  - done.
  - simpl. by rewrite cell_at_set_cell_eq.
  - intros [r' c']. simpl. destruct (decide ((r', c') = (r, c))) as [[= -> ->]|Hne].
    + by rewrite cell_at_set_cell_eq.
    + by rewrite cell_at_set_cell_ne.
Qed.

Lemma blanks_bound b : (blanks b ≤ ROWS * COLS)%nat.
Proof.
  unfold blanks. etrans; [apply length_filter|]. done.
Qed.

Lemma make_move_blanks s m :
  playable s → m ∈ open_columns (board s) →
  (blanks (board (make_move s m).2) < blanks (board s))%nat.
Proof.
  intros Hs Hm. destruct (make_move_legal s m Hs Hm) as (r & Hr & He & ->).
  destruct Hs as [Hwf Hp]. apply blanks_set_cell; try done.
  - apply elem_of_open_columns in Hm as [Hm _]. unfold COLS. lia.
  - by destruct (player_at_token s (current_turn s) Hp) as [-> | ->].
Qed.
(** ** The phases of one pass *)

Lemma random_choice_in {A} rng pos (l : list A) :
  l ≠ [] → ∃ x, random_choice rng pos l = Ok (x, S pos) ∧ x ∈ l.
Proof.
  intros Hne. unfold random_choice.
  assert (rng pos mod length l < length l)%nat as Hlt.
  { apply Nat.mod_upper_bound. destruct l; [done | simpl; lia]. }
  destruct (lookup_lt_is_Some_2 _ _ Hlt) as [x Hx]. rewrite Hx.
  exists x. split; [done|]. by eapply list_elem_of_lookup_2.
Qed.

Lemma rollout_step rng fuel st pos :
  rollout rng (S fuel) st pos =
  if game_over st then Ok (st, pos)
  else
    let '(legal_moves, st) := _get_available_moves st None in
    match legal_moves with
    | [] => Ok (st, pos)
    | _ :: _ =>
        '(m, pos) ← random_choice rng pos legal_moves;
        rollout rng fuel (_check_winstate (make_move st m).2).2 pos
    end.
Proof. done. Qed.

(** The rollout ends within its bound: every iteration fills a cell. *)
Lemma rollout_total rng fuel st pos :
  playable st → (blanks (board st) < fuel)%nat →
  ∃ st' pos', rollout rng fuel st pos = Ok (st', pos') ∧ playable st'.
Proof.
  revert st pos. induction fuel as [|fuel IH]; intros st pos Hs Hfuel; [lia|].
  rewrite rollout_step. destruct (game_over st); [exists st, pos; by split|].
  destruct (_get_available_moves st None) as [legal st1] eqn:Eg.
  assert (legal = open_columns (board st)) as Hlegal
    by (by apply (f_equal fst) in Eg).
  assert (st1 = (_get_available_moves st None).2) as Hst1 by (by rewrite Eg).
  assert (playable st1) as Hs1 by (subst st1; by apply get_available_moves_playable).
  assert (board st1 = board st) as Hb1 by (subst st1; apply get_available_moves_board).
  destruct legal as [|o os]; [exists st1, pos; by split|].
  destruct (random_choice_in rng pos (o :: os)) as (m & -> & Hm); [done|]. simpl.
  apply IH.
  - by apply check_winstate_playable, make_move_playable.
  - rewrite check_winstate_board.
    assert (blanks (board (make_move st1 m).2) < blanks (board st1))%nat
      by (apply make_move_blanks; [done | by rewrite Hb1, <- Hlegal]).
    rewrite Hb1 in *. lia.
Qed.
Lemma last_item_in {A} (l : list A) x : last_item l = Some x → x ∈ l.
Proof.
  induction l as [|z [|z' l'] IH]; [done | |].
  - intros [= ->]. left.
  - intros Hl. right. by apply IH.
Qed.

Lemma node_at_Some (t : tree) i n : t !! i = Some n → node_at t i = Ok n.
Proof. unfold node_at. by intros ->. Qed.

Lemma bind_Ok {A B} (a : A) (f : A → res B) : Ok a ≫= f = f a.
Proof. done. Qed.

Lemma shape_child_index t i n c :
  tree_shape t → t !! i = Some n → c ∈ children n →
  (i < c)%nat ∧ ∃ cn, t !! c = Some cn ∧ parent cn = Some i.
Proof.
  intros Hsh Hi Hc. destruct (shape_children t Hsh i n c Hi Hc) as (cn & Hcn & Hp).
  destruct (shape_parent t Hsh c cn i Hcn Hp) as (Hlt & _). eauto.
Qed.

Section Descent.
Context {F : Type} `{ScoreArith F}.
Variable self : MCTS F.

(** Without any assumption on the comparison of scores, the selected
    node is one of the children. *)
Lemma uct_select_child_in (t : tree) (i : nat) (C : F) (n : MCTSNode) :
  t !! i = Some n → children n ≠ [] →
  (∀ c, c ∈ children n → is_Some (t !! c)) → (0 < visits n)%nat →
  ∃ c, uct_select_child t i C = Ok c ∧ c ∈ children n.
Proof.
  intros Hi Hne Hin Hvis.
  destruct (keyed_scores C t n (children n)) as (ks & Hks & Hlen & Hmem).
  { intros c Hc. destruct (Hin c Hc) as [cn Hcn]. exists cn. split; [done | by left]. }
  assert (sorted key_lt ks ≠ []) as Hne'.
  { destruct ks as [|z ks]; [destruct (children n); simpl in Hlen; [done | lia]|].
    intros E. assert (z ∈ sorted key_lt (z :: ks)) as Hz by (apply elem_of_sorted; left).
    rewrite E in Hz. by apply elem_of_nil in Hz. }
  destruct (last_item_nonempty _ Hne') as [[k c] Hlast].
  exists c. split.
  - unfold uct_select_child. rewrite (node_at_Some _ _ _ Hi), bind_Ok, Hks, bind_Ok.
    by rewrite Hlast.
  - apply last_item_in, elem_of_sorted, Hmem in Hlast. tauto.
Qed.

Lemma select_step fuel (t : tree) i st :
  select self (S fuel) t i st =
  n ← node_at t i;
  match untried_moves n, children n with
  | [], _ :: _ =>
      c ← uct_select_child t i (exploration_constant self);
      cn ← node_at t c;
      select self fuel t c (make_move_opt st (move cn)).2
  | _, _ => Ok (i, st)
  end.
Proof. done. Qed.

(** Selection ends at a node of the store that has an untried move or no
    child, at or below the node it started from. *)
Lemma select_total fuel (t : tree) i st :
  tree_shape t → visits_cover t → is_Some (t !! i) → playable st →
  (length t ≤ fuel + i)%nat →
  ∃ j nj st',
    select self fuel t i st = Ok (j, st') ∧ t !! j = Some nj ∧ playable st' ∧
    (untried_moves nj ≠ [] ∨ children nj = []) ∧ (i ≤ j)%nat.
Proof.
  intros Hsh Hcov. revert i st.
  induction fuel as [|fuel IH]; intros i st [n Hi] Hst Hfuel.
  { apply lookup_lt_Some in Hi. lia. }
  rewrite select_step, (node_at_Some _ _ _ Hi), bind_Ok.
  destruct (untried_moves n) as [|u us] eqn:Eu.
  - destruct (children n) as [|c0 cs] eqn:Ec.
    + exists i, n, st. do 3 (split; [done|]). split; [by right | lia].
    + destruct (uct_select_child_in t i (exploration_constant self) n Hi)
        as (c & -> & Hc).
      * by rewrite Ec.
      * intros c Hc. destruct (shape_child_index t i n c Hsh Hi Hc) as (_ & cn & Hcn & _).
        by eexists.
      * specialize (Hcov i n Hi). rewrite Ec in Hcov. simpl in Hcov. lia.
      * destruct (shape_child_index t i n c Hsh Hi Hc) as (Hlt & cn & Hcn & _).
        rewrite bind_Ok, (node_at_Some _ _ _ Hcn), bind_Ok.
        destruct (IH c (make_move_opt st (move cn)).2) as (j & nj & st' & Hsel & Hj & Hp & Hleaf & Hle).
        { by eexists. }
        { by apply make_move_opt_playable. }
        { lia. }
        exists j, nj, st'. do 4 (split; [done|]). lia.
  - exists i, n, st. do 3 (split; [done|]). split; [left; by rewrite Eu | lia].
Qed.
End Descent.

Lemma list_remove_in x l : x ∈ l → is_Some (list_remove x l).
Proof.
  induction l as [|y l IH]; [by intros ?%elem_of_nil|].
  intros Hin. simpl. case_bool_decide; [by eexists|].
  apply elem_of_cons in Hin as [-> | Hin]; [done|].
  destruct (IH Hin) as [r ->]. by eexists.
Qed.

(** The store after an expansion of node [j]: the node with one more
    child, and the child appended. *)
Lemma grown_lookup (t : tree) j n' new i x :
  (j < length t)%nat →
  (<[j := n']> t ++ [new]) !! i = Some x ↔
  (i = length t ∧ x = new) ∨ (i = j ∧ x = n') ∨
  (i ≠ j ∧ t !! i = Some x).
Proof.
  intros Hj. destruct (decide (i < length t)%nat) as [Hlt|Hge].
  - rewrite lookup_app_l by (by rewrite length_insert).
    destruct (decide (i = j)) as [->|Hne].
    + rewrite list_lookup_insert_eq by done. split.
      * intros [= <-]. right. by left.
      * intros [[? _] | [[_ ->] | [? _]]]; [lia | done | done].
    + rewrite list_lookup_insert_ne by done. split.
      * intros Hi. right. by right.
      * intros [[? _] | [[? _] | [_ ?]]]; [lia | done | done].
  - rewrite lookup_app_r by (rewrite length_insert; lia). rewrite length_insert.
    destruct (decide (i = length t)) as [->|Hne].
    + rewrite Nat.sub_diag. simpl. split.
      * intros [= <-]. by left.
      * intros [[_ ->] | [[? _] | [_ Hi]]]; [done | lia |].
        apply lookup_lt_Some in Hi. lia.
    + destruct (i - length t)%nat as [|d] eqn:Ed; [lia|]. simpl. split; [done|].
      intros [[? _] | [[? _] | [_ Hi]]]; [lia | lia |].
      apply lookup_lt_Some in Hi. lia.
Qed.

Lemma grown_shape (t : tree) j n u new :
  tree_shape t → t !! j = Some n →
  parent new = Some j → is_Some (move new) → children new = [] →
  tree_shape (<[j := mkNode (state n) (parent n) (move n) (children n ++ [length t])
                        (wins n) (visits n) u (player_just_moved n)]> t ++ [new]).
Proof.
  intros Hsh Hj Hpar Hmv Hch.
  set (n' := mkNode _ _ _ _ _ _ _ _).
  assert (j < length t)%nat as Hjlt by (by eapply lookup_lt_Some).
  assert (∀ i x, (<[j := n']> t ++ [new]) !! i = Some x ↔
                 (i = length t ∧ x = new) ∨ (i = j ∧ x = n') ∨ (i ≠ j ∧ t !! i = Some x))
    as Hlook by (intros; by apply grown_lookup).
  (* every old node is still there, with its parent and move, and at least
     its children *)
  assert (∀ i x, t !! i = Some x →
            ∃ x', (<[j := n']> t ++ [new]) !! i = Some x' ∧ parent x' = parent x ∧
                  move x' = move x ∧ ∀ c, c ∈ children x → c ∈ children x') as Hold.
  { intros i x Hi. destruct (decide (i = j)) as [->|Hne].
    - exists n'. simplify_eq. split; [apply Hlook; right; by left|].
      repeat split. intros c Hc. simpl. apply elem_of_app. by left.
    - exists x. split; [apply Hlook; right; by right | done]. }
  split.
  - destruct (shape_root t Hsh) as (root & Hr & Hp).
    destruct (Hold _ _ Hr) as (root' & Hr' & Hp' & _). exists root'. split; [done|congruence].
  - intros i x p Hi Hp. apply Hlook in Hi as [[-> ->] | [[-> ->] | [Hne Hi]]].
    + rewrite Hpar in Hp. simplify_eq. split; [done|]. split; [done|].
      exists n'. split; [apply Hlook; right; by left|]. simpl. apply elem_of_app. right. left.
    + simpl in Hp. destruct (shape_parent t Hsh j n p Hj Hp) as (Hlt & Hm & pn & Hpn & Hin).
      split; [done|]. split; [done|].
      destruct (Hold _ _ Hpn) as (pn' & Hpn' & _ & _ & Hsub). eauto.
    + destruct (shape_parent t Hsh i x p Hi Hp) as (Hlt & Hm & pn & Hpn & Hin).
      split; [done|]. split; [done|].
      destruct (Hold _ _ Hpn) as (pn' & Hpn' & _ & _ & Hsub). eauto.
  - intros i x Hi Hp. apply Hlook in Hi as [[-> ->] | [[-> ->] | [Hne Hi]]].
    + congruence.
    + by apply (shape_orphan t Hsh j n).
    + by apply (shape_orphan t Hsh i x).
  - intros i x c Hi Hc. apply Hlook in Hi as [[-> ->] | [[-> ->] | [Hne Hi]]].
    + rewrite Hch in Hc. by apply elem_of_nil in Hc.
    + simpl in Hc. apply elem_of_app in Hc as [Hc | Hc].
      * destruct (shape_children t Hsh j n c Hj Hc) as (cn & Hcn & Hp).
        destruct (Hold _ _ Hcn) as (cn' & Hcn' & Hp' & _). exists cn'. split; [done|congruence].
      * apply list_elem_of_singleton in Hc as ->. exists new. split; [|done].
        apply Hlook. by left.
    + destruct (shape_children t Hsh i x c Hi Hc) as (cn & Hcn & Hp).
      destruct (Hold _ _ Hcn) as (cn' & Hcn' & Hp' & _). exists cn'. split; [done|congruence].
  - intros i x Hi. apply Hlook in Hi as [[-> ->] | [[-> ->] | [Hne Hi]]].
    + rewrite Hch. constructor.
    + simpl. apply list.NoDup_app. split; [by apply (shape_nodup t Hsh j n)|].
      split; [|apply list.NoDup_singleton].
      intros c Hc ->%list_elem_of_singleton.
      destruct (shape_children t Hsh j n _ Hj Hc) as (cn & Hcn & _).
      apply lookup_lt_Some in Hcn. lia.
    + by apply (shape_nodup t Hsh i x).
Qed.
Lemma expand_spec rng (t : tree) j st pos n :
  t !! j = Some n → playable st →
  (untried_moves n = [] ∧ expand rng t j st pos = Ok (t, j, st, pos)) ∨
  (untried_moves n ≠ [] ∧ ∃ m u st',
     playable st' ∧
     expand rng t j st pos =
       Ok (<[j := mkNode (state n) (parent n) (move n) (children n ++ [length t])
                         (wins n) (visits n) u (player_just_moved n)]> t
             ++ [MCTSNode_init (copy st') (Some j) (Some m)],
           length t, st', S pos)).
Proof.
  intros Hj Hst. unfold expand. rewrite (node_at_Some _ _ _ Hj), bind_Ok.
  destruct (untried_moves n) as [|u0 us] eqn:Eu; [by left | right].
  split; [done|].
  destruct (random_choice_in rng pos (u0 :: us)) as (m & -> & Hm); [done|].
  rewrite bind_Ok. cbn beta iota zeta.
  unfold add_child. rewrite (node_at_Some _ _ _ Hj), bind_Ok, Eu.
  destruct (list_remove_in m (u0 :: us) Hm) as [u ->].
  rewrite bind_Ok. exists m, u, (make_move st m).2.
  split; [by apply make_move_playable | done].
Qed.

(** ** Ancestors *)

Lemma anc_le (t : tree) i k :
  (∀ j n p, t !! j = Some n → parent n = Some p → (p < j)%nat) →
  anc t i k → (k ≤ i)%nat.
Proof.
  intros Hdec. induction 1 as [i | i n p k Hi Hp _ IH]; [done|].
  specialize (Hdec i n p Hi Hp). lia.
Qed.

Lemma anc_ext (t t' : tree) i k :
  (∀ j n p, t !! j = Some n → parent n = Some p →
            ∃ n', t' !! j = Some n' ∧ parent n' = Some p) →
  anc t i k → anc t' i k.
Proof.
  intros Hext. induction 1 as [i | i n p k Hi Hp _ IH]; [constructor|].
  destruct (Hext i n p Hi Hp) as (n' & Hi' & Hp'). by eapply anc_up.
Qed.

Lemma anc_inv (t : tree) i n k :
  t !! i = Some n → anc t i k →
  k = i ∨ ∃ p, parent n = Some p ∧ anc t p k.
Proof.
  intros Hi Ha. inversion Ha as [|? n0 p ? Hi0 Hp Hrest]; subst; [by left|].
  right. simplify_eq. eauto.
Qed.

Lemma same_links_refl t : same_links t t.
Proof. split; [done|]. intros i n Hi. exists n. done. Qed.

Lemma same_links_trans t1 t2 t3 :
  same_links t1 t2 → same_links t2 t3 → same_links t1 t3.
Proof.
  intros [Hl1 H1] [Hl2 H2]. split; [congruence|]. intros i n Hi.
  destruct (H1 i n Hi) as (n2 & Hi2 & ? & ? & ? & ?).
  destruct (H2 i n2 Hi2) as (n3 & Hi3 & ? & ? & ? & ?).
  exists n3. repeat split; congruence.
Qed.

Lemma same_links_update (t : tree) i n r :
  t !! i = Some n → same_links t (<[i := update n r]> t).
Proof.
  intros Hi. split; [by rewrite length_insert|]. intros k nk Hk.
  destruct (decide (k = i)) as [->|Hne].
  - exists (update n r). rewrite list_lookup_insert_eq by (by eapply lookup_lt_Some).
    by simplify_eq.
  - exists nk. by rewrite list_lookup_insert_ne.
Qed.

Lemma backpropagate_step fuel (t : tree) w i :
  backpropagate (S fuel) t w (Some i) =
  n ← node_at t i;
  backpropagate fuel
    (<[i := update n match w with
                     | Some w => if player_just_moved n =? w then 1%Q else 0%Q
                     | None => (1 # 2)%Q
                     end]> t) w (parent n).
Proof. done. Qed.

(** Backpropagation ends at the root and adds one visit to each
    ancestor of the node it starts from, and to no other node. *)
Lemma backpropagate_spec fuel (t : tree) w i :
  (∀ j n p, t !! j = Some n → parent n = Some p → (p < j)%nat) →
  (i < length t)%nat → (i < fuel)%nat →
  ∃ t', backpropagate fuel t w (Some i) = Ok t' ∧ same_links t t' ∧
        ∀ k n n', t !! k = Some n → t' !! k = Some n' →
          (anc t i k → visits n' = S (visits n)) ∧
          (¬ anc t i k → visits n' = visits n).
Proof.
  revert t i. induction fuel as [|fuel IH]; intros t i Hdec Hi Hfuel; [lia|].
  destruct (lookup_lt_is_Some_2 _ _ Hi) as [n Hn].
  rewrite backpropagate_step, (node_at_Some _ _ _ Hn), bind_Ok.
  set (r := match w with Some _ => _ | None => _ end).
  pose proof (same_links_update t i n r Hn) as Hl1.
  destruct (parent n) as [p|] eqn:Hp.
  - pose proof (Hdec i n p Hn Hp) as Hlt.
    destruct (IH (<[i := update n r]> t) p) as (t' & Hb & Hl2 & Hv).
    { intros j nj q Hj Hq. destruct (decide (j = i)) as [->|Hne].
      - rewrite list_lookup_insert_eq in Hj by done. simplify_eq. simpl in Hq.
        eapply Hdec; [exact Hn | congruence].
      - rewrite list_lookup_insert_ne in Hj by done. by eapply Hdec. }
    { rewrite length_insert. lia. }
    { lia. }
    exists t'. split; [done|]. split; [by eapply same_links_trans|].
    intros k nk nk' Hk Hk'.
    assert (anc (<[i := update n r]> t) p k ↔ anc t p k) as Hanc.
    { split; apply anc_ext; intros j nj q Hj Hq.
      - destruct (decide (j = i)) as [->|Hne].
        + rewrite list_lookup_insert_eq in Hj by done. simplify_eq. eauto.
        + rewrite list_lookup_insert_ne in Hj by done. eauto.
      - destruct (Hl1) as [_ Hl1']. destruct (Hl1' j nj Hj) as (nj' & ? & ? & _).
        exists nj'. split; [done | congruence]. }
    destruct (decide (k = i)) as [->|Hne].
    + simplify_eq.
      destruct (Hv i (update n r) nk') as [_ Hsame]; [by rewrite list_lookup_insert_eq | done |].
      split; [|intros Hna; exfalso; apply Hna; constructor].
      intros _. rewrite Hsame; [simpl; lia|].
      rewrite Hanc. intros Ha. apply (anc_le _ _ _ Hdec) in Ha. lia.
    + destruct (Hv k nk nk') as [Hyes Hno]; [by rewrite list_lookup_insert_ne | done |].
      split.
      * intros Ha. apply Hyes, Hanc.
        destruct (anc_inv t i n k Hn Ha) as [-> | (q & Hq & Ha')]; [done|]. congruence.
      * intros Hna. apply Hno. rewrite Hanc. intros Ha. apply Hna. by eapply anc_up.
  - exists (<[i := update n r]> t). split; [by destruct fuel|]. split; [done|].
    intros k nk nk' Hk Hk'. destruct (decide (k = i)) as [->|Hne].
    + rewrite list_lookup_insert_eq in Hk' by done. simplify_eq.
      split; [intros _; simpl; lia | intros Hna; exfalso; apply Hna; constructor].
    + rewrite list_lookup_insert_ne in Hk' by done. simplify_eq.
      split; [|done]. intros Ha.
      destruct (anc_inv t i n k Hn Ha) as [-> | (q & Hq & _)]; [done | congruence].
Qed.
Lemma shape_decreasing t :
  tree_shape t → ∀ j n p, t !! j = Some n → parent n = Some p → (p < j)%nat.
Proof. intros Hsh j n p Hj Hp. by destruct (shape_parent t Hsh j n p Hj Hp). Qed.

Lemma anc_root t i : tree_shape t → is_Some (t !! i) → anc t i 0%nat.
Proof.
  intros Hsh. induction i as [i IH] using lt_wf_ind. intros [n Hi].
  destruct (parent n) as [p|] eqn:Hp.
  - destruct (shape_parent t Hsh i n p Hi Hp) as (Hlt & _ & pn & Hpn & _).
    eapply anc_up; [done..|]. apply IH; [done | by eexists].
  - rewrite (shape_orphan t Hsh i n Hi Hp). constructor.
Qed.

(** The path from a node other than the root passes through a child of
    the root. *)
Lemma anc_root_child t i :
  tree_shape t → is_Some (t !! i) → i ≠ 0%nat →
  ∃ a na, anc t i a ∧ t !! a = Some na ∧ parent na = Some 0%nat.
Proof.
  intros Hsh. induction i as [i IH] using lt_wf_ind. intros [n Hi] Hne.
  destruct (parent n) as [p|] eqn:Hp.
  - destruct (shape_parent t Hsh i n p Hi Hp) as (Hlt & _ & pn & Hpn & _).
    destruct (decide (p = 0%nat)) as [->|Hp0].
    + exists i, n. split; [constructor | done].
    + destruct (IH p Hlt ltac:(by eexists) Hp0) as (a & na & Ha & Hna & Hpa).
      exists a, na. split; [by eapply anc_up | done].
  - by pose proof (shape_orphan t Hsh i n Hi Hp).
Qed.

(** ... and through one only. *)
Lemma anc_root_child_unique t i a b na nb :
  tree_shape t → anc t i a → anc t i b →
  t !! a = Some na → parent na = Some 0%nat →
  t !! b = Some nb → parent nb = Some 0%nat → a = b.
Proof.
  intros Hsh Ha. revert b nb.
  assert (∀ k, anc t 0%nat k → k = 0%nat) as Hroot.
  { intros k Hk. apply (anc_le _ _ _ (shape_decreasing t Hsh)) in Hk. lia. }
  assert (∀ k nk, t !! k = Some nk → parent nk = Some 0%nat → k ≠ 0%nat) as Hnot0.
  { intros k nk Hk Hpk ->. destruct (shape_root t Hsh) as (root & Hr & Hpr). congruence. }
  induction Ha as [i | i n p a Hi Hp Ha IH]; intros b nb Hb Hna Hpa Hnb Hpb.
  - destruct (anc_inv t i na b Hna Hb) as [-> | (q & Hq & Hb')]; [done|].
    simplify_eq. apply Hroot in Hb'. subst. exfalso. by eapply Hnot0.
  - destruct (anc_inv t i n b Hi Hb) as [-> | (q & Hq & Hb')].
    + simplify_eq. apply Hroot in Ha. subst. exfalso. by eapply (Hnot0 0%nat).
    + simplify_eq. by eapply IH.
Qed.

Lemma sum_list_with_bump {A} `{EqDecision A} (f g : A → nat) (l : list A) (a : A) :
  NoDup l → a ∈ l → g a = S (f a) → (∀ x, x ∈ l → x ≠ a → g x = f x) →
  sum_list_with g l = S (sum_list_with f l).
Proof.
  intros Hnd Ha Hga Hother.
  assert (∀ l', a ∉ l' → (∀ x, x ∈ l' → x ≠ a → g x = f x) →
            sum_list_with g l' = sum_list_with f l') as Hsame.
  { induction l' as [|x l' IH]; intros Hnot Hoth; [done|]. simpl.
    rewrite Hoth; [|left|intros ->; apply Hnot; left].
    rewrite IH; [done | intros ?; apply Hnot; by right |].
    intros y Hy. apply Hoth. by right. }
  induction l as [|x l IH]; [by apply elem_of_nil in Ha|].
  inversion Hnd as [|? ? Hx Hnd']; subst. simpl.
  destruct (decide (x = a)) as [->|Hne].
  - rewrite Hga, Hsame; [done | done |]. intros y Hy. apply Hother. by right.
  - apply elem_of_cons in Ha as [-> | Ha]; [done|].
    rewrite (Hother x); [|left|done]. rewrite IH; [lia | done | done |].
    intros y Hy. apply Hother. by right.
Qed.

Lemma same_links_shape t t' : tree_shape t → same_links t t' → tree_shape t'.
Proof.
  intros Hsh [Hlen Hl].
  assert (∀ i n', t' !! i = Some n' →
            ∃ n, t !! i = Some n ∧ parent n' = parent n ∧ children n' = children n ∧
                 move n' = move n) as Hback.
  { intros i n' Hi'. assert (i < length t)%nat as Hlt
      by (rewrite <- Hlen; by eapply lookup_lt_Some).
    destruct (lookup_lt_is_Some_2 _ _ Hlt) as [n Hi].
    destruct (Hl i n Hi) as (n'' & Hi'' & ? & ? & ? & _). simplify_eq. eauto. }
  split.
  - destruct (shape_root t Hsh) as (root & Hr & Hp).
    destruct (Hl _ _ Hr) as (root' & ? & ? & _). exists root'. split; [done | congruence].
  - intros i n' p Hi' Hp'. destruct (Hback i n' Hi') as (n & Hi & Ep & Ec & Em).
    rewrite Ep in Hp'. destruct (shape_parent t Hsh i n p Hi Hp') as (? & ? & pn & Hpn & ?).
    split; [done|]. split; [by rewrite Em|].
    destruct (Hl p pn Hpn) as (pn' & ? & ? & Ec' & _). exists pn'. split; [done | by rewrite Ec'].
  - intros i n' Hi' Hp'. destruct (Hback i n' Hi') as (n & Hi & Ep & _).
    rewrite Ep in Hp'. by eapply shape_orphan.
  - intros i n' c Hi' Hc. destruct (Hback i n' Hi') as (n & Hi & _ & Ec & _).
    rewrite Ec in Hc. destruct (shape_children t Hsh i n c Hi Hc) as (cn & Hcn & ?).
    destruct (Hl c cn Hcn) as (cn' & ? & ? & _). exists cn'. split; [done | congruence].
  - intros i n' Hi'. destruct (Hback i n' Hi') as (n & Hi & _ & Ec & _).
    rewrite Ec. by eapply shape_nodup.
Qed.
Lemma anc_dec (t : tree) i k :
  (∀ j n p, t !! j = Some n → parent n = Some p → (p < j)%nat) →
  anc t i k ∨ ¬ anc t i k.
Proof.
  intros Hdec. induction i as [i IH] using lt_wf_ind.
  destruct (decide (k = i)) as [->|Hne]; [left; constructor|].
  destruct (t !! i) as [n|] eqn:Hi.
  - destruct (parent n) as [p|] eqn:Hp.
    + destruct (IH p (Hdec i n p Hi Hp)) as [Ha | Hna].
      * left. by eapply anc_up.
      * right. intros Ha. destruct (anc_inv t i n k Hi Ha) as [-> | (q & Hq & Ha')]; [done|].
        by simplify_eq.
    + right. intros Ha. destruct (anc_inv t i n k Hi Ha) as [-> | (q & Hq & _)]; [done|].
      congruence.
  - right. intros Ha. inversion Ha; subst; [done | congruence].
Qed.

Section Loop.
Context {F : Type} `{ScoreArith F}.
Variable rng : nat → nat.
Variable self : MCTS F.
Variable root_state : Connect4.
Hypothesis root_playable : playable root_state.

(** Selection and expansion: the pass arrives at a node other than the
    root; when it has added a child there, the node it expanded lies on
    the way back and is the only one short of a visit. *)
Lemma descend_spec k (t : tree) pos :
  loop_inv k t →
  ∃ t1 node st pos1,
    descend rng self root_state t pos = Ok (t1, node, st, pos1) ∧
    playable st ∧ tree_shape t1 ∧ is_Some (t1 !! node) ∧ node ≠ 0%nat ∧
    (∀ i n1, t1 !! i = Some n1 →
       (length (children n1) ≤ visits n1)%nat ∨
       (anc t1 node i ∧ (length (children n1) ≤ S (visits n1))%nat)) ∧
    (∀ c, visits_at t1 c = visits_at t c) ∧
    ∃ root1, t1 !! 0%nat = Some root1 ∧ visits root1 = k ∧ children_visits t1 root1 = k.
Proof.
  intros [Hsh Hcov (root & Hr & Hvis & Hsum & Hnonleaf & _)].
  unfold descend.
  destruct (select_total self (length t) t 0%nat (copy root_state) Hsh Hcov)
    as (j & nj & st1 & -> & Hj & Hst1 & Hleaf & _);
    [by eexists | by apply copy_playable | lia |].
  rewrite bind_Ok.
  destruct (expand_spec rng t j st1 pos nj Hj Hst1)
    as [[Hu ->] | (Hu & m & u & st2 & Hst2 & ->)].
  - exists t, j, st1, pos. split; [done|]. split; [done|]. split; [done|].
    split; [by eexists|]. split.
    { intros ->. simplify_eq. destruct Hleaf as [? | Hc]; [done|].
      destruct Hnonleaf; done. }
    split; [intros i n1 Hi; left; by eapply Hcov|]. split; [done|].
    exists root. done.
  - set (n' := mkNode _ _ _ _ _ _ _ _).
    destruct (init_fields (copy st2) (Some j) (Some m)) as (Hnp & Hnm & Hnc & Hnv).
    set (new := MCTSNode_init (copy st2) (Some j) (Some m)) in *.
    assert (j < length t)%nat as Hjlt by (by eapply lookup_lt_Some).
    assert (∀ i x, (<[j := n']> t ++ [new]) !! i = Some x ↔
                   (i = length t ∧ x = new) ∨ (i = j ∧ x = n') ∨ (i ≠ j ∧ t !! i = Some x))
      as Hlook by (intros; by apply grown_lookup).
    assert (tree_shape (<[j := n']> t ++ [new])) as Hsh1.
    { apply grown_shape; [done | done | done | by rewrite Hnm | done]. }
    exists (<[j := n']> t ++ [new]), (length t), st2, (S pos).
    split; [done|]. split; [done|]. split; [done|].
    split; [exists new; apply Hlook; by left|].
    split; [lia|]. split.
    { intros i n1 Hi. apply Hlook in Hi as [[-> ->] | [[-> ->] | [Hne Hi]]].
      - left. rewrite Hnc. simpl. lia.
      - right. split.
        + eapply anc_up; [apply Hlook; by left | exact Hnp | constructor].
        + simpl. rewrite length_app. simpl. specialize (Hcov j nj Hj). lia.
      - left. by eapply Hcov. }
    assert (∀ c, (c < length t)%nat →
              match (<[j := n']> t ++ [new]) !! c with Some cn => visits cn | None => 0%nat end
              = match t !! c with Some cn => visits cn | None => 0%nat end) as Hsame.
    { intros c Hc. destruct (lookup_lt_is_Some_2 _ _ Hc) as [cn Hcn]. rewrite Hcn.
      destruct (decide (c = j)) as [->|Hne].
      - rewrite (proj2 (Hlook j n')); [by simplify_eq | right; by left].
      - rewrite (proj2 (Hlook c cn)); [done | right; by right]. }
    assert (∀ x, t !! 0%nat = Some x → ∀ cs, (∀ c, c ∈ cs → (c < length t)%nat) →
              sum_list_with (λ c, match (<[j := n']> t ++ [new]) !! c with
                                  | Some cn => visits cn | None => 0%nat end) cs
              = sum_list_with (λ c, match t !! c with
                                    | Some cn => visits cn | None => 0%nat end) cs)
      as Hsum_same.
    { intros _ _ cs. induction cs as [|c cs IH]; intros Hcs; [done|]. simpl.
      rewrite Hsame by (apply Hcs; left). rewrite IH; [done|].
      intros c' Hc'. apply Hcs. by right. }
    assert (∀ c, c ∈ children root → (c < length t)%nat) as Hkids.
    { intros c Hc. destruct (shape_children t Hsh 0%nat root c Hr Hc) as (cn & Hcn & _).
      by eapply lookup_lt_Some. }
    split.
    { intros c. unfold visits_at. destruct (decide (c < length t)%nat) as [Hc|Hc].
      - by apply Hsame.
      - rewrite (lookup_ge_None_2 t c) by lia.
        destruct (decide (c = length t)) as [->|Hne].
        + rewrite (proj2 (Hlook (length t) new)); [done | by left].
        + rewrite lookup_ge_None_2; [done|].
          rewrite length_app, length_insert. simpl. lia. }
    destruct (decide (j = 0%nat)) as [->|Hj0].
    + simplify_eq. exists n'. split; [apply Hlook; right; by left|]. split; [done|].
      unfold children_visits. simpl. rewrite sum_list_with_app. simpl.
      rewrite (Hsum_same _ Hr _ Hkids).
      rewrite (proj2 (Hlook (length t) new)); [|by left]. rewrite Hnv.
      unfold children_visits in Hsum. lia.
    + exists root. split; [apply Hlook; right; by right|]. split; [done|].
      unfold children_visits. by rewrite (Hsum_same _ Hr _ Hkids).
Qed.
End Loop.

Section Passes.
Context {F : Type} `{ScoreArith F}.
Variable rng : nat → nat.
Variable self : MCTS F.
Variable root_state : Connect4.
Hypothesis root_playable : playable root_state.

(** One pass of the main loop keeps the invariant and counts one more
    visit at the root and under it. *)
Lemma simulate_once_inv k (t : tree) pos :
  loop_inv k t →
  ∃ t' pos', simulate_once rng self root_state t pos = Ok (t', pos') ∧
             loop_inv (S k) t' ∧
             ∃ root' a, t' !! 0%nat = Some root' ∧ a ∈ children root' ∧
               ∀ c, c ∈ children root' →
                 visits_at t' c = (visits_at t c + if decide (c = a) then 1 else 0)%nat.
Proof.
  intros Hinv.
  destruct (descend_spec rng self root_state root_playable k t pos Hinv)
    as (t1 & node & st & pos1 & Hd & Hst & Hsh1 & [nn Hnode] & Hn0 & Hcov1 & Hsame1 &
        root1 & Hr1 & Hvis1 & Hsum1).
  unfold simulate_once. rewrite Hd, bind_Ok. cbn beta iota.
  destruct (rollout_total rng (ROWS * COLS + 1) st pos1 Hst) as (st' & pos' & -> & Hst').
  { pose proof (blanks_bound (board st)). lia. }
  rewrite bind_Ok. cbn beta iota.
  destruct (_check_winstate st') as [winner st''].
  pose proof (shape_decreasing t1 Hsh1) as Hdec.
  assert (node < length t1)%nat as Hlt by (by eapply lookup_lt_Some).
  destruct (backpropagate_spec (length t1) t1 winner node Hdec Hlt Hlt)
    as (t2 & -> & Hlinks & Hv).
  rewrite bind_Ok. exists t2, pos'. split; [done|].
  pose proof Hlinks as [Hlen Hl].
  assert (∀ i n2, t2 !! i = Some n2 →
            ∃ n1, t1 !! i = Some n1 ∧ children n2 = children n1 ∧
                  (visits n1 ≤ visits n2)%nat ∧
                  (anc t1 node i → visits n2 = S (visits n1)) ∧
                  (¬ anc t1 node i → visits n2 = visits n1)) as Hback.
  { intros i n2 Hi2. assert (i < length t1)%nat as Hi
      by (rewrite <- Hlen; by eapply lookup_lt_Some).
    destruct (lookup_lt_is_Some_2 _ _ Hi) as [n1 Hi1].
    destruct (Hl i n1 Hi1) as (n2' & Hi2' & _ & Hc & _). simplify_eq.
    destruct (Hv i n1 n2 Hi1 Hi2) as [Hyes Hno].
    exists n1. split; [done|]. split; [done|]. split; [|done].
    destruct (anc_dec t1 node i Hdec) as [Ha | Hna];
      [rewrite (Hyes Ha); lia | rewrite (Hno Hna); lia]. }
  destruct (Hl 0%nat root1 Hr1) as (root2 & Hr2 & _ & Hc2 & _ & Hu2).
  destruct (anc_root_child t1 node Hsh1 ltac:(by eexists) Hn0)
    as (a & na & Ha & Hna & Hpa).
  assert (a ∈ children root1) as Hain.
  { destruct (shape_parent t1 Hsh1 a na 0%nat Hna Hpa) as (_ & _ & pn & Hpn & Hin).
    by simplify_eq. }
  assert (∀ c, c ∈ children root1 →
            visits_at t2 c = (visits_at t1 c + if decide (c = a) then 1 else 0)%nat)
    as Hbump.
  { intros c Hc. unfold visits_at.
    destruct (shape_children t1 Hsh1 0%nat root1 c Hr1 Hc) as (cn & Hcn & Hpc).
    destruct (Hl c cn Hcn) as (cn2 & Hcn2 & _). rewrite Hcn2, Hcn.
    destruct (Hv c cn cn2 Hcn Hcn2) as [Hy Hn].
    destruct (decide (c = a)) as [->|Hca].
    - rewrite Hy; [lia|]. by simplify_eq.
    - rewrite Hn; [lia|]. intros Hac. apply Hca.
      by eapply (anc_root_child_unique t1 node c a). }
  split; [|exists root2, a; split; [done|]; split; [by rewrite Hc2|];
           intros c Hc; rewrite Hc2 in Hc; by rewrite (Hbump c Hc), Hsame1].
  split.
  - by eapply same_links_shape.
  - intros i n2 Hi2. destruct (Hback i n2 Hi2) as (n1 & Hi1 & -> & Hle & Hyes & _).
    destruct (Hcov1 i n1 Hi1) as [Hc | [Hanc Hc]]; [lia|].
    rewrite (Hyes Hanc). lia.
  - exists root2. split; [done|].
    destruct (Hback 0%nat root2 Hr2) as (root1' & Hr1' & _ & _ & Hyes & _).
    assert (root1' = root1) as -> by congruence. clear Hr1'. split.
    { rewrite Hyes; [by rewrite Hvis1|]. apply anc_root; [done | by eexists]. }
    split.
    { unfold children_visits in *. rewrite Hc2.
      rewrite (sum_list_with_bump
                 (λ c, match t1 !! c with Some cn => visits cn | None => 0%nat end)
                 _ (children root1) a); [by rewrite Hsum1 | by eapply shape_nodup | done | |].
      - destruct (Hl a na Hna) as (na2 & Hna2 & _). rewrite Hna2, Hna.
        destruct (Hv a na na2 Hna Hna2) as [Hy _]. by apply Hy.
      - intros x Hx Hxa.
        destruct (shape_children t1 Hsh1 0%nat root1 x Hr1 Hx) as (xn & Hxn & Hpx).
        destruct (Hl x xn Hxn) as (xn2 & Hxn2 & _). rewrite Hxn2, Hxn.
        destruct (Hv x xn xn2 Hxn Hxn2) as [_ Hn]. apply Hn. intros Hax.
        apply Hxa. by eapply (anc_root_child_unique t1 node x a). }
    assert (children root2 ≠ []) as Hne.
    { rewrite Hc2. intros E. rewrite E in Hain. by apply elem_of_nil in Hain. }
    split; [by right | done].
Qed.

Lemma run_simulations_inv n k (t : tree) pos :
  loop_inv k t →
  ∃ t' pos', run_simulations rng self root_state n t pos = Ok (t', pos') ∧
             loop_inv (n + k) t'.
Proof.
  revert k t pos. induction n as [|n IH]; intros k t pos Hinv; simpl.
  - by exists t, pos.
  - destruct (simulate_once_inv k t pos Hinv) as (t1 & pos1 & -> & Hinv1 & _).
    rewrite bind_Ok. cbn beta iota.
    destruct (IH (S k) t1 pos1 Hinv1) as (t' & pos' & -> & Hinv').
    exists t', pos'. split; [done|]. by replace (S (n + k)) with (n + S k)%nat by lia.
Qed.

(** The first pass of [for _ in range(n)], unrolled. *)
Lemma run_simulations_step n (t : tree) pos :
  run_simulations rng self root_state (S n) t pos =
  '(t, pos) ← simulate_once rng self root_state t pos;
  run_simulations rng self root_state n t pos.
Proof. done. Qed.

End Passes.

(** ** The whole search *)

Lemma wf_state_playable s : wf_state s → playable s.
Proof. intros [[Hwf _] Hp]. by split. Qed.

Lemma tactical_checks_Search root rn rs :
  tactical_checks root = (Search rn, rs) →
  parent rn = None ∧ move rn = None ∧ children rn = [] ∧ visits rn = 0%nat ∧
  untried_moves rn ≠ [].
Proof.
  unfold tactical_checks.
  destruct (init_fields (copy root) None None) as (Hp & Hm & Hc & Hv).
  destruct (untried_moves (MCTSNode_init (copy root) None None)) as [|a [|b l]] eqn:Eu;
    [done..|].
  destruct (_get_available_moves root None) as [legal rs0].
  destruct (first_hit _ _); [done|].
  destruct (safe_scan _ _ _ _) as [safe rs1].
  intros [= <- <-]. cbn [parent move children visits untried_moves].
  do 4 (split; [done|]).
  destruct safe; [done|]. by destruct (filter _ _).
Qed.

(** The tactical checks leave [root_state] as it was: the only calls
    that could set its [game_over] see a board with an open column. *)
Lemma tactical_checks_root root : (tactical_checks root).2 = root.
Proof.
  unfold tactical_checks.
  pose proof (init_untried (copy root) None None) as Hu. rewrite board_copy in Hu.
  destruct (untried_moves (MCTSNode_init (copy root) None None)) as [|a [|b l]] eqn:Eu;
    [done..|].
  assert (open_columns (board root) = a :: b :: l) as Hopen.
  { destruct (check_win_on_board (board root)) as [w|]; [destruct (truthy w)|]; done. }
  unfold _get_available_moves at 1. rewrite Hopen. cbn beta iota zeta.
  destruct (first_hit _ _); [done|].
  rewrite safe_scan_spec; [done|].
  intros m Hm. unfold simulate_move. apply open_after_move; rewrite Hopen; [simpl; lia | done].
Qed.

Lemma loop_inv_init rn :
  parent rn = None → children rn = [] → visits rn = 0%nat → untried_moves rn ≠ [] →
  loop_inv 0 [rn].
Proof.
  intros Hp Hc Hv Hu.
  assert (∀ i n, [rn] !! i = Some n → i = 0%nat ∧ n = rn) as Hone.
  { intros [|i] n Hi; simpl in Hi; [by simplify_eq | by destruct i]. }
  split.
  - split.
    + by exists rn.
    + intros i n p Hi Hpar. destruct (Hone i n Hi) as [-> ->]. congruence.
    + intros i n Hi _. by destruct (Hone i n Hi).
    + intros i n c Hi Hin. destruct (Hone i n Hi) as [-> ->].
      rewrite Hc in Hin. by apply elem_of_nil in Hin.
    + intros i n Hi. destruct (Hone i n Hi) as [-> ->]. rewrite Hc. constructor.
  - intros i n Hi. destruct (Hone i n Hi) as [-> ->]. rewrite Hc. simpl. lia.
  - exists rn. split; [done|]. split; [done|]. split; [|split; [by left | done]].
    unfold children_visits. by rewrite Hc.
Qed.

Lemma keyed_visits_spec (t : tree) cs :
  (∀ c, c ∈ cs → is_Some (t !! c)) →
  ∃ ks, keyed_visits t cs = Ok ks ∧ length ks = length cs ∧
        ∀ v c, (v, c) ∈ ks ↔ c ∈ cs ∧ ∃ cn, t !! c = Some cn ∧ v = visits cn.
Proof.
  induction cs as [|c cs IH]; intros Hcs; simpl.
  - exists []. split; [done|]. split; [done|]. intros v c.
    split; [by intros ?%elem_of_nil | by intros [?%elem_of_nil _]].
  - destruct (Hcs c ltac:(left)) as (cn & Hc).
    destruct IH as (ks & -> & Hlen & Hks); [intros c' Hc'; apply Hcs; by right|].
    rewrite (node_at_Some _ _ _ Hc), !bind_Ok.
    eexists. split; [done|]. split; [simpl; by rewrite Hlen|].
    intros v c'. rewrite !elem_of_cons, Hks. split.
    + intros [[= -> ->] | [Hin Hk]]; [split; [by left | eauto] | split; [by right | done]].
    + intros [[-> | Hin] (cn' & Hc' & ->)]; [left | right; eauto].
      by simplify_eq.
Qed.

(** The final extraction on a root with a child: the move of a child
    with the highest visit count. *)
Lemma most_visited_move_spec k (t : tree) root :
  loop_inv k t → t !! 0%nat = Some root → children root ≠ [] →
  ∃ c cn m, most_visited_move t = Ok (Some m) ∧ c ∈ children root ∧
            t !! c = Some cn ∧ move cn = Some m ∧
            ∀ c' cn', c' ∈ children root → t !! c' = Some cn' →
                      (visits cn' ≤ visits cn)%nat.
Proof.
  intros [Hsh _ _] Hr Hne.
  destruct (keyed_visits_spec t (children root)) as (ks & Hks & Hlen & Hmem).
  { intros c Hc. destruct (shape_children t Hsh 0%nat root c Hr Hc) as (cn & Hcn & _).
    by eexists. }
  assert (ks ≠ []) as Hks_ne.
  { intros ->. simpl in Hlen. destruct (children root); [done | simpl in Hlen; lia]. }
  destruct (last_sorted_max (A := nat) Nat.ltb) with (l := ks) as ([v c] & Hlast & Hvc & Hmax);
    [| |done|].
  { intros x y Hxy. apply Nat.ltb_lt in Hxy. apply Nat.ltb_ge. lia. }
  { intros x y z Hxz. apply Nat.ltb_lt in Hxz. rewrite !Nat.ltb_lt. lia. }
  apply Hmem in Hvc as (Hc & cn & Hcn & ->).
  destruct (shape_children t Hsh 0%nat root c Hr Hc) as (cn0 & Hcn0 & Hpar).
  assert (cn0 = cn) as -> by congruence.
  destruct (shape_parent t Hsh c cn 0%nat Hcn Hpar) as (_ & [m Hm] & _).
  exists c, cn, m. split.
  { unfold most_visited_move. rewrite (node_at_Some _ _ _ Hr), bind_Ok, Hks, bind_Ok, Hlast.
    by rewrite (node_at_Some _ _ _ Hcn), bind_Ok, Hm. }
  do 3 (split; [done|]).
  intros c' cn' Hc' Hcn'. specialize (Hmax (visits cn', c')). simpl in Hmax.
  apply Nat.ltb_ge, Hmax, Hmem. eauto.
Qed.
Lemma run_simulations_add {F : Type} `{ScoreArith F} rng (self : MCTS F) root a b
    (t : tree) pos :
  run_simulations rng self root (a + b) t pos =
  '(t, pos) ← run_simulations rng self root a t pos;
  run_simulations rng self root b t pos.
Proof.
  revert t pos. induction a as [|a IH]; intros t pos; [done|].
  change (S a + b)%nat with (S (a + b)). rewrite !run_simulations_step.
  destruct (simulate_once rng self root t pos) as [[t1 pos1]| |]; [|reflexivity..].
  rewrite !bind_Ok. cbn beta iota. apply IH.
Qed.

Lemma search_inv {F : Type} `{ScoreArith F} rng (self : MCTS F) root rn rs k :
  wf_state root → tactical_checks root = (Search rn, rs) →
  ∃ t pos, run_simulations rng self root k [rn] 0%nat = Ok (t, pos) ∧ loop_inv k t.
Proof.
  intros Hwf Ht.
  destruct (tactical_checks_Search root rn rs Ht) as (Hp & _ & Hc & Hv & Hu).
  destruct (run_simulations_inv rng self root (wf_state_playable _ Hwf) k 0 [rn] 0%nat)
    as (t & pos & Hrun & Hinv); [by apply loop_inv_init|].
  exists t, pos. split; [done|]. by rewrite Nat.add_0_r in Hinv.
Qed.

(** The end of a search that ran at least one pass. *)
Lemma search_end {F : Type} `{ScoreArith F}
    (rng : nat → nat) (self : MCTS F) (root : Connect4) (rn : MCTSNode) (rs : Connect4) :
  wf_state root → tactical_checks root = (Search rn, rs) →
  (1 ≤ simulations self)%nat →
  ∃ t pos rootn c cn m,
    run_simulations rng self root (simulations self) [rn] 0%nat = Ok (t, pos) ∧
    t !! 0%nat = Some rootn ∧
    visits rootn = simulations self ∧ children_visits t rootn = simulations self ∧
    children rootn ≠ [] ∧
    c ∈ children rootn ∧ t !! c = Some cn ∧ move cn = Some m ∧
    (∀ c' cn', c' ∈ children rootn → t !! c' = Some cn' → (visits cn' ≤ visits cn)%nat) ∧
    get_best_move rng self root = (Ok (Some m, t, pos), root).
Proof.
  intros Hwf Ht Hbudget.
  destruct (search_inv rng self root rn rs (simulations self) Hwf Ht)
    as (t & pos & Hrun & Hinv).
  pose proof Hinv as [_ _ (rootn & Hr & Hv & Hs & _ & Hkids)].
  specialize (Hkids ltac:(lia)).
  destruct (most_visited_move_spec _ t rootn Hinv Hr Hkids)
    as (c & cn & m & Hmv & Hc & Hcn & Hm & Hmax).
  exists t, pos, rootn, c, cn, m. do 9 (split; [done|]).
  pose proof (tactical_checks_root root) as Hroot. rewrite Ht in Hroot. simpl in Hroot.
  unfold get_best_move. rewrite Ht, Hrun, bind_Ok. cbn beta iota.
  by rewrite Hmv, bind_Ok, Hroot.
Qed.

(** C8.  In the store built by [get_best_move], [visits >= len(children)]
    holds at every node at the end of every pass of the main loop: each
    of the first [k] passes, for every [k] up to the budget, ends without
    an exception in a store with the invariant, from which the remaining
    passes continue; and it holds in the store with which
    [get_best_move] returns. *)
Theorem visits_cover_every_pass {F : Type} `{ScoreArith F}
    (rng : nat → nat) (self : MCTS F) (root : Connect4) :
  wf_state root →
  (∀ rn rs, tactical_checks root = (Search rn, rs) →
     ∀ k, (k ≤ simulations self)%nat →
       ∃ t pos,
         run_simulations rng self root k [rn] 0%nat = Ok (t, pos) ∧ visits_cover t ∧
         run_simulations rng self root (simulations self) [rn] 0%nat =
           run_simulations rng self root (simulations self - k) t pos) ∧
  (∀ r t pos, (get_best_move rng self root).1 = Ok (r, t, pos) → visits_cover t).
Proof.
  intros Hwf. split.
  - intros rn rs Ht k Hk.
    destruct (search_inv rng self root rn rs k Hwf Ht) as (t & pos & Hrun & Hinv).
    exists t, pos. split; [done|]. split; [by destruct Hinv|].
    replace (simulations self) with (k + (simulations self - k))%nat at 1 by lia.
    by rewrite run_simulations_add, Hrun, bind_Ok.
  - intros r t pos. unfold get_best_move.
    destruct (tactical_checks root) as [[r0 | rn] rs] eqn:Ht; simpl.
    + intros [= <- <- <-]. intros i n Hi.
      destruct i as [|i]; simpl in Hi; [|by destruct i]. simplify_eq.
      destruct (init_fields (copy root) None None) as (_ & _ & -> & _). simpl. lia.
    + destruct (search_inv rng self root rn rs (simulations self) Hwf Ht)
        as (t' & pos' & -> & Hinv).
      rewrite bind_Ok. cbn beta iota.
      destruct (most_visited_move t') as [mv| |]; [|done..].
      rewrite bind_Ok. intros [= <- <- <-]. by destruct Hinv.
Qed.

(** C10.  When the main loop runs, with a budget of at least one pass,
    every pass adds one visit to the root and to exactly one child of the
    root (a child created in the pass counting from 0), and leaves the
    visit counts of the root's other children as they were; so after each
    of the first [k] passes the root's visit count is [k] and so is the
    sum of the visit counts of its children; at the end both equal the
    budget, the root has a child, and [get_best_move] returns the move of
    a child whose visit count no other child's exceeds. *)
Theorem root_visits_equal_budget {F : Type} `{ScoreArith F}
    (rng : nat → nat) (self : MCTS F) (root : Connect4) (rn : MCTSNode) (rs : Connect4) :
  wf_state root → tactical_checks root = (Search rn, rs) →
  (1 ≤ simulations self)%nat →
  (∀ k, (k < simulations self)%nat →
     ∃ t pos t' pos' rootk rootk' a,
       run_simulations rng self root k [rn] 0%nat = Ok (t, pos) ∧
       simulate_once rng self root t pos = Ok (t', pos') ∧
       run_simulations rng self root (S k) [rn] 0%nat = Ok (t', pos') ∧
       t !! 0%nat = Some rootk ∧ t' !! 0%nat = Some rootk' ∧
       visits rootk = k ∧ visits rootk' = S k ∧
       a ∈ children rootk' ∧
       ∀ c, c ∈ children rootk' →
         visits_at t' c = (visits_at t c + if decide (c = a) then 1 else 0)%nat) ∧
  (∀ k, (k ≤ simulations self)%nat →
     ∃ t pos rootk,
       run_simulations rng self root k [rn] 0%nat = Ok (t, pos) ∧
       t !! 0%nat = Some rootk ∧ visits rootk = k ∧ children_visits t rootk = k) ∧
  ∃ t pos rootn c cn m,
    run_simulations rng self root (simulations self) [rn] 0%nat = Ok (t, pos) ∧
    t !! 0%nat = Some rootn ∧
    visits rootn = simulations self ∧ children_visits t rootn = simulations self ∧
    children rootn ≠ [] ∧
    c ∈ children rootn ∧ t !! c = Some cn ∧ move cn = Some m ∧
    (∀ c' cn', c' ∈ children rootn → t !! c' = Some cn' → (visits cn' ≤ visits cn)%nat) ∧
    get_best_move rng self root = (Ok (Some m, t, pos), root).
Proof.
  intros Hwf Ht Hbudget. split; [|split].
  - intros k _.
    destruct (search_inv rng self root rn rs k Hwf Ht) as (t & pos & Hrun & Hinv).
    destruct (simulate_once_inv rng self root (wf_state_playable _ Hwf) k t pos Hinv)
      as (t' & pos' & Hsim & Hinv' & rootk' & a & Hr' & Ha & Hbump).
    destruct Hinv as [_ _ (rootk & Hr & Hv & _)].
    destruct Hinv' as [_ _ (rootk'' & Hr'' & Hv' & _)].
    assert (rootk'' = rootk') as -> by congruence.
    exists t, pos, t', pos', rootk, rootk', a.
    split; [done|]. split; [done|]. split; [|done].
    replace (S k) with (k + 1)%nat by lia.
    rewrite run_simulations_add, Hrun, bind_Ok. cbn beta iota.
    rewrite run_simulations_step, Hsim. reflexivity.
  - intros k _.
    destruct (search_inv rng self root rn rs k Hwf Ht) as (t & pos & Hrun & Hinv).
    destruct Hinv as [_ _ (rootk & Hr & Hv & Hs & _)].
    exists t, pos, rootk. done.
  - by apply (search_end rng self root rn rs).
Qed.

(** C6.  [get_best_move] leaves [root_state] as it was, whatever the
    outcome of the call; and on a state of the program, with a budget of
    at least one pass, the call returns: no exception arises and every
    loop ends. *)
Theorem get_best_move_keeps_root {F : Type} `{ScoreArith F}
    (rng : nat → nat) (self : MCTS F) (root : Connect4) :
  (get_best_move rng self root).2 = root ∧
  (wf_state root → (1 ≤ simulations self)%nat →
   ∃ r t pos, (get_best_move rng self root).1 = Ok (r, t, pos)).
Proof.
  pose proof (tactical_checks_root root) as Hroot. split.
  - unfold get_best_move. by destruct (tactical_checks root) as [[r | rn] rs].
  - intros Hwf Hbudget. destruct (tactical_checks root) as [[r | rn] rs] eqn:Ht.
    + rewrite (get_best_move_Return rng self root r rs Ht). by eexists _, _, _.
    + destruct (search_end rng self root rn rs Hwf Ht Hbudget)
        as (t & pos & _ & _ & _ & m & _ & _ & _ & _ & _ & _ & _ & _ & _ & ->).
      by eexists _, _, _.
Qed.
Lemma must_block_search :
  tactical_checks must_block_game
  = (Search (mkNode (copy must_block_game) None None [] 0%Q 0%nat [3] "Y"),
     must_block_game).
Proof. vm_compute. reflexivity. Qed.

Lemma must_block_wf : wf_state must_block_game.
Proof. decide_by_compute. Qed.

Lemma visits_cover_every_pass_witness :
  wf_state must_block_game ∧
  ∃ t pos,
    run_simulations (H := real_arith) (λ n, n)
      (mkMCTS _ 50%nat (Rdefinitions.IZR 1)) must_block_game 50
      [mkNode (copy must_block_game) None None [] 0%Q 0%nat [3] "Y"] 0%nat = Ok (t, pos) ∧
    visits_cover t.
Proof.
  split; [exact must_block_wf|].
  destruct (visits_cover_every_pass (H := real_arith) (λ n, n)
              (mkMCTS _ 50%nat (Rdefinitions.IZR 1)) must_block_game must_block_wf)
    as [Hpass _].
  destruct (Hpass _ _ must_block_search 50%nat) as (t & pos & Hrun & Hcov & _);
    [simpl; lia|].
  exists t, pos. split; [exact Hrun | exact Hcov].
Defined.

Lemma root_visits_equal_budget_witness :
  wf_state must_block_game ∧
  (1 ≤ simulations (mkMCTS _ 50%nat (Rdefinitions.IZR 1)))%nat ∧
  ∃ t pos rootn m,
    get_best_move (H := real_arith) (λ n, n) (mkMCTS _ 50%nat (Rdefinitions.IZR 1))
                  must_block_game = (Ok (Some m, t, pos), must_block_game) ∧
    t !! 0%nat = Some rootn ∧ visits rootn = 50%nat ∧ children_visits t rootn = 50%nat ∧
    children rootn ≠ [].
Proof.
  assert (1 ≤ simulations (mkMCTS _ 50%nat (Rdefinitions.IZR 1)))%nat as Hb
    by (simpl; lia).
  split; [exact must_block_wf|]. split; [exact Hb|].
  destruct (root_visits_equal_budget (H := real_arith) (λ n, n)
              (mkMCTS _ 50%nat (Rdefinitions.IZR 1)) must_block_game _ _
              must_block_wf must_block_search Hb)
    as (_ & _ & t & pos & rootn & c & cn & m & _ & Hr & Hv & Hs & Hk & _ & _ & _ & _ & Hg).
  exists t, pos, rootn, m.
  split; [exact Hg|]. split; [exact Hr|]. split; [exact Hv|]. split; [exact Hs | exact Hk].
Defined.

Lemma get_best_move_keeps_root_witness :
  wf_state must_block_game ∧
  (get_best_move (H := real_arith) (λ n, n) (mkMCTS _ 50%nat (Rdefinitions.IZR 1))
                 must_block_game).2 = must_block_game ∧
  ∃ r t pos,
    (get_best_move (H := real_arith) (λ n, n) (mkMCTS _ 50%nat (Rdefinitions.IZR 1))
                   must_block_game).1 = Ok (r, t, pos).
Proof.
  split; [exact must_block_wf|].
  destruct (get_best_move_keeps_root (H := real_arith) (λ n, n)
              (mkMCTS _ 50%nat (Rdefinitions.IZR 1)) must_block_game) as [Hroot Hret].
  split; [exact Hroot|]. apply Hret; [exact must_block_wf | simpl; lia].
Defined.

(** ** A playout that goes on after the game is won *)

(** C3 fails on the code.  From [double_threat_game], with a random
    source that always draws 3 and any score arithmetic, seven passes
    expand the root's seven children; the eighth pass, whichever child it
    selects, expands Yellow's move in column 3, which completes a row of
    four.  The working state then holds a winning line, but its
    [game_over] flag is still unset, since neither selection nor expansion
    runs [_check_winstate] on it; the rollout loop is entered and drops
    one more token on the won board. *)
Theorem rollout_plays_on_won_state {F : Type} `{ScoreArith F} (C : F) :
  let rng := λ _ : nat, 3%nat in
  let self := mkMCTS F 8 C in
  ∃ rn t7 pos7,
    tactical_checks double_threat_game = (Search rn, double_threat_game) ∧
    run_simulations rng self double_threat_game 7 [rn] 0%nat = Ok (t7, pos7) ∧
    ∃ t8 node st pos,
      descend rng self double_threat_game t7 pos7 = Ok (t8, node, st, pos) ∧
      check_win_on_board (board st) = Some "Y" ∧
      game_over st = false ∧
      open_columns (board st) ≠ [] ∧
      ∃ st' pos', rollout rng (ROWS * COLS + 1) st pos = Ok (st', pos') ∧
                  (blanks (board st') < blanks (board st))%nat.
Proof.
  intros rng self.
  eexists _, _, _. split; [vm_compute; reflexivity|].
  split; [vm_compute; reflexivity|].
  match goal with |- context [descend _ _ _ ?t ?p] => set (t7 := t); set (pos7 := p) end.
  unfold descend.
  assert (∃ root7, t7 !! 0%nat = Some root7 ∧ untried_moves root7 = [] ∧
                   children root7 = [1; 2; 3; 4; 5; 6; 7]%nat ∧ visits root7 = 7%nat)
    as (root7 & Hr & Hu & Hc & Hv) by (eexists; repeat split; reflexivity).
  destruct (uct_select_child_in t7 0%nat C root7 Hr) as (c & Hsel & Hin).
  { by rewrite Hc. }
  { intros c Hin. rewrite Hc, !elem_of_cons, elem_of_nil in Hin.
    destruct Hin as [-> | [-> | [-> | [-> | [-> | [-> | [-> | []]]]]]]]; by eexists. }
  { rewrite Hv. lia. }
  change (length t7) with 8%nat.
  rewrite select_step, (node_at_Some _ _ _ Hr), bind_Ok, Hu, Hc.
  change (exploration_constant self) with C. rewrite Hsel, bind_Ok.
  rewrite Hc, !elem_of_cons, elem_of_nil in Hin.
  destruct Hin as [-> | [-> | [-> | [-> | [-> | [-> | [-> | []]]]]]]];
    (eexists _, _, _, _; split; [vm_compute; reflexivity|];
     split; [vm_compute; reflexivity|]; split; [vm_compute; reflexivity|];
     split; [vm_compute; discriminate|];
     eexists _, _; split; [vm_compute; reflexivity | vm_compute; lia]).
Qed.

(** What the extra move can do: Red has just completed column 1; a
    working state in this position, its flag unset, takes Yellow's move in
    column 0, after which [_check_winstate] reports Yellow. *)
Lemma rollout_can_flip_winner :
  let st := play [1; 0; 1; 0; 1; 0; 1] in
  check_win_on_board (board st) = Some "R" ∧ game_over st = false ∧
  ∃ st' pos', rollout (λ _, 0%nat) (ROWS * COLS + 1) st 0%nat = Ok (st', pos') ∧
              board st' = board two_lines_game ∧
              (_check_winstate st').1 = Some "Y".
Proof.
  split; [vm_compute; reflexivity|]. split; [vm_compute; reflexivity|].
  eexists _, _. split; [vm_compute; reflexivity|].
  split; vm_compute; reflexivity.
Qed.

(** * Further properties of the game state *)

Lemma player_at_shift s i : player_at s (i - 1) = player_at s (i + 1).
Proof.
  unfold player_at. replace (i + 1) with (i - 1 + 1 * 2) by lia.
  by rewrite Z.mod_add.
Qed.

Lemma player_at_ext s s' i : player_list s = player_list s' → player_at s i = player_at s' i.
Proof. unfold player_at. by intros ->. Qed.

Lemma player_at_other s i :
  player_list s = ["R"; "Y"] → player_at s (i + 1) ≠ player_at s i.
Proof.
  intros Hp. unfold player_at. rewrite Hp.
  replace ((i + 1) mod 2) with (1 - i mod 2)
    by (rewrite <- Z.add_mod_idemp_l by lia;
        pose proof (Z.mod_pos_bound i 2 ltac:(lia));
        assert (i mod 2 = 0 ∨ i mod 2 = 1) as [-> | ->] by lia; done).
  pose proof (Z.mod_pos_bound i 2 ltac:(lia)).
  assert (i mod 2 = 0 ∨ i mod 2 = 1) as [-> | ->] by lia; done.
Qed.

Lemma find_seq_first (f : nat → bool) a len n :
  find f (seq a len) = Some n →
  f n = true ∧ (a ≤ n < a + len)%nat ∧ ∀ k, (a ≤ k < n)%nat → f k = false.
Proof.
  revert a. induction len as [|len IH]; intros a; simpl; [done|].
  destruct (f a) eqn:Ea.
  - intros [= <-]. split; [done|]. split; [lia|]. intros k Hk. lia.
  - intros Hf. destruct (IH _ Hf) as (Hn & Hr & Hfirst).
    split; [done|]. split; [lia|]. intros k Hk.
    destruct (decide (k = a)) as [->|Hne]; [done|]. apply Hfirst. lia.
Qed.

Lemma lowest_blank_unique b c r1 r2 :
  lowest_blank b c r1 → lowest_blank b c r2 → r1 = r2.
Proof.
  intros (H1 & E1 & L1) (H2 & E2 & L2).
  destruct (Nat.lt_trichotomy r1 r2) as [Hlt | [-> | Hlt]]; [|done|].
  - exfalso. by apply (L1 r2).
  - exfalso. by apply (L2 r1).
Qed.

Lemma open_column_lowest_blank b m :
  wf_board b → m ∈ open_columns b → ∃ r, lowest_blank b (Z.to_nat m) r.
Proof.
  intros Hwf Hm. apply elem_of_open_columns in Hm as [_ Hm].
  assert (∀ k, (k ≤ ROWS)%nat →
            (∀ r', (ROWS - k ≤ r' < ROWS)%nat → cell_at b r' (Z.to_nat m) ≠ EMPTY) ∨
            ∃ r, lowest_blank b (Z.to_nat m) r) as Hscan.
  { induction k as [|k IH]; intros Hk; [left; intros; lia|].
    destruct IH as [Hfull | Hfound]; [lia | | by right].
    destruct (decide (cell_at b (ROWS - S k) (Z.to_nat m) = EMPTY)) as [He|Hne].
    - right. exists (ROWS - S k)%nat. split; [unfold ROWS in *; lia|]. split; [done|].
      intros r' Hr'. apply Hfull. lia.
    - left. intros r' Hr'.
      destruct (decide (r' = ROWS - S k)%nat) as [->|Hd]; [done|]. apply Hfull. lia. }
  destruct (Hscan ROWS ltac:(lia)) as [Hfull | Hfound]; [|done].
  exfalso. apply (Hfull 0%nat); [unfold ROWS; lia | done].
Qed.

Lemma make_move_open (s : Connect4) (m : Z) :
  wf_board (board s) → m ∈ open_columns (board s) →
  ∃ r, lowest_blank (board s) (Z.to_nat m) r ∧
       make_move s m =
         (true, mkConnect4 (set_cell (board s) r (Z.to_nat m) (player_at s (current_turn s)))
                           (game_over s) (player_list s) (current_turn s + 1)
                           (open_columns (board s)) (sum s)).
Proof.
  intros [Hlen Hrows] Hm. unfold make_move, _get_available_moves.
  pose proof (proj1 (elem_of_open_columns _ _) Hm) as [_ Htop].
  destruct (open_columns (board s)) as [|o os] eqn:Eo; [by apply elem_of_nil in Hm|].
  cbn [available_moves set_available_moves board].
  rewrite bool_decide_eq_true_2 by done. rewrite Hlen.
  destruct (find _ _) as [n|] eqn:E.
  - apply find_seq_first in E as (Hn & Hr & Hfirst). apply String.eqb_eq in Hn.
    exists (ROWS - n - 1)%nat. split; [|done].
    split; [unfold ROWS in *; lia|]. split; [done|].
    intros r' Hr'. specialize (Hfirst (ROWS - r' - 1)%nat ltac:(unfold ROWS in *; lia)).
    apply String.eqb_neq in Hfirst.
    by replace (ROWS - (ROWS - r' - 1) - 1)%nat with r' in Hfirst by (unfold ROWS in *; lia).
  - exfalso.
    pose proof (find_none _ _ E (ROWS - 1)%nat) as Hnone.
    assert (In (ROWS - 1)%nat (range 0 ROWS)) as Hin
      by (apply list_elem_of_In, elem_of_seq; unfold ROWS; lia).
    specialize (Hnone Hin). unfold ROWS in Hnone. simpl in Hnone. by rewrite Htop in Hnone.
Qed.

(** X1.  On an open column [make_move] succeeds: the mover's token goes
    to the lowest blank cell of the column and every other cell keeps its
    content, the turn advances by one, the cached moves are the open
    columns before the move, and nothing else changes. *)
Theorem make_move_legal_effect (s : Connect4) (m : Z) :
  wf_board (board s) → m ∈ open_columns (board s) →
  ∃ r, lowest_blank (board s) (Z.to_nat m) r ∧
       make_move s m =
         (true, mkConnect4 (set_cell (board s) r (Z.to_nat m) (player_at s (current_turn s)))
                           (game_over s) (player_list s) (current_turn s + 1)
                           (open_columns (board s)) (sum s)) ∧
       cell_at (board (make_move s m).2) r (Z.to_nat m) = player_at s (current_turn s) ∧
       ∀ r' c', (r', c') ≠ (r, Z.to_nat m) →
                cell_at (board (make_move s m).2) r' c' = cell_at (board s) r' c'.
Proof.
  intros Hwf Hm. destruct (make_move_open s m Hwf Hm) as (r & Hlow & E).
  exists r. split; [done|]. split; [done|]. rewrite E. cbn [snd board].
  apply elem_of_open_columns in Hm as [Hm _]. destruct Hlow as (Hr & _ & _).
  split.
  - apply cell_at_set_cell_eq; [done | done | unfold COLS; lia].
  - intros r' c' Hne. by apply cell_at_set_cell_ne.
Qed.

Lemma make_move_legal_effect_witness :
  wf_board (board three_in_row_game) ∧ (3 ∈ open_columns (board three_in_row_game)) ∧
  ∃ r, lowest_blank (board three_in_row_game) 3 r ∧
       (make_move three_in_row_game 3).1 = true ∧
       current_turn (make_move three_in_row_game 3).2 = 7.
Proof.
  assert (wf_board (board three_in_row_game)) as Hwf by decide_by_compute.
  assert (3 ∈ open_columns (board three_in_row_game)) as Hm by decide_by_compute.
  split; [exact Hwf|]. split; [exact Hm|].
  destruct (make_move_legal_effect three_in_row_game 3 Hwf Hm) as (r & Hr & -> & _).
  exists r. split; [exact Hr|]. split; [reflexivity | vm_compute; reflexivity].
Defined.

Lemma simulate_move_on_lowest b m p r :
  lowest_blank b (Z.to_nat m) r → simulate_move_on b m p = set_cell b r (Z.to_nat m) p.
Proof.
  intros Hlow. unfold simulate_move_on.
  destruct (find _ _) as [r0|] eqn:E.
  - f_equal. apply (lowest_blank_unique b (Z.to_nat m)); [|done].
    change [5; 4; 3; 2; 1; 0]%nat with (rev (seq 0 6)) in E.
    assert (∀ l r1, find (λ r, cell_at b r (Z.to_nat m) =? EMPTY) (rev l) = Some r1 →
              r1 ∈ l ∧ cell_at b r1 (Z.to_nat m) = EMPTY ∧
              ∀ k j1 jk, l !! j1 = Some r1 → l !! jk = Some k → (j1 < jk)%nat →
                         NoDup l → cell_at b k (Z.to_nat m) ≠ EMPTY) as Hrev.
    { induction l as [|x l IH] using rev_ind; intros r1; [done|].
      rewrite rev_app_distr. simpl.
      destruct (cell_at b x (Z.to_nat m) =? EMPTY) eqn:Ex.
      - intros [= <-]. apply String.eqb_eq in Ex. split; [apply elem_of_app; right; left|].
        split; [done|]. intros k j1 jk H1 Hk Hlt Hnd. exfalso.
        apply list.NoDup_app in Hnd as (Hnd & Hdis & _).
        assert (jk < length (l ++ [x]))%nat as Hb by (by eapply lookup_lt_Some).
        rewrite length_app in Hb. simpl in Hb.
        rewrite lookup_app_l in H1 by lia.
        apply (Hdis x); [by eapply list_elem_of_lookup_2 | left].
      - intros Hf. destruct (IH r1 Hf) as (Hin & He & Hlater).
        split; [apply elem_of_app; by left|]. split; [done|].
        intros k j1 jk H1 Hk Hlt Hnd.
        apply list.NoDup_app in Hnd as (Hnd & Hdis & _).
        assert (j1 < length l)%nat as Hj1.
        { destruct (decide (j1 < length l)%nat); [done|].
          rewrite lookup_app_r in H1 by lia.
          assert (jk < length (l ++ [x]))%nat as Hb by (by eapply lookup_lt_Some).
          rewrite length_app in Hb. simpl in Hb. lia. }
        rewrite lookup_app_l in H1 by done.
        destruct (decide (jk < length l)%nat) as [Hjk|Hjk].
        + rewrite lookup_app_l in Hk by done. by eapply Hlater.
        + rewrite lookup_app_r in Hk by lia.
          destruct (jk - length l)%nat; [|done]. simpl in Hk. simplify_eq.
          by apply String.eqb_neq. }
    destruct (Hrev _ _ E) as (Hin & He & Hlater). apply elem_of_seq in Hin.
    split; [unfold ROWS; lia|]. split; [done|]. intros r' Hr'.
    apply (Hlater r' r0 r'); [apply lookup_seq; lia | apply lookup_seq; unfold ROWS in *; lia
                              | lia | apply NoDup_seq].
  - exfalso. destruct Hlow as (Hr & He & _).
    pose proof (find_none _ _ E r) as Hnone. cbv beta in Hnone. rewrite He in Hnone.
    assert (In r [5; 4; 3; 2; 1; 0]%nat) as Hin.
    { apply list_elem_of_In. unfold ROWS in Hr. rewrite !elem_of_cons. lia. }
    by specialize (Hnone Hin).
Qed.

Lemma simulate_move_on_full b m p :
  (∀ r, (r < ROWS)%nat → cell_at b r (Z.to_nat m) ≠ EMPTY) → simulate_move_on b m p = b.
Proof.
  intros Hfull. unfold simulate_move_on.
  destruct (find _ _) as [r|] eqn:E; [|done].
  apply find_some in E as [Hin E]. apply String.eqb_eq in E.
  apply list_elem_of_In in Hin. rewrite !elem_of_cons, elem_of_nil in Hin.
  exfalso. apply (Hfull r); [unfold ROWS; lia | done].
Qed.

(** X2.  The lookahead and the real move agree, for a column index from
    0 to 6: on an open column [simulate_move] with its defaults returns
    exactly the board that [make_move] produces; on a column without a
    blank cell it returns the board unchanged, for any player and
    board. *)
Theorem simulate_move_agrees (s : Connect4) (m : Z) :
  wf_board (board s) → (0 ≤ m < 7)%Z →
  (m ∈ open_columns (board s) →
   simulate_move s m None None = board (make_move s m).2) ∧
  (∀ p b, (∀ r, (r < ROWS)%nat → cell_at b r (Z.to_nat m) ≠ EMPTY) →
          simulate_move s m (Some p) (Some b) = b).
Proof.
  intros Hwf Hrange. split.
  - intros Hm. destruct (make_move_open s m Hwf Hm) as (r & Hr & ->).
    unfold simulate_move. by rewrite (simulate_move_on_lowest _ _ _ r Hr).
  - intros p b Hfull. unfold simulate_move. by apply simulate_move_on_full.
Qed.

Lemma simulate_move_agrees_witness :
  wf_board (board three_in_row_game) ∧
  simulate_move three_in_row_game 3 None None = board (make_move three_in_row_game 3).2 ∧
  simulate_move three_in_row_game 0 (Some "Y") (Some (board full_column_game))
    = board full_column_game.
Proof.
  assert (wf_board (board three_in_row_game)) as Hwf by decide_by_compute.
  split; [exact Hwf|]. split.
  - apply (proj1 (simulate_move_agrees three_in_row_game 3 Hwf ltac:(lia))).
    decide_by_compute.
  - apply (proj2 (simulate_move_agrees three_in_row_game 0 Hwf ltac:(lia))).
    intros r Hr. unfold ROWS in Hr.
    destruct r as [|[|[|[|[|[|r]]]]]]; [by vm_compute.. | lia].
Defined.

Lemma make_move_refused s m :
  m ∉ open_columns (board s) →
  make_move s m =
    (false, mkConnect4 (board s)
              (match open_columns (board s) with [] => true | _ => game_over s end)
              (player_list s) (current_turn s) (open_columns (board s)) (sum s)).
Proof.
  intros Hm. unfold make_move, _get_available_moves.
  cbn [available_moves set_available_moves].
  rewrite bool_decide_eq_false_2 by done.
  by destruct (open_columns (board s)).
Qed.

Lemma set_cell_valid b r c v :
  valid_board b → v ∈ [EMPTY; "R"; "Y"] → valid_board (set_cell b r c v).
Proof.
  intros [Hwf Hcells] Hv. split; [by apply set_cell_wf|].
  unfold set_cell. destruct (b !! r) as [row|] eqn:Er; [|done].
  apply Forall_insert; [done|].
  rewrite list.Forall_forall in Hcells. pose proof (Hcells row) as Hrow.
  apply Forall_insert; [|done]. apply Hrow. by eapply list_elem_of_lookup_2.
Qed.

Lemma set_cell_gravity b r c v :
  wf_board b → (c < COLS)%nat → gravity b → lowest_blank b c r → v ≠ EMPTY →
  gravity (set_cell b r c v).
Proof.
  intros Hwf Hc Hg (Hr & He & Hlow) Hv r' c' Hr' Hne.
  destruct (decide ((S r', c') = (r, c))) as [[= <- <-]|Hd1].
  { by rewrite cell_at_set_cell_eq. }
  rewrite cell_at_set_cell_ne by done.
  destruct (decide ((r', c') = (r, c))) as [[= -> ->]|Hd2].
  - apply Hlow. lia.
  - rewrite cell_at_set_cell_ne in Hne by done. by apply Hg.
Qed.

Lemma NoDup_grid : NoDup grid.
Proof. decide_by_compute. Qed.

Lemma filter_length_one_less {A} `{EqDecision A} (P Q : A → Prop)
    `{!∀ x, Decision (P x), !∀ x, Decision (Q x)} (l : list A) (a : A) :
  NoDup l → a ∈ l → P a → ¬ Q a → (∀ x, x ≠ a → (Q x ↔ P x)) →
  S (length (filter Q l)) = length (filter P l).
Proof.
  intros Hnd Ha HPa HQa Hiff.
  assert (∀ l', a ∉ l' → length (filter Q l') = length (filter P l')) as Hsame.
  { induction l' as [|x l' IH]; intros Hnot; [done|]. rewrite !filter_cons.
    assert (x ≠ a) as Hx by (intros ->; apply Hnot; left).
    assert (a ∉ l') as Hnot' by (intros ?; apply Hnot; by right).
    destruct (decide (Q x)) as [HQ|HQ].
    - rewrite decide_True by (by apply Hiff). simpl. by rewrite IH.
    - rewrite decide_False by (by rewrite <- Hiff). by apply IH. }
  induction l as [|x l IH]; [by apply elem_of_nil in Ha|].
  inversion Hnd as [|? ? Hx Hnd']; subst. rewrite !filter_cons.
  destruct (decide (x = a)) as [->|Hne].
  - rewrite decide_False, decide_True by done. simpl. by rewrite Hsame.
  - apply elem_of_cons in Ha as [-> | Ha]; [done|]. specialize (IH Hnd' Ha).
    destruct (decide (Q x)) as [HQ|HQ].
    + rewrite decide_True by (by apply Hiff). simpl. lia.
    + rewrite decide_False by (by rewrite <- Hiff). done.
Qed.

Lemma blanks_set_cell_exact b r c v :
  wf_board b → (r < ROWS)%nat → (c < COLS)%nat →
  cell_at b r c = EMPTY → v ≠ EMPTY →
  S (blanks (set_cell b r c v)) = blanks b.
Proof.
  intros Hwf Hr Hc He Hv. unfold blanks.
  apply (filter_length_one_less _ _ grid (r, c)).
  - apply NoDup_grid.
  - by apply elem_of_grid.
  - done.
  - simpl. by rewrite cell_at_set_cell_eq.
  - intros [r' c'] Hne. simpl. by rewrite cell_at_set_cell_ne.
Qed.

Lemma reachable_inv s :
  reachable s →
  wf_state s ∧ gravity (board s) ∧ Z.of_nat (blanks (board s)) + current_turn s = 42.
Proof.
  induction 1 as [| s m _ (Hwf & Hg & Hcount) | s b _ IH | s _ IH | s _ IH].
  - split; [decide_by_compute|]. split; [|vm_compute; reflexivity].
    intros r c _ Hne. exfalso. apply Hne.
    unfold cell_at, new_game. simpl.
    destruct (empty_board !! r) as [row|] eqn:Er; [|done].
    apply lookup_replicate in Er as [-> _].
    destruct (replicate COLS EMPTY !! c) as [x|] eqn:Ec; [|done].
    by apply lookup_replicate in Ec as [-> _].
  - destruct Hwf as [Hvalid Hp]. pose proof Hvalid as [Hb _].
    destruct (decide (m ∈ open_columns (board s))) as [Hm|Hm].
    + destruct (make_move_open s m Hb Hm) as (r & Hr & ->). simpl.
      pose proof Hr as (Hrr & He & _).
      pose proof (proj1 (elem_of_open_columns _ _) Hm) as [Hrange _].
      assert (Z.to_nat m < COLS)%nat as Hc by (unfold COLS; lia).
      assert (player_at s (current_turn s) ≠ EMPTY) as Hv
        by (by destruct (player_at_token s (current_turn s) Hp) as [-> | ->]).
      split; [split; [|done]|split].
      * apply set_cell_valid; [done|].
        destruct (player_at_token s (current_turn s) Hp) as [-> | ->];
          rewrite !elem_of_cons; tauto.
      * by apply set_cell_gravity.
      * pose proof (blanks_set_cell_exact _ r _ _ Hb Hrr Hc He Hv). lia.
    + rewrite (make_move_refused s m Hm). done.
  - rewrite get_available_moves_board. destruct IH as ([Hv Hp] & Hg & Hc).
    unfold _get_available_moves. simpl. by destruct (open_columns _).
  - rewrite check_winstate_board. destruct IH as ([Hv Hp] & Hg & Hc).
    unfold _check_winstate.
    destruct (check_win_on_board _) as [t|]; [destruct (truthy t)|]; done.
  - done.
Qed.

Lemma gravity_column b c :
  gravity b → cell_at b 0 c ≠ EMPTY → ∀ r, (r < ROWS)%nat → cell_at b r c ≠ EMPTY.
Proof.
  intros Hg Htop r. induction r as [|r IH]; intros Hr; [done|].
  apply Hg; [done|]. apply IH. lia.
Qed.

Lemma blanks_zero b :
  blanks b = 0%nat ↔ ∀ r c, (r < ROWS)%nat → (c < COLS)%nat → cell_at b r c ≠ EMPTY.
Proof.
  unfold blanks. rewrite length_zero_iff_nil. split.
  - intros Hnil r c Hr Hc He.
    assert ((r, c) ∈ filter (λ rc, cell_at b rc.1 rc.2 = EMPTY) grid) as Hin
      by (apply list_elem_of_filter; split; [done | by apply elem_of_grid]).
    rewrite Hnil in Hin. by apply elem_of_nil in Hin.
  - intros Hall. destruct (filter _ grid) as [|[r c] l] eqn:E; [done|]. exfalso.
    assert ((r, c) ∈ filter (λ rc, cell_at b rc.1 rc.2 = EMPTY) grid) as Hin
      by (rewrite E; left).
    apply list_elem_of_filter in Hin as [He Hin]. apply elem_of_grid in Hin as [Hr Hc].
    by apply (Hall r c).
Qed.

Lemma reachable_full s :
  reachable s → (open_columns (board s) = [] ↔ current_turn s = 42).
Proof.
  intros Hreach. destruct (reachable_inv s Hreach) as (Hwf & Hg & Hcount). split.
  - intros Hfull. assert (blanks (board s) = 0%nat) as Hz; [|lia].
    apply blanks_zero. intros r c Hr Hc. apply gravity_column; [done| |done].
    intros Htop. assert (Z.of_nat c ∈ open_columns (board s)) as Hin.
    { apply elem_of_open_columns. rewrite Nat2Z.id. unfold COLS in Hc. split; [lia|done]. }
    rewrite Hfull in Hin. by apply elem_of_nil in Hin.
  - intros Ht. assert (blanks (board s) = 0%nat) as Hz by lia.
    destruct (open_columns (board s)) as [|m ms] eqn:E; [done|]. exfalso.
    assert (m ∈ open_columns (board s)) as Hm by (rewrite E; left).
    apply elem_of_open_columns in Hm as [Hr He].
    apply (proj1 (blanks_zero _) Hz 0%nat (Z.to_nat m)); [unfold ROWS; lia | unfold COLS; lia | done].
Qed.

Lemma played_reachable s : played s → reachable s.
Proof. induction 1; by constructor. Qed.

Lemma played_play l : played (play l).
Proof.
  assert (∀ l s, played s → played (foldl (λ s m, (make_move s m).2) s l)) as Hplay.
  { clear l. induction l as [|m l IH]; intros s Hs; [done|]. simpl. apply IH. by constructor. }
  apply Hplay. constructor.
Qed.

Lemma reachable_play l : reachable (play l).
Proof. apply played_reachable, played_play. Qed.

(** X3.  Every state the program can build from [Connect4()] with its
    methods has a valid 6x7 board without floating tokens and the
    constructor's players, and its turn index counts the tokens on the
    board; so no column is open exactly when 42 moves have been made. *)
Theorem reachable_states (s : Connect4) :
  reachable s →
  wf_state s ∧ gravity (board s) ∧
  Z.of_nat (blanks (board s)) + current_turn s = 42 ∧
  (0 ≤ current_turn s ≤ 42)%Z ∧
  (open_columns (board s) = [] ↔ current_turn s = 42).
Proof.
  intros Hreach. destruct (reachable_inv s Hreach) as (Hwf & Hg & Hcount).
  do 3 (split; [done|]). split; [|by apply reachable_full].
  pose proof (blanks_bound (board s)). unfold ROWS, COLS in *. lia.
Qed.

Lemma reachable_states_witness :
  reachable three_in_row_game ∧ wf_state three_in_row_game ∧
  gravity (board three_in_row_game) ∧ current_turn three_in_row_game = 6.
Proof.
  assert (reachable three_in_row_game) as Hr by apply reachable_play.
  split; [exact Hr|].
  destruct (reachable_states three_in_row_game Hr) as (Hwf & Hg & _ & _).
  split; [exact Hwf|]. split; [exact Hg | vm_compute; reflexivity].
Defined.

Lemma seq_sorted a n : StronglySorted lt (seq a n).
Proof.
  revert a. induction n as [|n IH]; intros a; simpl; constructor; [apply IH|].
  apply list.Forall_forall. intros x Hx. apply elem_of_seq in Hx. lia.
Qed.

Lemma filter_sorted {A} (R : A → A → Prop) (P : A → Prop) `{!∀ x, Decision (P x)} l :
  StronglySorted R l → StronglySorted R (filter P l).
Proof.
  induction 1 as [|x l Hs IH Hx]; [constructor|]. rewrite filter_cons.
  destruct (decide (P x)); [|done]. constructor; [done|].
  apply list.Forall_forall. intros y Hy. apply list_elem_of_filter in Hy as [_ Hy].
  rewrite list.Forall_forall in Hx. by apply Hx.
Qed.

Lemma fmap_sorted {A B} (R : A → A → Prop) (R' : B → B → Prop) (f : A → B) l :
  (∀ x y, R x y → R' (f x) (f y)) → StronglySorted R l → StronglySorted R' (f <$> l).
Proof.
  intros Hmono. induction 1 as [|x l Hs IH Hx]; [constructor|].
  rewrite fmap_cons. constructor; [done|].
  apply list.Forall_forall. intros y Hy. apply list_elem_of_fmap in Hy as (z & -> & Hz).
  rewrite list.Forall_forall in Hx. by apply Hmono, Hx.
Qed.

(** X4.  [_get_available_moves] lists, in strictly ascending order, exactly
    the columns 0..6 whose top cell is blank on the board it is given (the
    receiver's by default); it sets the receiver's [game_over] when the
    list is empty, also when the board asked about is not the receiver's,
    and changes nothing else. *)
Theorem get_available_moves_spec (s : Connect4) (board_arg : option Board) :
  let b := match board_arg with None => board s | Some b => b end in
  let moves := (_get_available_moves s board_arg).1 in
  let s' := (_get_available_moves s board_arg).2 in
  StronglySorted Z.lt moves ∧
  (∀ m, m ∈ moves ↔ 0 ≤ m < 7 ∧ cell_at b 0 (Z.to_nat m) = EMPTY) ∧
  (moves = [] → s' = set_game_over s true) ∧
  (moves ≠ [] → s' = s).
Proof.
  intros b moves s'. unfold moves, s', _get_available_moves. simpl. fold b.
  split; [|split; [|split]].
  - unfold open_columns. eapply fmap_sorted; [|apply filter_sorted, seq_sorted].
    intros x y Hxy. lia.
  - intros m. apply elem_of_open_columns.
  - by intros ->.
  - intros Hne. by destruct (open_columns b).
Qed.

Lemma get_available_moves_spec_witness :
  (_get_available_moves full_column_game None).1 = [1; 2; 3; 4; 5; 6] ∧
  (_get_available_moves full_column_game None).2 = full_column_game ∧
  (_get_available_moves full_column_game (Some (board drawn_game))).2
    = set_game_over full_column_game true.
Proof.
  destruct (get_available_moves_spec full_column_game None) as (_ & _ & _ & Hsame).
  destruct (get_available_moves_spec full_column_game (Some (board drawn_game)))
    as (_ & _ & Hset & _).
  split; [vm_compute; reflexivity|]. split.
  - apply Hsame. vm_compute. discriminate.
  - apply Hset. vm_compute. reflexivity.
Defined.

(** X5.  On a valid board [_check_winstate] returns a winner exactly when
    the board holds a winning line; the winner is a token with four in
    line and [game_over] is set; without a winning line it returns
    [False] and leaves the state as it was. *)
Theorem check_winstate_spec (s : Connect4) :
  valid_board (board s) →
  ((∃ w, (_check_winstate s).1 = Some w) ↔ winning_line (board s)) ∧
  (∀ w, (_check_winstate s).1 = Some w →
        w ≠ EMPTY ∧ four_in_line (board s) w ∧
        (_check_winstate s).2 = set_game_over s true) ∧
  ((_check_winstate s).1 = None → (_check_winstate s).2 = s).
Proof.
  intros Hvalid. unfold _check_winstate.
  destruct (check_win_on_board (board s)) as [t|] eqn:E.
  - rewrite (winner_truthy _ _ Hvalid E). simpl.
    pose proof (check_win_sound _ _ E) as [Hne Hl].
    split; [split; [intros _; by exists t | intros _; by exists t]|].
    split; [by intros w [= <-] | done].
  - simpl. apply check_win_None_iff in E. split; [split; [by intros [w ?] | done]|].
    split; done.
Qed.

Lemma check_winstate_spec_witness :
  valid_board (board red_row_game) ∧
  (_check_winstate red_row_game).1 = Some "R" ∧
  game_over (_check_winstate red_row_game).2 = true.
Proof.
  assert (valid_board (board red_row_game)) as Hv by decide_by_compute.
  assert ((_check_winstate red_row_game).1 = Some "R") as Hw by (vm_compute; reflexivity).
  split; [exact Hv|]. split; [exact Hw|].
  destruct (check_winstate_spec red_row_game Hv) as (_ & Hsome & _).
  destruct (Hsome "R" Hw) as (_ & _ & ->). reflexivity.
Defined.

(** ** Flags and caches of the states of a game *)

Lemma winning_line_set_cell b r c v :
  cell_at b r c = EMPTY → winning_line b → winning_line (set_cell b r c v).
Proof.
  intros He (t & Ht & r0 & c0 & dr & dc & Hd & Hline).
  exists t. split; [done|]. exists r0, c0, dr, dc. split; [done|].
  intros k Hk. destruct (Hline k Hk) as (Hr & Hc & Hcell).
  split; [done|]. split; [done|].
  rewrite cell_at_set_cell_ne; [done|]. intros [= E1 E2].
  rewrite E1, E2 in Hcell. congruence.
Qed.

Lemma open_columns_set_cell b r c v m :
  wf_board b → (r < ROWS)%nat → (c < COLS)%nat → v ≠ EMPTY →
  m ∈ open_columns (set_cell b r c v) → m ∈ open_columns b.
Proof.
  intros Hwf Hr Hc Hv. rewrite !elem_of_open_columns. intros [Hm Htop].
  split; [done|].
  destruct (decide ((0%nat, Z.to_nat m) = (r, c))) as [[= <- <-]|Hne].
  - by rewrite cell_at_set_cell_eq in Htop.
  - by rewrite cell_at_set_cell_ne in Htop.
Qed.

Lemma reachable_flags_inv s :
  reachable s →
  sum s = 0 ∧ (∀ m, m ∈ open_columns (board s) → m ∈ available_moves s).
Proof.
  intros Hreach. induction Hreach as [| s m Hs (Hsum & Hav) | s b Hs (Hsum & Hav)
                                      | s Hs (Hsum & Hav) | s Hs (Hsum & Hav)].
  - split; [done|]. intros m Hm. vm_compute in Hm |- *. done.
  - destruct (reachable_inv s Hs) as ([[Hwf _] Hpl] & _).
    destruct (decide (m ∈ open_columns (board s))) as [Hm | Hm].
    + destruct (make_move_open s m Hwf Hm) as (r & (Hr & He & _) & ->).
      cbn [snd sum board available_moves].
      pose proof (proj1 (elem_of_open_columns _ _) Hm) as [Hcol _].
      assert (player_at s (current_turn s) ≠ EMPTY) as Htok
        by (destruct (player_at_token s (current_turn s) Hpl) as [-> | ->]; done).
      split; [done|].
      intros m' Hm'. apply open_columns_set_cell in Hm'; [done..| unfold COLS; lia | done].
    + rewrite (make_move_refused s m Hm). cbn [snd sum board available_moves]. done.
  - assert (sum (_get_available_moves s b).2 = sum s ∧
            available_moves (_get_available_moves s b).2 = available_moves s) as [E1 E2].
    { clear. unfold _get_available_moves. cbn [snd]. by destruct (open_columns _). }
    by rewrite get_available_moves_board, E1, E2.
  - unfold _check_winstate.
    destruct (check_win_on_board (board s)) as [w|]; [destruct (truthy w)|];
      (split; [exact Hsum | exact Hav]).
  - done.
Qed.

Lemma played_game_over s :
  played s → game_over s = true → winning_line (board s) ∨ open_columns (board s) = [].
Proof.
  intros Hplayed. induction Hplayed as [| s m Hs Hgo | s b Hs Hgo Hb | s Hs Hgo | s Hs Hgo].
  - done.
  - destruct (reachable_inv s (played_reachable s Hs)) as ([[Hwf _] Hpl] & _).
    destruct (decide (m ∈ open_columns (board s))) as [Hm | Hm].
    + destruct (make_move_open s m Hwf Hm) as (r & (Hr & He & _) & ->).
      cbn [snd board game_over]. intros Hg.
      destruct (Hgo Hg) as [Hw | Hfull].
      * left. by apply winning_line_set_cell.
      * rewrite Hfull in Hm. by apply elem_of_nil in Hm.
    + rewrite (make_move_refused s m Hm). cbn [snd board game_over].
      destruct (open_columns (board s)); [by right | done].
  - unfold _get_available_moves. cbn [snd]. destruct b as [b'|].
    + destruct (open_columns b') eqn:Eo; [|done]. by destruct (Hb b' eq_refl).
    + destruct (open_columns (board s)) eqn:Eo.
      * intros _. by right.
      * intros Hg. by destruct (Hgo Hg) as [Hw | ?]; [left|].
  - unfold _check_winstate.
    destruct (check_win_on_board (board s)) as [w|] eqn:Ew; [destruct (truthy w)|];
      cbn [snd]; try done.
    cbn [set_game_over board game_over]. intros _. left.
    apply check_win_sound in Ew as [Hw Hline]. by exists w.
  - done.
Qed.

(** X6.  In every state built from [Connect4()] by its methods,
    whatever their arguments: [copy] gives an equal state, and the cached
    [available_moves] holds every open column (it may also hold columns
    filled since).  When every board passed to [_get_available_moves]
    had an open column, as in the calls of the program, [game_over] is
    set only when the board has a winning line or no open column.  A
    call of [_get_available_moves] with a board without open column sets
    [game_over] whatever the state's own board is. *)
Theorem reachable_flags (s : Connect4) :
  reachable s →
  copy s = s ∧
  (∀ m, m ∈ open_columns (board s) → m ∈ available_moves s) ∧
  (played s → game_over s = true →
   winning_line (board s) ∨ open_columns (board s) = []) ∧
  (∀ b, open_columns b = [] →
        reachable (_get_available_moves s (Some b)).2 ∧
        game_over (_get_available_moves s (Some b)).2 = true ∧
        board (_get_available_moves s (Some b)).2 = board s).
Proof.
  intros Hreach. destruct (reachable_flags_inv s Hreach) as (Hsum & Hav).
  split; [destruct s; unfold copy; simpl in *; by rewrite Hsum|].
  split; [done|]. split; [by apply played_game_over|].
  intros b Hb. split; [by constructor|].
  unfold _get_available_moves. by rewrite Hb.
Qed.

Lemma reachable_flags_witness :
  reachable full_column_game ∧ copy full_column_game = full_column_game ∧
  (∀ m, m ∈ open_columns (board full_column_game) → m ∈ available_moves full_column_game) ∧
  (game_over full_column_game = true →
   winning_line (board full_column_game) ∨ open_columns (board full_column_game) = []) ∧
  game_over (_get_available_moves full_column_game (Some (board drawn_game))).2 = true ∧
  open_columns (board (_get_available_moves full_column_game (Some (board drawn_game))).2)
    = [1; 2; 3; 4; 5; 6].
Proof.
  assert (reachable full_column_game) as Hr by apply reachable_play.
  split; [exact Hr|].
  destruct (reachable_flags full_column_game Hr) as (Hc & Hav & Hgo & Hforeign).
  split; [exact Hc|]. split; [exact Hav|]. split; [exact (Hgo (played_play _))|].
  destruct (Hforeign (board drawn_game)) as (_ & Hflag & Hboard);
    [vm_compute; reflexivity|].
  split; [exact Hflag|]. rewrite Hboard. vm_compute. reflexivity.
Defined.

Lemma make_move_board_is s m :
  wf_board (board s) → m ∈ open_columns (board s) →
  board (make_move s m).2 = simulate_move_on (board s) m (player_at s (current_turn s)) ∧
  current_turn (make_move s m).2 = current_turn s + 1 ∧
  game_over (make_move s m).2 = game_over s ∧
  player_list (make_move s m).2 = player_list s.
Proof.
  intros Hwf Hm. destruct (make_move_open s m Hwf Hm) as (r & Hlow & ->).
  cbn [snd board current_turn game_over player_list].
  by rewrite (simulate_move_on_lowest _ _ _ r Hlow).
Qed.

Lemma make_move_winner s m :
  let p := player_at s (current_turn s) in
  wf_state s → ¬ winning_line (board s) → m ∈ open_columns (board s) →
  (immediate_win (board s) p m →
   _check_winstate (make_move s m).2 = (Some p, set_game_over (make_move s m).2 true)) ∧
  (¬ immediate_win (board s) p m →
   _check_winstate (make_move s m).2 = (None, (make_move s m).2) ∧
   ¬ winning_line (board (make_move s m).2)).
Proof.
  intros p [[Hwf _] Hpl] Hno Hm. subst p.
  destruct (make_move_board_is s m Hwf Hm) as (Hb & _).
  unfold _check_winstate. rewrite Hb. split.
  - intros Hwin. apply check_win_immediate in Hwin; [|done..]. rewrite Hwin.
    by destruct (player_at_token s (current_turn s) Hpl) as [E | E]; rewrite E.
  - intros Hnowin.
    assert (¬ winning_line (simulate_move_on (board s) m (player_at s (current_turn s))))
      as Hno'
      by (by apply no_line_after_move).
    split; [|done]. by rewrite (proj2 (check_win_None_iff _) Hno').
Qed.

(** X7.  A legal move on a board without winning line, followed by
    [_check_winstate] as in the game loop: the winner reported is the
    mover, exactly when the move gave the mover four in line, and never
    the opponent; the flag is then set, and otherwise the state is left
    as the move made it, without a winning line. *)
Theorem move_then_check (s : Connect4) (m : Z) :
  let p := player_at s (current_turn s) in
  let q := player_at s (current_turn s + 1) in
  wf_state s → ¬ winning_line (board s) → m ∈ open_columns (board s) →
  (immediate_win (board s) p m →
   _check_winstate (make_move s m).2 = (Some p, set_game_over (make_move s m).2 true)) ∧
  (¬ immediate_win (board s) p m →
   _check_winstate (make_move s m).2 = (None, (make_move s m).2) ∧
   ¬ winning_line (board (make_move s m).2)) ∧
  (_check_winstate (make_move s m).2).1 ≠ Some q.
Proof.
  intros p q Hwf Hno Hm. subst p q.
  destruct (make_move_winner s m Hwf Hno Hm) as [Hyes Hnot].
  split; [done|]. split; [done|].
  assert (player_at s (current_turn s + 1) ≠ player_at s (current_turn s)) as Hqp
    by (apply player_at_other; by destruct Hwf).
  destruct Hwf as [[Hwf _] _].
  destruct (make_move_board_is s m Hwf Hm) as (Hb & _).
  unfold _check_winstate. rewrite Hb.
  destruct (check_win_on_board _) as [w|] eqn:E; [|done].
  destruct (truthy w); [|done]. cbn [fst].
  apply (check_win_after_move _ _ _ _ Hwf Hno) in E. congruence.
Qed.

Lemma move_then_check_witness :
  wf_state three_in_row_game ∧ ¬ winning_line (board three_in_row_game) ∧
  (3 ∈ open_columns (board three_in_row_game)) ∧
  (_check_winstate (make_move three_in_row_game 3).2).1 = Some "R".
Proof.
  assert (wf_state three_in_row_game) as Hwf by decide_by_compute.
  assert (¬ winning_line (board three_in_row_game)) as Hno
    by (apply check_win_None_iff; vm_compute; reflexivity).
  assert (3 ∈ open_columns (board three_in_row_game)) as Hm by decide_by_compute.
  split; [exact Hwf|]. split; [exact Hno|]. split; [exact Hm|].
  destruct (move_then_check three_in_row_game 3 Hwf Hno Hm) as [Hwin _].
  rewrite Hwin; [reflexivity|].
  destruct Hwf as [[Hb _] _]. apply (check_win_immediate _ _ _ Hb Hno).
  vm_compute. reflexivity.
Defined.

(** * Further properties of the search *)

(** X8.  A node built from a state of the program has no untried move
    exactly when its snapshot is terminal (a winning line, or no open
    column), and otherwise all the open columns in ascending order; it
    starts without children, visits or wins; its [player_just_moved] is
    the opponent of the side to move in the snapshot; and the snapshot's
    [game_over] is set when it is terminal. *)
Theorem node_init_spec (st : Connect4) (par : option nat) (mv : option Z) :
  wf_state st →
  let n := MCTSNode_init st par mv in
  (untried_moves n = [] ↔ winning_line (board st) ∨ open_columns (board st) = []) ∧
  (¬ winning_line (board st) → untried_moves n = open_columns (board st)) ∧
  children n = [] ∧ visits n = 0%nat ∧ wins n = 0%Q ∧ parent n = par ∧ move n = mv ∧
  player_just_moved n = player_at st (current_turn st + 1) ∧
  player_just_moved n ≠ player_at st (current_turn st) ∧
  board (state n) = board st ∧ current_turn (state n) = current_turn st ∧
  (winning_line (board st) ∨ open_columns (board st) = [] → game_over (state n) = true).
Proof.
  intros [Hvalid Hp] n.
  assert (∀ s', player_list s' = player_list st → current_turn s' = current_turn st →
            player_at s' (current_turn s' - 1) = player_at st (current_turn st + 1) ∧
            player_at s' (current_turn s' - 1) ≠ player_at st (current_turn st)) as Hpl.
  { intros s' E1 E2. rewrite (player_at_ext s' st) by done. rewrite E2, player_at_shift.
    split; [done | by apply player_at_other]. }
  unfold n, MCTSNode_init, _check_winstate.
  destruct (check_win_on_board (board st)) as [t|] eqn:E.
  - rewrite (winner_truthy _ _ Hvalid E). cbn zeta iota beta.
    assert (winning_line (board st)) as Hw by (exists t; by apply check_win_sound).
    destruct (Hpl (set_game_over st true) eq_refl eq_refl) as [Hp1 Hp2].
    cbn [untried_moves children visits wins parent move player_just_moved state].
    split; [split; [by left | done]|]. split; [done|].
    do 5 (split; [done|]). done.
  - apply check_win_None_iff in E. unfold _get_available_moves. cbn zeta iota beta.
    destruct (open_columns (board st)) as [|o os] eqn:Eo;
      cbn [untried_moves children visits wins parent move player_just_moved state].
    + destruct (Hpl (set_game_over st true) eq_refl eq_refl) as [Hp1 Hp2].
      split; [split; [by right | done]|]. split; [done|].
      do 5 (split; [done|]). done.
    + destruct (Hpl st eq_refl eq_refl) as [Hp1 Hp2].
      split; [split; [done | by intros [? | ?]]|]. split; [done|].
      do 5 (split; [done|]). do 4 (split; [done|]). by intros [? | ?].
Qed.

Lemma node_init_spec_witness :
  wf_state red_row_game ∧
  untried_moves (MCTSNode_init red_row_game None None) = [] ∧
  player_just_moved (MCTSNode_init red_row_game None None) = "R".
Proof.
  assert (wf_state red_row_game) as Hwf by decide_by_compute.
  split; [exact Hwf|].
  destruct (node_init_spec red_row_game None None Hwf)
    as (Hu & _ & _ & _ & _ & _ & _ & Hp & _).
  split.
  - apply Hu. left. exists "R". apply check_win_sound. vm_compute. reflexivity.
  - rewrite Hp. vm_compute. reflexivity.
Defined.

(** ** Ties in a sort *)

Section Ties.
Context {K A : Type} (lt : K → K → bool).
Hypothesis lt_asym : ∀ x y, lt x y = true → lt y x = false.
Hypothesis lt_negtrans : ∀ x y z, lt x z = true → lt x y = true ∨ lt y z = true.

Lemma last_item_insert_by (x : K * A) (s : list (K * A)) :
  StronglySorted (may_precede lt) s →
  last_item (insert_by lt x s) =
  match last_item s with
  | None => Some x
  | Some m => if lt m.1 x.1 then Some x else Some m
  end.
Proof.
  induction 1 as [|y s Hs IH Hy]; [done|]. simpl insert_by.
  destruct (lt y.1 x.1) eqn:Eyx.
  - destruct s as [|z s'].
    + simpl. by rewrite Eyx.
    + change (last_item (y :: insert_by lt x (z :: s')))
        with (match insert_by lt x (z :: s') with
              | [] => Some y | _ :: _ => last_item (insert_by lt x (z :: s')) end).
      assert (insert_by lt x (z :: s') ≠ []) as Hne
        by (simpl; destruct (lt z.1 x.1); done).
      destruct (insert_by lt x (z :: s')) as [|w ws] eqn:Ei; [done|].
      rewrite IH. done.
  - change (last_item (x :: y :: s)) with (last_item (y :: s)).
    destruct (last_item_nonempty (y :: s) ltac:(done)) as [m Hm]. rewrite Hm.
    destruct (lt m.1 x.1) eqn:Emx; [|done]. exfalso.
    apply last_item_in in Hm. apply elem_of_cons in Hm as [-> | Hm]; [congruence|].
    rewrite list.Forall_forall in Hy. specialize (Hy m Hm). unfold may_precede in Hy.
    destruct (lt_negtrans _ y.1 _ Emx); congruence.
Qed.

(** [sorted(l)[-1]] is the last of the elements with a greatest key. *)
Lemma last_sorted_ties (l1 l2 : list (K * A)) (x : K * A) :
  (∀ y, y ∈ l1 → lt x.1 y.1 = false) →
  (∀ y, y ∈ l2 → lt y.1 x.1 = true) →
  last_item (sorted lt (l1 ++ x :: l2)) = Some x.
Proof.
  intros H1 H2.
  assert (last_item (sorted lt (x :: l2)) = Some x) as Hx.
  { simpl. rewrite last_item_insert_by by (by apply sorted_sorted).
    destruct (last_item (sorted lt l2)) as [m|] eqn:Em; [|done].
    apply last_item_in, elem_of_sorted in Em. by rewrite (H2 m Em). }
  induction l1 as [|z l1 IH]; [done|]. simpl.
  rewrite last_item_insert_by by (by apply sorted_sorted).
  rewrite IH by (intros y Hy; apply H1; by right).
  by rewrite (H1 z) by left.
Qed.
End Ties.

Section TiesOn.
Context {K A : Type} (lt : K → K → bool) (P : K → Prop).
Hypothesis lt_ordered : ordered_on P lt.

Lemma last_item_insert_by_on (x : K * A) (s : list (K * A)) :
  P x.1 → (∀ y, y ∈ s → P y.1) →
  StronglySorted (may_precede lt) s →
  last_item (insert_by lt x s) =
  match last_item s with
  | None => Some x
  | Some m => if lt m.1 x.1 then Some x else Some m
  end.
Proof.
  intros Hx Hs Hsorted. revert Hs.
  induction Hsorted as [|y s Hsorted IH Hy]; intros Hs; [done|]. simpl insert_by.
  assert (∀ z, z ∈ s → P z.1) as Hs' by (intros z Hz; apply Hs; by right).
  destruct (lt y.1 x.1) eqn:Eyx.
  - destruct s as [|z s'].
    + simpl. by rewrite Eyx.
    + change (last_item (y :: insert_by lt x (z :: s')))
        with (match insert_by lt x (z :: s') with
              | [] => Some y | _ :: _ => last_item (insert_by lt x (z :: s')) end).
      assert (insert_by lt x (z :: s') ≠ []) as Hne
        by (simpl; destruct (lt z.1 x.1); done).
      destruct (insert_by lt x (z :: s')) as [|w ws] eqn:Ei; [done|].
      by rewrite IH.
  - change (last_item (x :: y :: s)) with (last_item (y :: s)).
    destruct (last_item_nonempty (y :: s) ltac:(done)) as [m Hm]. rewrite Hm.
    destruct (lt m.1 x.1) eqn:Emx; [|done]. exfalso.
    apply last_item_in in Hm. apply elem_of_cons in Hm as [-> | Hm]; [congruence|].
    rewrite list.Forall_forall in Hy. pose proof (Hy m Hm) as Hym.
    unfold may_precede in Hym.
    destruct (proj2 lt_ordered m.1 y.1 x.1 (Hs' m Hm) (Hs y ltac:(left)) Hx Emx);
      congruence.
Qed.

(** [sorted(l)[-1]], for keys ordered among themselves, is the last of
    the elements with a greatest key. *)
Lemma last_sorted_ties_on (l1 l2 : list (K * A)) (x : K * A) :
  (∀ y, y ∈ l1 ++ x :: l2 → P y.1) →
  (∀ y, y ∈ l1 → lt x.1 y.1 = false) →
  (∀ y, y ∈ l2 → lt y.1 x.1 = true) →
  last_item (sorted lt (l1 ++ x :: l2)) = Some x.
Proof.
  intros HP H1 H2.
  assert (∀ l : list (K * A), (∀ y, y ∈ l → P y.1) →
                              ∀ y, y ∈ sorted lt l → P y.1) as Hin.
  { intros l Hl y Hy. apply elem_of_sorted in Hy. by apply Hl. }
  assert (P x.1) as Hx by (apply HP, elem_of_app; right; left).
  assert (∀ y, y ∈ l2 → P y.1) as HP2
    by (intros y Hy; apply HP, elem_of_app; right; by right).
  assert (last_item (sorted lt (x :: l2)) = Some x) as Hlast.
  { simpl. rewrite last_item_insert_by_on;
      [|done | by apply Hin | by apply (sorted_sorted_on lt P)].
    destruct (last_item (sorted lt l2)) as [m|] eqn:Em; [|done].
    apply last_item_in, elem_of_sorted in Em. by rewrite (H2 m Em). }
  induction l1 as [|z l1 IH]; [done|]. simpl.
  assert (∀ y, y ∈ l1 ++ x :: l2 → P y.1) as HP1
    by (intros y Hy; apply HP; by right).
  rewrite last_item_insert_by_on;
    [|apply HP; left | by apply Hin | by apply (sorted_sorted_on lt P)].
  rewrite IH by (done || (intros y Hy; apply H1; by right)).
  by rewrite (H1 z) by left.
Qed.
End TiesOn.

(** ** Which child a sort selects, and when it fails *)

Lemma keyed_map {F : Type} `{ScoreArith F} (C : F) (t : tree) n cs :
  (∀ c, c ∈ cs → ∃ cn, t !! c = Some cn ∧ (0 < visits n ∨ visits cn = 0)%nat) →
  keyed C t n cs = Ok ((λ c, (score_at C t n c, c)) <$> cs).
Proof.
  induction cs as [|c cs IH]; intros Hcs; [done|]. simpl.
  destruct (Hcs c ltac:(left)) as (cn & Hc & Hv).
  rewrite (node_at_Some _ _ _ Hc), bind_Ok, (uct_key_score _ _ _ Hv), bind_Ok.
  rewrite IH by (intros c' Hc'; apply Hcs; by right). rewrite bind_Ok.
  unfold score_at at 2. by rewrite Hc.
Qed.

Lemma uct_select_child_ties {F : Type} `{ScoreArith F}
    (t : tree) (self : nat) (C : F) (n : MCTSNode) (cs1 cs2 : list nat) (c : nat)
    (P : key F → Prop) :
  ordered_on P key_lt →
  t !! self = Some n → children n = cs1 ++ c :: cs2 →
  (∀ c', c' ∈ children n → is_Some (t !! c') ∧ P (score_at C t n c')) →
  ((0 < visits n)%nat ∨ ∀ c' cn, c' ∈ children n → t !! c' = Some cn → visits cn = 0%nat) →
  (∀ c1, c1 ∈ cs1 → key_lt (score_at C t n c) (score_at C t n c1) = false) →
  (∀ c2, c2 ∈ cs2 → key_lt (score_at C t n c2) (score_at C t n c) = true) →
  uct_select_child t self C = Ok c.
Proof.
  intros Hord Hself Hch Hin Hvis H1 H2.
  unfold uct_select_child. rewrite (node_at_Some _ _ _ Hself), bind_Ok.
  rewrite keyed_map.
  - rewrite bind_Ok, Hch, fmap_app, fmap_cons.
    rewrite (last_sorted_ties_on key_lt P Hord); [done| | |].
    + intros y Hy.
      assert (∃ c', y = (score_at C t n c', c') ∧ c' ∈ children n) as (c' & -> & Hc').
      { rewrite Hch. apply elem_of_app in Hy as [Hy | Hy].
        - apply list_elem_of_fmap in Hy as (c' & -> & Hc'). exists c'.
          split; [done|]. apply elem_of_app. by left.
        - apply elem_of_cons in Hy as [-> | Hy].
          + exists c. split; [done|]. apply elem_of_app. right. left.
          + apply list_elem_of_fmap in Hy as (c' & -> & Hc'). exists c'.
            split; [done|]. apply elem_of_app. right. by right. }
      by apply Hin.
    + intros y Hy. apply list_elem_of_fmap in Hy as (c1 & -> & Hc1). by apply H1.
    + intros y Hy. apply list_elem_of_fmap in Hy as (c2 & -> & Hc2). by apply H2.
  - intros c' Hc'. destruct (Hin c' Hc') as [[cn Hcn] _]. exists cn. split; [done|].
    destruct Hvis as [Hv | Hv]; [by left | right; by eapply Hv].
Qed.

Lemma score_at_child {F : Type} `{ScoreArith F} (C : F) (t : tree) (n : MCTSNode) c :
  c ∈ children n → is_Some (t !! c) → child_score C t n (score_at C t n c).
Proof.
  intros Hc [cn Hcn]. exists c, cn. unfold score_at. by rewrite Hcn.
Qed.

(** X9.  Ties in [uct_select_child] go to the later child: when no
    exception arises and [<] is a strict weak order among the scores of
    the children (as it is when none is NaN), the child returned is the last one, in
    the order of [children], that no other child's score exceeds; and
    when every child is unvisited (all scored [float('inf')]) the last
    child is returned. *)
Theorem uct_select_child_last_best {F : Type} `{ScoreArith F}
    (t : tree) (self : nat) (C : F) (n : MCTSNode) :
  t !! self = Some n →
  (∀ c', c' ∈ children n → is_Some (t !! c')) →
  (∀ cs1 cs2 c,
     children n = cs1 ++ c :: cs2 →
     ((0 < visits n)%nat ∨
      ∀ c' cn, c' ∈ children n → t !! c' = Some cn → visits cn = 0%nat) →
     ordered_on (child_score C t n) key_lt →
     (∀ c1, c1 ∈ cs1 → key_lt (score_at C t n c) (score_at C t n c1) = false) →
     (∀ c2, c2 ∈ cs2 → key_lt (score_at C t n c2) (score_at C t n c) = true) →
     uct_select_child t self C = Ok c) ∧
  (∀ cs c,
     children n = cs ++ [c] →
     (∀ c' cn, c' ∈ children n → t !! c' = Some cn → visits cn = 0%nat) →
     uct_select_child t self C = Ok c).
Proof.
  intros Hself Hin. split.
  - intros cs1 cs2 c Hch Hvis Hord H1 H2.
    apply (uct_select_child_ties t self C n cs1 cs2 c (child_score C t n));
      try done.
    intros c' Hc'. split; [by apply Hin|]. apply score_at_child; [done | by apply Hin].
  - intros cs c Hch Hun.
    assert (∀ c', c' ∈ children n → score_at C t n c' = Inf) as Hinf.
    { intros c' Hc'. unfold score_at. destruct (Hin c' Hc') as [cn Hcn]. rewrite Hcn.
      apply uct_score_Inf. by eapply Hun. }
    apply (uct_select_child_ties t self C n cs [] c (λ k, k = Inf)); try done.
    + split; [by intros x y -> -> | by intros x y z -> -> ->].
    + intros c' Hc'. split; [by apply Hin | by apply Hinf].
    + by right.
    + intros c1 Hc1. rewrite !Hinf; [done | | ]; rewrite Hch, elem_of_app.
      * by left.
      * right. left.
    + by intros c2 ?%elem_of_nil.
Qed.

(** Among children visited equally often under the same parent, the
    comparison of scores is that of the wins. *)
Lemma tied_children_scores :
  key_lt (H := real_arith)
    (score_at (H := real_arith) (Rdefinitions.IZR 1) tied_children_tree
       (mkNode new_game None None [1; 2; 3]%nat 1%Q 3%nat [] "Y") 2%nat)
    (score_at (H := real_arith) (Rdefinitions.IZR 1) tied_children_tree
       (mkNode new_game None None [1; 2; 3]%nat 1%Q 3%nat [] "Y") 1%nat) = false ∧
  key_lt (H := real_arith)
    (score_at (H := real_arith) (Rdefinitions.IZR 1) tied_children_tree
       (mkNode new_game None None [1; 2; 3]%nat 1%Q 3%nat [] "Y") 3%nat)
    (score_at (H := real_arith) (Rdefinitions.IZR 1) tied_children_tree
       (mkNode new_game None None [1; 2; 3]%nat 1%Q 3%nat [] "Y") 2%nat) = true.
Proof.
  unfold score_at, tied_children_tree, uct_score.
  cbn [lookup list_lookup visits wins Nat.ltb Nat.leb key_lt Flt Fadd Fmul Fdiv Fsqrt
       Flog F_of_nat F_of_Q real_arith].
  split.
  - destruct (RIneq.Rlt_dec _ _) as [Hlt|]; [|done].
    exfalso. exact (RIneq.Rlt_irrefl _ Hlt).
  - destruct (RIneq.Rlt_dec _ _) as [|Hge]; [done|].
    exfalso. apply Hge. apply RIneq.Rplus_lt_compat_r.
    apply RIneq.Rmult_lt_compat_r.
    + apply RIneq.Rinv_0_lt_compat. apply RIneq.lt_0_INR. lia.
    + apply Qreals.Qlt_Rlt. reflexivity.
Qed.

Lemma uct_select_child_last_best_witness :
  uct_select_child (H := real_arith) tied_children_tree 0%nat (Rdefinitions.IZR 1)
    = Ok 2%nat ∧
  uct_select_child (H := real_arith) fresh_children_tree 0%nat (Rdefinitions.IZR 1)
    = Ok 2%nat.
Proof.
  split.
  - assert (∀ c, c ∈ [1; 2; 3]%nat → is_Some (tied_children_tree !! c)) as Hin.
    { intros c Hc. rewrite !elem_of_cons, elem_of_nil in Hc.
      destruct Hc as [-> | [-> | [-> | []]]]; by eexists. }
    destruct (uct_select_child_last_best (H := real_arith) tied_children_tree 0%nat
                (Rdefinitions.IZR 1)
                (mkNode new_game None None [1; 2; 3]%nat 1%Q 3%nat [] "Y")
                eq_refl Hin) as [Hties _].
    apply (Hties [1%nat] [3%nat] 2%nat eq_refl).
    + left. simpl. lia.
    + apply real_keys_ordered.
    + intros c1 Hc1. apply list_elem_of_singleton in Hc1 as ->.
      exact (proj1 tied_children_scores).
    + intros c2 Hc2. apply list_elem_of_singleton in Hc2 as ->.
      exact (proj2 tied_children_scores).
  - assert (∀ c, c ∈ [1; 2]%nat → is_Some (fresh_children_tree !! c)) as Hin.
    { intros c Hc. rewrite !elem_of_cons, elem_of_nil in Hc.
      destruct Hc as [-> | [-> | []]]; by eexists. }
    destruct (uct_select_child_last_best (H := real_arith) fresh_children_tree 0%nat
                (Rdefinitions.IZR 1)
                (mkNode new_game None None [1; 2]%nat 0%Q 0%nat [] "Y")
                eq_refl Hin) as [_ Hlast].
    apply (Hlast [1%nat] 2%nat eq_refl).
    intros c cn Hc Hcn. simpl in Hc. rewrite !elem_of_cons, elem_of_nil in Hc.
    destruct Hc as [-> | [-> | []]];
      unfold fresh_children_tree in Hcn; cbn [lookup list_lookup] in Hcn;
      by simplify_eq.
Defined.

Lemma keyed_raises {F : Type} `{ScoreArith F} (C : F) (t : tree) n cs :
  visits n = 0%nat → (∀ c, c ∈ cs → is_Some (t !! c)) →
  (∃ c cn, c ∈ cs ∧ t !! c = Some cn ∧ (0 < visits cn)%nat) →
  keyed C t n cs = Raise ValueError.
Proof.
  intros Hn. induction cs as [|c cs IH]; intros Hin (c0 & cn0 & Hc0 & Hcn0 & Hv0).
  { by apply elem_of_nil in Hc0. }
  simpl. destruct (Hin c ltac:(left)) as [cn Hcn].
  rewrite (node_at_Some _ _ _ Hcn), bind_Ok. unfold uct_key. rewrite Hn.
  destruct (0 <? visits cn)%nat eqn:Ev; [done|]. rewrite bind_Ok.
  rewrite IH; [done | intros c' Hc'; apply Hin; by right |].
  apply elem_of_cons in Hc0 as [-> | Hc0]; [|by eauto].
  simplify_eq. apply Nat.ltb_ge in Ev. lia.
Qed.

(** X10.  [uct_select_child] fails on two kinds of node: without children
    it raises [IndexError] (the last element of an empty list); never
    visited but with a visited child it raises [ValueError]
    ([math.log(0)]). *)
Theorem uct_select_child_raises {F : Type} `{ScoreArith F}
    (t : tree) (self : nat) (C : F) (n : MCTSNode) :
  t !! self = Some n →
  (children n = [] → uct_select_child t self C = Raise IndexError) ∧
  (visits n = 0%nat → (∀ c, c ∈ children n → is_Some (t !! c)) →
   (∃ c cn, c ∈ children n ∧ t !! c = Some cn ∧ (0 < visits cn)%nat) →
   uct_select_child t self C = Raise ValueError).
Proof.
  intros Hself. unfold uct_select_child. rewrite (node_at_Some _ _ _ Hself), bind_Ok.
  split.
  - by intros ->.
  - intros Hn Hin Hex. by rewrite (keyed_raises C t n _ Hn Hin Hex).
Qed.

Lemma uct_select_child_raises_witness :
  uct_select_child (H := real_arith) uct_example_tree 1%nat (Rdefinitions.IZR 1)
    = Raise IndexError ∧
  uct_select_child (H := real_arith) unvisited_root_tree 0%nat (Rdefinitions.IZR 1)
    = Raise ValueError.
Proof.
  split.
  - by apply (proj1 (uct_select_child_raises (H := real_arith) uct_example_tree 1%nat
                       (Rdefinitions.IZR 1) _ eq_refl)).
  - apply (proj2 (uct_select_child_raises (H := real_arith) unvisited_root_tree 0%nat
                    (Rdefinitions.IZR 1) _ eq_refl)).
    + reflexivity.
    + intros c Hc. simpl in Hc. rewrite !elem_of_cons, elem_of_nil in Hc.
      destruct Hc as [-> | [-> | []]]; by eexists.
    + exists 1%nat. eexists. split; [left|]. split; [reflexivity | simpl; lia].
Defined.

Lemma keyed_visits_map (t : tree) cs :
  (∀ c, c ∈ cs → is_Some (t !! c)) →
  keyed_visits t cs = Ok ((λ c, (visits_at t c, c)) <$> cs).
Proof.
  induction cs as [|c cs IH]; intros Hcs; [done|]. simpl.
  destruct (Hcs c ltac:(left)) as (cn & Hc).
  rewrite (node_at_Some _ _ _ Hc), bind_Ok.
  rewrite IH by (intros c' Hc'; apply Hcs; by right). rewrite bind_Ok.
  unfold visits_at at 2. by rewrite Hc.
Qed.

(** X11.  The final extraction returns the move of the last child of the
    root, in the order of [children], that no other child has more
    visits than; with no child at all it raises [IndexError]. *)
Theorem most_visited_move_last_best (t : tree) (root : MCTSNode) :
  t !! 0%nat = Some root →
  (children root = [] → most_visited_move t = Raise IndexError) ∧
  (∀ cs1 cs2 c cn,
     children root = cs1 ++ c :: cs2 →
     (∀ c', c' ∈ children root → is_Some (t !! c')) →
     t !! c = Some cn →
     (∀ c1, c1 ∈ cs1 → (visits_at t c1 ≤ visits cn)%nat) →
     (∀ c2, c2 ∈ cs2 → (visits_at t c2 < visits cn)%nat) →
     most_visited_move t = Ok (move cn)).
Proof.
  intros Hr. unfold most_visited_move. rewrite (node_at_Some _ _ _ Hr), bind_Ok.
  split; [by intros ->|].
  intros cs1 cs2 c cn Hch Hin Hc H1 H2.
  assert (Hvc : visits_at t c = visits cn) by (unfold visits_at; by rewrite Hc).
  rewrite keyed_visits_map by done. rewrite bind_Ok, Hch, fmap_app, fmap_cons.
  rewrite (last_sorted_ties Nat.ltb).
  - by rewrite (node_at_Some _ _ _ Hc), bind_Ok.
  - intros x y Hxy. apply Nat.ltb_lt in Hxy. apply Nat.ltb_ge. lia.
  - intros x y z Hxz. apply Nat.ltb_lt in Hxz. rewrite !Nat.ltb_lt. lia.
  - intros y Hy. apply list_elem_of_fmap in Hy as (c1 & -> & Hc1). cbn [fst].
    apply Nat.ltb_ge. rewrite Hvc. by apply H1.
  - intros y Hy. apply list_elem_of_fmap in Hy as (c2 & -> & Hc2). cbn [fst].
    apply Nat.ltb_lt. rewrite Hvc. by apply H2.
Qed.

Lemma most_visited_move_last_best_witness :
  most_visited_move uct_example_tree = Ok (Some 0).
Proof.
  apply (proj2 (most_visited_move_last_best uct_example_tree _ eq_refl) [] [2%nat] 1%nat
           (mkNode (play [0]) (Some 0%nat) (Some 0) [] 1%Q 1%nat [1; 2; 3; 4; 5; 6] "R")
           eq_refl).
  - intros c Hc. simpl in Hc. rewrite !elem_of_cons, elem_of_nil in Hc.
    destruct Hc as [-> | [-> | []]]; by eexists.
  - reflexivity.
  - intros c1 Hc1. by apply elem_of_nil in Hc1.
  - intros c2 Hc2. apply list_elem_of_singleton in Hc2 as ->. vm_compute. lia.
Defined.

(** ** Backpropagation, node by node *)

Lemma backpropagate_effect fuel (t : tree) w i :
  (∀ j n p, t !! j = Some n → parent n = Some p → (p < j)%nat) →
  (i < length t)%nat → (i < fuel)%nat →
  ∃ t', backpropagate fuel t w (Some i) = Ok t' ∧ length t' = length t ∧
        ∀ k n, t !! k = Some n →
          (anc t i k → t' !! k = Some (update n (reward w n))) ∧
          (¬ anc t i k → t' !! k = Some n).
Proof.
  revert t i. induction fuel as [|fuel IH]; intros t i Hdec Hi Hfuel; [lia|].
  destruct (lookup_lt_is_Some_2 _ _ Hi) as [n Hn].
  rewrite backpropagate_step, (node_at_Some _ _ _ Hn), bind_Ok.
  change (match w with Some w0 => if player_just_moved n =? w0 then 1%Q else 0%Q
                  | None => (1 # 2)%Q end) with (reward w n).
  set (r := reward w n).
  pose proof (same_links_update t i n r Hn) as Hl1.
  destruct (parent n) as [p|] eqn:Hp.
  - pose proof (Hdec i n p Hn Hp) as Hlt.
    destruct (IH (<[i := update n r]> t) p) as (t' & Hb & Hlen & Hv).
    { intros j nj q Hj Hq. destruct (decide (j = i)) as [->|Hne].
      - rewrite list_lookup_insert_eq in Hj by done. simplify_eq. simpl in Hq.
        eapply Hdec; [exact Hn | congruence].
      - rewrite list_lookup_insert_ne in Hj by done. by eapply Hdec. }
    { rewrite length_insert. lia. }
    { lia. }
    exists t'. split; [done|]. split; [by rewrite Hlen, length_insert|].
    intros k nk Hk.
    assert (anc (<[i := update n r]> t) p k ↔ anc t p k) as Hanc.
    { split; apply anc_ext; intros j nj q Hj Hq.
      - destruct (decide (j = i)) as [->|Hne].
        + rewrite list_lookup_insert_eq in Hj by done. simplify_eq. eauto.
        + rewrite list_lookup_insert_ne in Hj by done. eauto.
      - destruct (Hl1) as [_ Hl1']. destruct (Hl1' j nj Hj) as (nj' & ? & ? & _).
        exists nj'. split; [done | congruence]. }
    destruct (decide (k = i)) as [->|Hne].
    + simplify_eq.
      destruct (Hv i (update n r)) as [_ Hsame]; [by rewrite list_lookup_insert_eq|].
      split; [|intros Hna; exfalso; apply Hna; constructor].
      intros _. apply Hsame.
      rewrite Hanc. intros Ha. apply (anc_le _ _ _ Hdec) in Ha. lia.
    + destruct (Hv k nk) as [Hyes Hno]; [by rewrite list_lookup_insert_ne|].
      split.
      * intros Ha. apply Hyes, Hanc.
        destruct (anc_inv t i n k Hn Ha) as [-> | (q & Hq & Ha')]; [done|]. congruence.
      * intros Hna. apply Hno. rewrite Hanc. intros Ha. apply Hna. by eapply anc_up.
  - exists (<[i := update n r]> t). split; [by destruct fuel|].
    split; [by rewrite length_insert|].
    intros k nk Hk. destruct (decide (k = i)) as [->|Hne].
    + rewrite list_lookup_insert_eq by done. simplify_eq.
      split; [done | intros Hna; exfalso; apply Hna; constructor].
    + rewrite list_lookup_insert_ne by done.
      split; [|done]. intros Ha.
      destruct (anc_inv t i n k Hn Ha) as [-> | (q & Hq & _)]; [done | congruence].
Qed.

(** X12.  Backpropagation from a node of a store whose parent references
    point to older nodes ends, and calls [update] exactly once on the node
    and on each of its ancestors, with 1 where the node's
    [player_just_moved] is the winner, 0 where another player won and 0.5
    without a winner; every other node, and every other field, is left as
    it was. *)
Theorem backpropagate_updates_ancestors (t : tree) (w : option string) (i : nat) :
  (∀ j n p, t !! j = Some n → parent n = Some p → (p < j)%nat) →
  (i < length t)%nat →
  ∃ t', backpropagate (length t) t w (Some i) = Ok t' ∧ length t' = length t ∧
        ∀ k n, t !! k = Some n →
          (anc t i k →
             t' !! k = Some (mkNode (state n) (parent n) (move n) (children n)
                                    (wins n + reward w n)%Q (S (visits n))
                                    (untried_moves n) (player_just_moved n))) ∧
          (¬ anc t i k → t' !! k = Some n).
Proof.
  intros Hdec Hi.
  destruct (backpropagate_effect (length t) t w i Hdec Hi Hi) as (t' & Hb & Hlen & Hv).
  exists t'. split; [done|]. split; [done|]. intros k n Hk.
  destruct (Hv k n Hk) as [Hyes Hno]. split; [|done].
  intros Ha. rewrite (Hyes Ha). unfold update. by rewrite Nat.add_1_r.
Qed.

Lemma backpropagate_updates_ancestors_witness :
  ∃ t', backpropagate 3 uct_example_tree (Some "R") (Some 2%nat) = Ok t' ∧
        (visits <$> t') = [2; 1; 1]%nat ∧ (wins <$> t') = [1%Q; 1%Q; 1%Q].
Proof.
  destruct (backpropagate_updates_ancestors uct_example_tree (Some "R") 2%nat)
    as (t' & Hb & Hlen & Hv).
  - intros [|[|[|j]]] n p Hj Hp; simpl in Hj; simplify_eq; simpl in Hp; simplify_eq; lia.
  - simpl. lia.
  - exists t'. split; [exact Hb|].
    change (length uct_example_tree) with 3%nat in Hb.
    vm_compute in Hb. injection Hb as <-. split; reflexivity.
Defined.

(** ** Expansion *)

Lemma list_remove_Some x l u :
  list_remove x l = Some u ↔ ∃ u1 u2, l = u1 ++ x :: u2 ∧ (x ∉ u1) ∧ u = u1 ++ u2.
Proof.
  revert u. induction l as [|y l IH]; intros u; simpl.
  - split; [done|]. intros (u1 & u2 & E & _). by destruct u1.
  - case_bool_decide as Hy.
    + subst y. split.
      * intros [= <-]. exists [], l. split; [done|]. split; [apply not_elem_of_nil | done].
      * intros (u1 & u2 & E & Hn & ->). destruct u1 as [|z u1].
        -- simpl in E. by simplify_eq.
        -- simpl in E. simplify_eq. exfalso. apply Hn. left.
    + destruct (list_remove x l) as [r|] eqn:Er.
      * split.
        -- intros [= <-]. destruct (proj1 (IH r) eq_refl) as (u1 & u2 & -> & Hn & ->).
           exists (y :: u1), u2. split; [done|]. split; [|done].
           rewrite not_elem_of_cons. split; [congruence | done].
        -- intros (u1 & u2 & E & Hn & ->). destruct u1 as [|z u1]; simpl in E; simplify_eq.
           assert (Some r = Some (u1 ++ u2)) as [= ->]; [|done]. apply IH.
           exists u1, u2. split; [done|]. split; [|done].
           intros Hin. apply Hn. by right.
      * split; [done|]. intros (u1 & u2 & E & Hn & ->).
        destruct u1 as [|z u1]; simpl in E; simplify_eq.
        assert (None = Some (u1 ++ u2)) as Habs; [|done].
        apply IH. exists u1, u2. split; [done|]. split; [|done].
        intros Hin. apply Hn. by right.
Qed.

Lemma list_remove_None x l : list_remove x l = None ↔ x ∉ l.
Proof.
  split.
  - intros E Hin. destruct (list_remove_in x l Hin) as [u Hu]. congruence.
  - intros Hn. destruct (list_remove x l) as [u|] eqn:E; [|done].
    apply list_remove_Some in E as (u1 & u2 & -> & _). exfalso. apply Hn.
    apply elem_of_app. right. left.
Qed.

Lemma init_state st par mv :
  board (state (MCTSNode_init st par mv)) = board st ∧
  current_turn (state (MCTSNode_init st par mv)) = current_turn st ∧
  player_list (state (MCTSNode_init st par mv)) = player_list st ∧
  wins (MCTSNode_init st par mv) = 0%Q.
Proof.
  unfold MCTSNode_init, _check_winstate, _get_available_moves.
  destruct (check_win_on_board (board st)) as [w|]; [destruct (truthy w)|];
    simpl; try done; by destruct (open_columns (board st)).
Qed.

(** X13.  [add_child] with a move that is not among the node's untried
    moves raises [ValueError] ([list.remove]).  Otherwise it drops the
    first occurrence of the move from the untried moves, appends a new
    node to the store and its reference to the node's children, and
    changes nothing else; the new node has the node as parent, the move,
    no child, no visit, no win and a snapshot with the board and the turn
    of the given state; and the references still form a tree. *)
Theorem add_child_effect (t : tree) (self : nat) (n : MCTSNode) (mv : Z) (st : Connect4) :
  t !! self = Some n →
  (mv ∉ untried_moves n → add_child t self mv st = Raise ValueError) ∧
  (mv ∈ untried_moves n →
   ∃ t' u1 u2 new,
     add_child t self mv st = Ok (length t, t') ∧
     untried_moves n = u1 ++ mv :: u2 ∧ (mv ∉ u1) ∧
     length t' = S (length t) ∧
     t' !! self = Some (mkNode (state n) (parent n) (move n) (children n ++ [length t])
                               (wins n) (visits n) (u1 ++ u2) (player_just_moved n)) ∧
     t' !! length t = Some new ∧
     parent new = Some self ∧ move new = Some mv ∧ children new = [] ∧
     visits new = 0%nat ∧ wins new = 0%Q ∧
     board (state new) = board st ∧ current_turn (state new) = current_turn st ∧
     (∀ i, i ≠ self → (i < length t)%nat → t' !! i = t !! i) ∧
     (tree_shape t → tree_shape t')).
Proof.
  intros Hself. unfold add_child. rewrite (node_at_Some _ _ _ Hself), bind_Ok.
  assert (self < length t)%nat as Hlt by (by eapply lookup_lt_Some).
  split.
  - intros Hn. by rewrite (proj2 (list_remove_None _ _) Hn).
  - intros Hin. destruct (list_remove_in mv _ Hin) as [u Hu]. rewrite Hu.
    apply list_remove_Some in Hu as (u1 & u2 & Hsplit & Hn1 & ->).
    set (new := MCTSNode_init (copy st) (Some self) (Some mv)).
    destruct (init_fields (copy st) (Some self) (Some mv)) as (Hp & Hm & Hc & Hv).
    destruct (init_state (copy st) (Some self) (Some mv)) as (Hb & Ht & _ & Hw).
    eexists _, u1, u2, new. split; [reflexivity|]. split; [done|]. split; [done|].
    split; [rewrite length_app, length_insert; simpl; lia|].
    split; [rewrite lookup_app_l by (by rewrite length_insert);
            by rewrite list_lookup_insert_eq|].
    split; [rewrite lookup_app_r by (by rewrite length_insert);
            by rewrite length_insert, Nat.sub_diag|].
    do 7 (split; [done|]).
    split.
    + intros i Hne Hi. rewrite lookup_app_l by (by rewrite length_insert).
      by rewrite list_lookup_insert_ne.
    + intros Hsh. apply grown_shape; try done; by rewrite Hm.
Qed.

Lemma add_child_effect_witness :
  add_child uct_example_tree 2 7 (play [1; 7]) = Raise ValueError ∧
  ∃ t', add_child uct_example_tree 2 3 (play [1; 3]) = Ok (3%nat, t') ∧
        (untried_moves <$> t' !! 2%nat) = Some [0; 2; 4; 5; 6] ∧
        (children <$> t' !! 2%nat) = Some [3%nat] ∧
        (parent <$> t' !! 3%nat) = Some (Some 2%nat).
Proof.
  pose proof (add_child_effect uct_example_tree 2 _ 7 (play [1; 7]) eq_refl) as [Hno _].
  pose proof (add_child_effect uct_example_tree 2 _ 3 (play [1; 3]) eq_refl) as [_ Hyes].
  split.
  - apply Hno. simpl. rewrite !elem_of_cons, elem_of_nil. lia.
  - destruct Hyes as (t' & u1 & u2 & new & Hadd & Hsplit & Hn1 & Hlen & Hs & Hnew & Hp & _).
    + simpl. rewrite !elem_of_cons. lia.
    + exists t'. split; [exact Hadd|].
      vm_compute in Hadd. injection Hadd as <-. repeat split; reflexivity.
Defined.

(** ** The rollout *)

Lemma rollout_flagged rng fuel st pos :
  game_over st = true → rollout rng fuel st pos = Ok (st, pos).
Proof. intros Hg. destruct fuel; simpl; by rewrite Hg. Qed.

Lemma rollout_ends rng fuel st pos :
  playable st → game_over st = false → (blanks (board st) < fuel)%nat →
  ∃ st' pos',
    rollout rng fuel st pos = Ok (st', pos') ∧ playable st' ∧ game_over st' = true ∧
    (winning_line (board st') ∨ open_columns (board st') = []) ∧
    (∀ r c, cell_at (board st) r c ≠ EMPTY →
            cell_at (board st') r c = cell_at (board st) r c) ∧
    (pos ≤ pos')%nat ∧
    (pos' + blanks (board st') = pos + blanks (board st))%nat ∧
    current_turn st' = current_turn st + Z.of_nat (pos' - pos).
Proof.
  revert st pos. induction fuel as [|fuel IH]; intros st pos Hpl Hgo Hfuel; [lia|].
  rewrite rollout_step, Hgo. unfold _get_available_moves at 1.
  destruct (open_columns (board st)) as [|o os] eqn:Eo.
  - exists (set_game_over st true), pos. split; [done|]. split; [done|].
    split; [done|]. split; [by right|]. split; [done|]. split; [lia|].
    split; [done|]. simpl. rewrite Nat.sub_diag. simpl. lia.
  - destruct (random_choice_in rng pos (o :: os)) as (m & -> & Hm); [done|].
    rewrite bind_Ok. cbn beta iota zeta. rewrite <- Eo in Hm.
    destruct Hpl as [Hwf Hpla].
    destruct (make_move_open st m Hwf Hm) as (r & (Hr & He & Hlow) & Emv).
    pose proof (proj1 (elem_of_open_columns _ _) Hm) as [Hcol _].
    assert (player_at st (current_turn st) ≠ EMPTY) as Htok
      by (destruct (player_at_token st (current_turn st) Hpla) as [-> | ->]; done).
    rewrite Emv. cbn [snd].
    set (ms := mkConnect4 _ _ _ _ _ _).
    assert (playable ms) as Hms by (split; [by apply set_cell_wf | done]).
    assert (S (blanks (board ms)) = blanks (board st)) as Hbl
      by (apply blanks_set_cell_exact; [done | done | unfold COLS; lia | done | done]).
    assert (∀ r' c', cell_at (board st) r' c' ≠ EMPTY →
              cell_at (board ms) r' c' = cell_at (board st) r' c') as Hkeep.
    { intros r' c' Hne. apply cell_at_set_cell_ne. intros [= -> ->]. done. }
    pose proof (check_winstate_playable ms Hms) as Hpl1.
    pose proof (check_winstate_board ms) as Hb1.
    set (st1 := (_check_winstate ms).2) in *.
    assert (current_turn st1 = current_turn st + 1) as Ht1.
    { unfold st1, _check_winstate.
      destruct (check_win_on_board (board ms)) as [w|]; [destruct (truthy w)|]; done. }
    destruct (game_over st1) eqn:Hg1.
    + rewrite rollout_flagged by done. exists st1, (S pos).
      split; [done|]. split; [done|]. split; [done|].
      split.
      { left. rewrite Hb1. unfold st1, _check_winstate in Hg1.
        assert (game_over ms = false) as Hgms by exact Hgo.
        destruct (check_win_on_board (board ms)) as [w|] eqn:Ew;
          [destruct (truthy w)|]; cbn [snd] in Hg1; [|congruence|congruence].
        apply check_win_sound in Ew as [Hw Hline]. by exists w. }
      split; [intros r' c' Hne; rewrite Hb1; by apply Hkeep|].
      split; [lia|]. split; [rewrite Hb1; lia|].
      rewrite Ht1. f_equal. lia.
    + destruct (IH st1 (S pos) Hpl1 Hg1) as (st' & pos' & Hr' & Hpl' & Hg' & Hend & Hcells & Hle & Hpos & Hturn).
      { rewrite Hb1. lia. }
      exists st', pos'. split; [done|]. split; [done|]. split; [done|].
      split; [done|].
      split.
      { intros r' c' Hne. rewrite Hcells; rewrite Hb1; [by apply Hkeep|].
        by rewrite Hkeep. }
      split; [lia|]. split; [rewrite Hb1 in Hpos; lia|].
      rewrite Hturn, Ht1. lia.
Qed.

(** X14.  The rollout of the main loop, started on a state that is not
    flagged as over, ends (within the 43 iterations the model allows) in
    a state flagged as over, whose board has a winning line or no open
    column; it only adds tokens, one per random number drawn, and the
    turn counter advances by the same number. *)
Theorem rollout_finishes (rng : nat → nat) (st : Connect4) (pos : nat) :
  playable st → game_over st = false →
  ∃ st' pos',
    rollout rng (ROWS * COLS + 1) st pos = Ok (st', pos') ∧ game_over st' = true ∧
    (winning_line (board st') ∨ open_columns (board st') = []) ∧
    (∀ r c, cell_at (board st) r c ≠ EMPTY →
            cell_at (board st') r c = cell_at (board st) r c) ∧
    (pos ≤ pos')%nat ∧
    (blanks (board st) - blanks (board st') = pos' - pos)%nat ∧
    current_turn st' = current_turn st + Z.of_nat (pos' - pos).
Proof.
  intros Hpl Hgo.
  destruct (rollout_ends rng (ROWS * COLS + 1) st pos Hpl Hgo)
    as (st' & pos' & Hr & _ & Hg & Hend & Hcells & Hle & Hpos & Hturn).
  { pose proof (blanks_bound (board st)). lia. }
  exists st', pos'. do 5 (split; [done|]). split; [lia | done].
Qed.

Lemma rollout_finishes_witness :
  playable three_in_row_game ∧ game_over three_in_row_game = false ∧
  ∃ st' pos',
    rollout (λ _, 3%nat) (ROWS * COLS + 1) three_in_row_game 0 = Ok (st', pos') ∧
    game_over st' = true ∧ pos' = 1%nat.
Proof.
  assert (playable three_in_row_game) as Hpl by (apply wf_state_playable; decide_by_compute).
  split; [exact Hpl|]. split; [reflexivity|].
  destruct (rollout_finishes (λ _, 3%nat) three_in_row_game 0 Hpl eq_refl)
    as (st' & pos' & Hr & Hg & _).
  exists st', pos'. split; [exact Hr|]. split; [exact Hg|].
  vm_compute in Hr. by injection Hr as _ <-.
Defined.

(** ** One pass of the main loop, step by step *)

Lemma anc_parent (t : tree) i c cn p :
  anc t i c → t !! c = Some cn → parent cn = Some p → anc t i p.
Proof.
  induction 1 as [i | i n q k Hi Hq _ IH]; intros Hc Hp.
  - eapply anc_up; [done | done | constructor].
  - eapply anc_up; [done | done | by apply IH].
Qed.

(** The path from a node up to an ancestor other than itself passes
    through a child of that ancestor... *)
Lemma anc_child (t : tree) i k :
  anc t i k → i ≠ k → ∃ a na, anc t i a ∧ t !! a = Some na ∧ parent na = Some k.
Proof.
  induction 1 as [i | i n p k Hi Hp Ha IH]; intros Hne; [done|].
  destruct (decide (p = k)) as [->|Hpk].
  - exists i, n. split; [constructor | done].
  - destruct (IH Hpk) as (a & na & Ha' & Hna & Hpa).
    exists a, na. split; [by eapply anc_up | done].
Qed.

(** ... and through one only. *)
Lemma anc_child_unique t i a b na nb p :
  (∀ j n q, t !! j = Some n → parent n = Some q → (q < j)%nat) →
  anc t i a → anc t i b →
  t !! a = Some na → parent na = Some p →
  t !! b = Some nb → parent nb = Some p → a = b.
Proof.
  intros Hdec Ha. revert b nb.
  induction Ha as [i | i n q a Hi Hq Ha IH]; intros b nb Hb Hna Hpa Hnb Hpb.
  - destruct (anc_inv t i na b Hna Hb) as [-> | (q & Hq & Hb')]; [done|].
    pose proof (Hdec b nb p Hnb Hpb). assert (q = p) as -> by congruence.
    apply (anc_le _ _ _ Hdec) in Hb'. lia.
  - destruct (anc_inv t i n b Hi Hb) as [-> | (q' & Hq' & Hb')].
    + pose proof (Hdec a na p Hna Hpa). assert (q = p) as -> by congruence.
      apply (anc_le _ _ _ Hdec) in Ha. lia.
    + simplify_eq. by eapply IH.
Qed.

Lemma elem_of_child_moves (t : tree) n m :
  m ∈ child_moves t n ↔ ∃ c cn, c ∈ children n ∧ t !! c = Some cn ∧ move cn = Some m.
Proof.
  unfold child_moves. rewrite list_elem_of_omap. split.
  - intros (c & Hc & Hm). destruct (t !! c) as [cn|] eqn:Hcn; [|done]. eauto.
  - intros (c & cn & Hc & Hcn & Hm). exists c. split; [done|]. by rewrite Hcn.
Qed.

Lemma child_moves_ext (t t' : tree) (cs : list nat) :
  (∀ c, c ∈ cs → t' !! c ≫= move = t !! c ≫= move) →
  omap (λ c, t' !! c ≫= move) cs = omap (λ c, t !! c ≫= move) cs.
Proof.
  induction cs as [|c cs IH]; intros Hcs; [done|]. csimpl.
  rewrite Hcs by left. rewrite IH; [done|]. intros c' Hc'. apply Hcs. by right.
Qed.

Lemma bumped_fields w node (t t' : tree) :
  (∀ j n p, t !! j = Some n → parent n = Some p → (p < j)%nat) →
  bumped w node t t' →
  ∀ k, (t !! k = None ∧ t' !! k = None) ∨
       ∃ n n', t !! k = Some n ∧ t' !! k = Some n' ∧
               (n' = n ∨ n' = update n (reward w n)) ∧
               state n' = state n ∧ parent n' = parent n ∧ move n' = move n ∧
               children n' = children n ∧ untried_moves n' = untried_moves n ∧
               player_just_moved n' = player_just_moved n.
Proof.
  intros Hdec [Hlen Hb] k. destruct (t !! k) as [n|] eqn:Hk.
  - right. destruct (Hb k n Hk) as [Hyes Hno].
    destruct (anc_dec t node k Hdec) as [Ha | Hna].
    + exists n, (update n (reward w n)). split; [done|]. split; [by apply Hyes|].
      split; [by right | done].
    + exists n, n. split; [done|]. split; [by apply Hno|]. split; [by left | done].
  - left. split; [done|]. apply lookup_ge_None. apply lookup_ge_None in Hk. lia.
Qed.

Lemma bumped_child_moves w node (t t' : tree) n :
  (∀ j n p, t !! j = Some n → parent n = Some p → (p < j)%nat) →
  bumped w node t t' → child_moves t' n = child_moves t n.
Proof.
  intros Hdec Hb. apply child_moves_ext. intros c _.
  destruct (bumped_fields w node t t' Hdec Hb c)
    as [[-> ->] | (x & x' & -> & -> & _ & _ & _ & Hm & _)]; [done|]. simpl. done.
Qed.

Lemma lookup_grown (t : tree) j n u new i x :
  (j < length t)%nat →
  grown t j n u new !! i = Some x ↔
  (i = length t ∧ x = new) ∨
  (i = j ∧ x = mkNode (state n) (parent n) (move n) (children n ++ [length t])
                      (wins n) (visits n) u (player_just_moved n)) ∨
  (i ≠ j ∧ t !! i = Some x).
Proof. intros Hj. unfold grown. by apply grown_lookup. Qed.

Lemma grown_child_moves (t : tree) j n u new i x x' :
  tree_shape t → t !! j = Some n → t !! i = Some x →
  grown t j n u new !! i = Some x' →
  child_moves (grown t j n u new) x' =
  child_moves t x ++ (if decide (i = j) then from_option (λ m, [m]) [] (move new) else []).
Proof.
  intros Hsh Hj Hi Hi'.
  assert (j < length t)%nat as Hjlt by (by eapply lookup_lt_Some).
  assert (∀ c, (c < length t)%nat → grown t j n u new !! c ≫= move = t !! c ≫= move) as Hold.
  { intros c Hc. destruct (lookup_lt_is_Some_2 _ _ Hc) as [cn Hcn]. rewrite Hcn.
    destruct (grown t j n u new !! c) as [y|] eqn:E.
    - apply (lookup_grown t j n u new c y Hjlt) in E as [[-> ->] | [[-> ->] | [Hne E]]];
        [lia | by simplify_eq | by simplify_eq].
    - apply lookup_ge_None in E. unfold grown in E.
      rewrite length_app, length_insert in E. simpl in E. lia. }
  assert (∀ y, t !! i = Some y →
            omap (λ c, grown t j n u new !! c ≫= move) (children y) = child_moves t y) as Hsame.
  { intros y Hy. apply child_moves_ext. intros c Hc. apply Hold.
    destruct (shape_children t Hsh i y c Hy Hc) as (cn & Hcn & _).
    by eapply lookup_lt_Some. }
  apply (lookup_grown t j n u new i x' Hjlt) in Hi' as [[-> ->] | [[-> ->] | [Hne Hi']]].
  - apply lookup_lt_Some in Hi. lia.
  - simplify_eq. rewrite decide_True by done.
    unfold child_moves at 1. cbn [children]. rewrite omap_app. rewrite (Hsame n Hj).
    f_equal. csimpl.
    rewrite (proj2 (lookup_grown t j n u new (length t) new Hjlt)); [|by left].
    simpl. by destruct (move new).
  - simplify_eq. rewrite decide_False by done. rewrite app_nil_r. by apply Hsame.
Qed.

Section Tree.
Context {F : Type} `{ScoreArith F}.
Variable rng : nat → nat.
Variable self : MCTS F.
Variable root_state : Connect4.

(** Selection replays the moves of the nodes it passes: it arrives with
    the board and the turn of the snapshot of the node it ends at. *)
Lemma select_path fuel (t : tree) i st ni :
  tree_shape t → visits_cover t → game_tree root_state t →
  t !! i = Some ni → playable st →
  board st = board (state ni) → current_turn st = current_turn (state ni) →
  (length t ≤ fuel + i)%nat →
  ∃ j nj st',
    select self fuel t i st = Ok (j, st') ∧ t !! j = Some nj ∧ playable st' ∧
    (untried_moves nj ≠ [] ∨ children nj = []) ∧
    board st' = board (state nj) ∧ current_turn st' = current_turn (state nj) ∧
    game_over st' = game_over st.
Proof.
  intros Hsh Hcov Hgt. revert i st ni.
  induction fuel as [|fuel IH]; intros i st n Hi Hst Hb Ht Hfuel.
  { apply lookup_lt_Some in Hi. lia. }
  rewrite select_step, (node_at_Some _ _ _ Hi), bind_Ok.
  destruct (untried_moves n) as [|u us] eqn:Eu.
  - destruct (children n) as [|c0 cs] eqn:Ec.
    + exists i, n, st. do 3 (split; [done|]). split; [by right | done].
    + destruct (uct_select_child_in t i (exploration_constant self) n Hi)
        as (c & -> & Hc).
      * by rewrite Ec.
      * intros c Hc. destruct (shape_child_index t i n c Hsh Hi Hc) as (_ & cn & Hcn & _).
        by eexists.
      * specialize (Hcov i n Hi). rewrite Ec in Hcov. simpl in Hcov. lia.
      * destruct (shape_child_index t i n c Hsh Hi Hc) as (Hlt & cn & Hcn & Hpc).
        rewrite bind_Ok, (node_at_Some _ _ _ Hcn), bind_Ok.
        destruct (gt_child _ _ Hgt c cn i Hcn Hpc)
          as (pn & m & Hpn & Hm & Hopen & Hcb & Hct & _).
        assert (pn = n) as -> by congruence.
        rewrite Hm. cbn [make_move_opt].
        destruct Hst as [Hwf Hpl].
        rewrite <- Hb in Hopen.
        destruct (make_move_open st m Hwf Hopen) as (r & Hlow & Emv).
        destruct (gt_state _ _ Hgt i n Hi) as [_ Hpln].
        destruct (IH c (make_move st m).2 cn Hcn)
          as (j & nj & st' & Hsel & Hj & Hp & Hleaf & Hb' & Ht' & Hg').
        { by apply make_move_playable. }
        { rewrite Emv. cbn [snd board]. rewrite Hcb, <- Hb.
          rewrite (simulate_move_on_lowest _ _ _ r Hlow). f_equal.
          rewrite <- Ht. apply player_at_ext. congruence. }
        { rewrite Emv. cbn [snd current_turn]. lia. }
        { lia. }
        exists j, nj, st'. do 6 (split; [done|]). rewrite Hg', Emv. done.
  - exists i, n, st. do 3 (split; [done|]). split; [left; by rewrite Eu | done].
Qed.

(** Selection and expansion: the pass either arrives at a node without
    untried move or child, or appends a child for an untried move of the
    node selection ended at, made on that node's board; the working state
    has the board and the turn of the snapshot of the node arrived at, and
    the flag of [root_state]. *)
Lemma descend_effect k (t : tree) pos :
  wf_state root_state → loop_inv k t → game_tree root_state t →
  ∃ t1 node st pos1,
    descend rng self root_state t pos = Ok (t1, node, st, pos1) ∧
    playable st ∧ game_over st = game_over root_state ∧
    tree_shape t1 ∧ node ≠ 0%nat ∧
    (∃ nn, t1 !! node = Some nn ∧ board (state nn) = board st ∧
           current_turn (state nn) = current_turn st) ∧
    ((t1 = t ∧ pos1 = pos ∧
      (∀ root, t !! 0%nat = Some root → untried_moves root = []) ∧
      ∃ nn, t !! node = Some nn ∧ untried_moves nn = [] ∧ children nn = []) ∨
     (∃ j n m u1 u2 st0,
        t !! j = Some n ∧ untried_moves n = u1 ++ m :: u2 ∧ (m ∉ u1) ∧
        playable st0 ∧ board st0 = board (state n) ∧
        current_turn st0 = current_turn (state n) ∧
        node = length t ∧ pos1 = S pos ∧ st = (make_move st0 m).2 ∧
        (∀ root, t !! 0%nat = Some root → (untried_moves root ≠ [] ↔ j = 0%nat)) ∧
        t1 = grown t j n (u1 ++ u2)
                   (MCTSNode_init (copy (make_move st0 m).2) (Some j) (Some m)))).
Proof.
  intros Hroot [Hsh Hcov (root & Hr & Hvis & Hsum & Hnonleaf & _)] Hgt.
  destruct (gt_root _ _ Hgt) as (root' & Hr' & Hrb & Hrt).
  assert (root' = root) as -> by congruence.
  unfold descend.
  destruct (select_path (length t) t 0%nat (copy root_state) root Hsh Hcov Hgt Hr)
    as (j & nj & st0 & Hsel & Hj & Hst0 & Hleaf & Hb0 & Ht0 & Hg0);
    [by apply copy_playable, wf_state_playable | by rewrite board_copy | done | lia |].
  assert (untried_moves root ≠ [] → j = 0%nat) as Hfirst.
  { intros Hne. destruct (length t) as [|fuel] eqn:El;
      [apply lookup_lt_Some in Hr; lia|].
    rewrite select_step, (node_at_Some _ _ _ Hr), bind_Ok in Hsel.
    destruct (untried_moves root); [done|]. by injection Hsel as <- _. }
  rewrite Hsel, bind_Ok. unfold expand. rewrite (node_at_Some _ _ _ Hj), bind_Ok.
  destruct (untried_moves nj) as [|u0 us] eqn:Eu.
  - exists t, j, st0, pos. split; [done|]. split; [done|]. split; [done|].
    split; [done|].
    destruct Hleaf as [? | Hc]; [done|].
    split; [intros ->; simplify_eq; destruct Hnonleaf; done|].
    split; [by exists nj|]. left. split; [done|]. split; [done|].
    split; [|by exists nj].
    intros root0 Hr0. assert (root0 = root) as -> by congruence.
    destruct (untried_moves root) as [|r0 rs'] eqn:Er; [done|].
    exfalso. assert (j = 0%nat) as -> by (by apply Hfirst).
    assert (nj = root) as -> by congruence. congruence.
  - destruct (random_choice_in rng pos (u0 :: us)) as (m & -> & Hm); [done|].
    rewrite bind_Ok. cbn beta iota zeta.
    unfold add_child. rewrite (node_at_Some _ _ _ Hj), bind_Ok, Eu.
    destruct (list_remove_in m (u0 :: us) Hm) as [u Hu]. rewrite Hu.
    apply list_remove_Some in Hu as (u1 & u2 & Hsplit & Hn1 & ->).
    rewrite bind_Ok. cbn beta iota zeta.
    destruct (init_fields (copy (make_move st0 m).2) (Some j) (Some m))
      as (Hnp & Hnm & Hnc & Hnv).
    destruct (init_state (copy (make_move st0 m).2) (Some j) (Some m))
      as (Hnb & Hnt & _).
    rewrite board_copy in Hnb. cbn [copy current_turn] in Hnt.
    set (new := MCTSNode_init (copy (make_move st0 m).2) (Some j) (Some m)) in *.
    fold (grown t j nj (u1 ++ u2) new).
    assert (j < length t)%nat as Hjlt by (by eapply lookup_lt_Some).
    assert (tree_shape (grown t j nj (u1 ++ u2) new)) as Hsh1.
    { apply grown_shape; [done | done | done | by rewrite Hnm | done]. }
    assert (grown t j nj (u1 ++ u2) new !! length t = Some new) as Hnew
      by (apply lookup_grown; [done | by left]).
    assert (m ∈ open_columns (board st0)) as Hopen.
    { rewrite Hb0. apply (gt_moves _ _ Hgt j nj Hj). by rewrite Eu. }
    destruct Hst0 as [Hwf0 Hpl0].
    destruct (make_move_open st0 m Hwf0 Hopen) as (r & _ & Emv).
    exists (grown t j nj (u1 ++ u2) new), (length t), (make_move st0 m).2, (S pos).
    split; [done|]. split; [by apply make_move_playable|].
    split; [by rewrite Emv|]. split; [done|]. split; [lia|].
    split; [by exists new|].
    right. exists j, nj, m, u1, u2, st0. rewrite Eu. do 9 (split; [done|]).
    split; [|done].
    intros root0 Hr0. assert (root0 = root) as -> by congruence.
    split; [done|]. intros ->. simplify_eq. by rewrite Eu.
Qed.

(** One pass of the main loop: it ends, and backpropagates from the
    node selection and expansion arrived at. *)
Lemma pass_effect k (t : tree) pos :
  wf_state root_state → loop_inv k t → game_tree root_state t →
  ∃ t1 node w t' pos',
    simulate_once rng self root_state t pos = Ok (t', pos') ∧
    tree_shape t1 ∧ is_Some (t1 !! node) ∧ node ≠ 0%nat ∧ bumped w node t1 t' ∧
    ((t1 = t ∧ (∀ root, t !! 0%nat = Some root → untried_moves root = []) ∧
      ∃ nn, t !! node = Some nn ∧ untried_moves nn = [] ∧ children nn = []) ∨
     (∃ j n m u1 u2 st0,
        t !! j = Some n ∧ untried_moves n = u1 ++ m :: u2 ∧ (m ∉ u1) ∧
        playable st0 ∧ board st0 = board (state n) ∧
        current_turn st0 = current_turn (state n) ∧
        node = length t ∧
        (∀ root, t !! 0%nat = Some root → (untried_moves root ≠ [] ↔ j = 0%nat)) ∧
        t1 = grown t j n (u1 ++ u2)
                   (MCTSNode_init (copy (make_move st0 m).2) (Some j) (Some m)))).
Proof.
  intros Hroot Hinv Hgt.
  destruct (descend_effect k t pos Hroot Hinv Hgt)
    as (t1 & node & st & pos1 & Hd & Hst & _ & Hsh1 & Hn0 & (nn & Hnode & _) & Hcase).
  unfold simulate_once. rewrite Hd, bind_Ok. cbn beta iota.
  destruct (rollout_total rng (ROWS * COLS + 1) st pos1 Hst) as (st' & pos' & -> & Hst').
  { pose proof (blanks_bound (board st)). lia. }
  rewrite bind_Ok. cbn beta iota.
  destruct (_check_winstate st') as [winner st''].
  assert (node < length t1)%nat as Hlt by (by eapply lookup_lt_Some).
  destruct (backpropagate_effect (length t1) t1 winner node
              (shape_decreasing t1 Hsh1) Hlt Hlt) as (t2 & -> & Hlen & Hv).
  rewrite bind_Ok. exists t1, node, winner, t2, pos'.
  split; [done|]. split; [done|]. split; [by eexists|]. split; [done|].
  split; [by split|].
  destruct Hcase as [(-> & _ & Hterm) |
                     (j & n & m & u1 & u2 & st0 & Hj & Hu & Hn1 & Hst0 & Hb0 & Ht0 & -> & _ & _
                      & Hfirst & ->)].
  - by left.
  - right. exists j, n, m, u1, u2, st0. done.
Qed.

End Tree.

(** ** The store stays a game tree *)

Lemma init_player st par mv :
  player_just_moved (MCTSNode_init st par mv) = player_at st (current_turn st - 1).
Proof.
  unfold MCTSNode_init, _check_winstate, _get_available_moves.
  destruct (check_win_on_board (board st)) as [w|]; [destruct (truthy w)|];
    simpl; try done; by destruct (open_columns (board st)).
Qed.

Lemma init_untried_open st par mv :
  wf_state st →
  NoDup (untried_moves (MCTSNode_init st par mv)) ∧
  (∀ m, m ∈ untried_moves (MCTSNode_init st par mv) → m ∈ open_columns (board st)) ∧
  (untried_moves (MCTSNode_init st par mv) ≠ [] → ¬ winning_line (board st)).
Proof.
  intros [Hv _]. rewrite init_untried.
  destruct (check_win_on_board (board st)) as [w|] eqn:Ew.
  - rewrite (winner_truthy _ _ Hv Ew). split; [constructor|].
    split; [by intros m ?%elem_of_nil | done].
  - split; [apply open_columns_NoDup|]. split; [done|]. intros _.
    by apply check_win_None_iff.
Qed.

Lemma init_flag st par mv :
  wf_state st →
  winning_line (board st) ∨ open_columns (board st) = [] →
  game_over (state (MCTSNode_init st par mv)) = true.
Proof.
  intros [Hv _] Hterm. unfold MCTSNode_init, _check_winstate, _get_available_moves.
  destruct (check_win_on_board (board st)) as [w|] eqn:Ew.
  - by rewrite (winner_truthy _ _ Hv Ew).
  - destruct Hterm as [Hw | Hfull]; [by apply check_win_None_iff in Ew|].
    cbn [board]. by rewrite Hfull.
Qed.

Lemma game_tree_grown rs (t : tree) j n m u1 u2 st0 :
  tree_shape t → game_tree rs t → t !! j = Some n →
  untried_moves n = u1 ++ m :: u2 →
  playable st0 → board st0 = board (state n) → current_turn st0 = current_turn (state n) →
  game_tree rs (grown t j n (u1 ++ u2)
                      (MCTSNode_init (copy (make_move st0 m).2) (Some j) (Some m))).
Proof.
  intros Hsh Hgt Hj Hu [Hwf0 Hpl0] Hb0 Ht0.
  assert (j < length t)%nat as Hjlt by (by eapply lookup_lt_Some).
  destruct (gt_state _ _ Hgt j n Hj) as [Hvn Hpln].
  destruct (gt_moves _ _ Hgt j n Hj) as [Hnd Hlegal].
  assert (m ∈ open_columns (board st0)) as Hopen.
  { rewrite Hb0. apply Hlegal. rewrite Hu. apply elem_of_app. right. left. }
  destruct (make_move_open st0 m Hwf0 Hopen) as (r & Hlow & Emv).
  destruct (init_fields (copy (make_move st0 m).2) (Some j) (Some m))
    as (Hnp & Hnm & Hnc & Hnv).
  destruct (init_state (copy (make_move st0 m).2) (Some j) (Some m))
    as (Hnb & Hnt & Hnl & _).
  pose proof (init_player (copy (make_move st0 m).2) (Some j) (Some m)) as Hnpl.
  assert (player_at st0 (current_turn st0) = player_at (state n) (current_turn (state n)))
    as Hmover by (rewrite Ht0; apply player_at_ext; congruence).
  assert (board (make_move st0 m).2 =
            set_cell (board st0) r (Z.to_nat m) (player_at st0 (current_turn st0)) ∧
          current_turn (make_move st0 m).2 = current_turn st0 + 1 ∧
          player_list (make_move st0 m).2 = player_list st0) as (Eb & Et & El)
    by (by rewrite Emv).
  assert (valid_board (board (make_move st0 m).2)) as Hvb.
  { rewrite Eb, Hb0. apply set_cell_valid; [done|].
    destruct (player_at_token st0 (current_turn st0) Hpl0) as [-> | ->];
      rewrite !elem_of_cons; tauto. }
  assert (wf_state (copy (make_move st0 m).2)) as Hwfc.
  { split; [by rewrite board_copy | cbn [copy player_list]; congruence]. }
  destruct (init_untried_open (copy (make_move st0 m).2) (Some j) (Some m) Hwfc)
    as (Hund & Hunl & Hunw).
  rewrite board_copy in Hnb, Hunl, Hunw.
  cbn [copy current_turn player_list] in Hnt, Hnl, Hnpl.
  unfold player_at in Hnpl. cbn [copy current_turn player_list] in Hnpl.
  fold (player_at (make_move st0 m).2 (current_turn (make_move st0 m).2 - 1)) in Hnpl.
  rewrite Et in Hnt, Hnpl. rewrite El in Hnl.
  set (new := MCTSNode_init (copy (make_move st0 m).2) (Some j) (Some m)) in *.
  set (n' := mkNode (state n) (parent n) (move n) (children n ++ [length t])
                    (wins n) (visits n) (u1 ++ u2) (player_just_moved n)).
  assert (∀ i x, grown t j n (u1 ++ u2) new !! i = Some x ↔
            (i = length t ∧ x = new) ∨ (i = j ∧ x = n') ∨ (i ≠ j ∧ t !! i = Some x))
    as Hlook by (intros; by apply lookup_grown).
  assert (∀ i x, t !! i = Some x →
            ∃ x', grown t j n (u1 ++ u2) new !! i = Some x' ∧ state x' = state x) as Hold.
  { intros i x Hi. destruct (decide (i = j)) as [->|Hne].
    - exists n'. simplify_eq. split; [apply Hlook; right; by left | done].
    - exists x. split; [apply Hlook; right; by right | done]. }
  split.
  - destruct (gt_root _ _ Hgt) as (root & Hr & Hrb & Hrt).
    destruct (Hold _ _ Hr) as (root' & Hr' & Es). exists root'. by rewrite Es.
  - intros i x Hi. apply Hlook in Hi as [[-> ->] | [[-> ->] | [Hne Hi]]].
    + split; [by rewrite Hnb | congruence].
    + done.
    + by eapply gt_state.
  - intros i x p Hi Hp. apply Hlook in Hi as [[-> ->] | [[-> ->] | [Hne Hi]]].
    + rewrite Hnp in Hp. simplify_eq. exists n', m.
      split; [apply Hlook; right; by left|]. split; [done|]. cbn [state n'].
      split; [by rewrite <- Hb0|].
      split; [by rewrite Hnb, Eb, <- Hmover, <- Hb0, (simulate_move_on_lowest _ _ _ r Hlow)|].
      split; [rewrite Hnt; lia|].
      rewrite Hnpl, <- Hmover. replace (current_turn st0 + 1 - 1) with (current_turn st0) by lia.
      apply player_at_ext. done.
    + cbn [parent n'] in Hp.
      destruct (gt_child _ _ Hgt j n p Hj Hp) as (pn & mv & Hpn & Hrest).
      destruct (Hold _ _ Hpn) as (pn' & Hpn' & Es). exists pn', mv. by rewrite Es.
    + destruct (gt_child _ _ Hgt i x p Hi Hp) as (pn & mv & Hpn & Hrest).
      destruct (Hold _ _ Hpn) as (pn' & Hpn' & Es). exists pn', mv. by rewrite Es.
  - intros i x Hi. pose proof Hi as Hi0.
    apply Hlook in Hi as [[-> ->] | [[-> ->] | [Hne Hi]]].
    + unfold child_moves. rewrite Hnc. simpl. rewrite app_nil_r. split; [done|].
      intros mv Hmv. rewrite Hnb. by apply Hunl.
    + rewrite (grown_child_moves t j n (u1 ++ u2) new j n n' Hsh Hj Hj Hi0).
      rewrite decide_True by done. rewrite Hnm. simpl. cbn [untried_moves n'].
      split.
      * assert ((u1 ++ u2) ++ child_moves t n ++ [m] ≡ₚ
                (u1 ++ m :: u2) ++ child_moves t n) as ->; [|by rewrite <- Hu].
        rewrite <- (Permutation_middle u1 u2 m). simpl.
        rewrite (Permutation_app_comm (child_moves t n) [m]). simpl.
        by rewrite Permutation_middle.
      * intros mv Hmv. apply Hlegal. rewrite Hu.
        apply elem_of_app in Hmv as [Hmv | Hmv]; apply elem_of_app; [by left|].
        right. by right.
    + rewrite (grown_child_moves t j n (u1 ++ u2) new i x x Hsh Hj Hi Hi0).
      rewrite decide_False by done. rewrite app_nil_r. by eapply gt_moves.
  - intros i x Hi Hlive. apply Hlook in Hi as [[-> ->] | [[-> ->] | [Hne Hi]]].
    + rewrite Hnb. destruct Hlive as [Hl | Hl]; [|by rewrite Hnc in Hl].
      by apply Hunw.
    + cbn [state n']. eapply gt_live; [done | exact Hj |]. left. rewrite Hu.
      by destruct u1.
    + by eapply gt_live.
  - intros i x Hi Hterm. apply Hlook in Hi as [[-> ->] | [[-> ->] | [Hne Hi]]].
    + rewrite Hnb in Hterm. apply init_flag; [done | by rewrite board_copy].
    + cbn [state n']. by eapply gt_flag.
    + by eapply gt_flag.
Qed.

Lemma game_tree_bumped rs w node (t t' : tree) :
  (∀ j n p, t !! j = Some n → parent n = Some p → (p < j)%nat) →
  game_tree rs t → bumped w node t t' → game_tree rs t'.
Proof.
  intros Hdec Hgt Hb.
  pose proof (bumped_fields w node t t' Hdec Hb) as Hf.
  assert (∀ i x', t' !! i = Some x' →
            ∃ x, t !! i = Some x ∧ state x' = state x ∧ parent x' = parent x ∧
                 move x' = move x ∧ children x' = children x ∧
                 untried_moves x' = untried_moves x ∧
                 player_just_moved x' = player_just_moved x) as Hback.
  { intros i x' Hi'. destruct (Hf i) as [[_ Hn] | (x & x'' & Hx & Hx' & _ & Hrest)];
      [congruence|]. exists x. by simplify_eq. }
  assert (∀ i x, t !! i = Some x → ∃ x', t' !! i = Some x' ∧ state x' = state x) as Hfwd.
  { intros i x Hi. destruct (Hf i) as [[Hn _] | (x0 & x' & Hx & Hx' & _ & Es & _)];
      [congruence|]. exists x'. by simplify_eq. }
  split.
  - destruct (gt_root _ _ Hgt) as (root & Hr & Hrb & Hrt).
    destruct (Hfwd _ _ Hr) as (root' & Hr' & Es). exists root'. by rewrite Es.
  - intros i x' Hi'. destruct (Hback i x' Hi') as (x & Hi & -> & _). by eapply gt_state.
  - intros i x' p Hi' Hp. destruct (Hback i x' Hi') as (x & Hi & -> & Ep & -> & _ & _ & ->).
    rewrite Ep in Hp. destruct (gt_child _ _ Hgt i x p Hi Hp) as (pn & mv & Hpn & Hrest).
    destruct (Hfwd _ _ Hpn) as (pn' & Hpn' & Es). exists pn', mv. by rewrite Es.
  - intros i x' Hi'. destruct (Hback i x' Hi') as (x & Hi & -> & _ & _ & Ec & -> & _).
    assert (child_moves t' x' = child_moves t x) as ->.
    { unfold child_moves at 1. rewrite Ec. by apply (bumped_child_moves w node t t' x). }
    by eapply gt_moves.
  - intros i x' Hi'. destruct (Hback i x' Hi') as (x & Hi & -> & _ & _ & -> & -> & _).
    by eapply gt_live.
  - intros i x' Hi'. destruct (Hback i x' Hi') as (x & Hi & -> & _).
    by eapply gt_flag.
Qed.

Section Preserved.
Context {F : Type} `{ScoreArith F}.
Variable rng : nat → nat.
Variable self : MCTS F.
Variable root_state : Connect4.
Hypothesis root_wf : wf_state root_state.

Lemma game_tree_pass k (t t' : tree) pos pos' :
  loop_inv k t → game_tree root_state t →
  simulate_once rng self root_state t pos = Ok (t', pos') →
  game_tree root_state t'.
Proof.
  intros Hinv Hgt Hrun.
  destruct (pass_effect rng self root_state k t pos root_wf Hinv Hgt)
    as (t1 & node & w & t2 & pos2 & Hrun2 & Hsh1 & _ & _ & Hb & Hcase).
  assert (t2 = t') as -> by congruence.
  apply (game_tree_bumped root_state w node t1 t' (shape_decreasing t1 Hsh1)); [|done].
  destruct Hcase as [[-> _] | (j & n & m & u1 & u2 & st0 & Hj & Hu & _ & Hst0 & Hb0 & Ht0 & _ & _ & ->)];
    [done|].
  apply game_tree_grown; try done. by destruct Hinv.
Qed.
End Preserved.

(** ** The root's candidates and the statistics *)

Lemma sum_list_with_same {A} (f g : A → nat) (l : list A) :
  (∀ x, x ∈ l → g x = f x) → sum_list_with g l = sum_list_with f l.
Proof.
  induction l as [|x l IH]; intros Hl; [done|]. simpl.
  rewrite Hl by left. rewrite IH; [done|]. intros y Hy. apply Hl. by right.
Qed.

Lemma children_visits_sum (t : tree) n :
  children_visits t n = sum_list_with (visits_at t) (children n).
Proof. done. Qed.

Lemma grown_visits_at (t : tree) j n u new c :
  t !! j = Some n → (c < length t)%nat →
  visits_at (grown t j n u new) c = visits_at t c.
Proof.
  intros Hj Hc. assert (j < length t)%nat as Hjlt by (by eapply lookup_lt_Some).
  unfold visits_at. destruct (lookup_lt_is_Some_2 _ _ Hc) as [cn Hcn]. rewrite Hcn.
  destruct (grown t j n u new !! c) as [y|] eqn:E.
  - apply (lookup_grown t j n u new c y Hjlt) in E as [[-> ->] | [[-> ->] | [Hne E]]];
      [lia | by simplify_eq | by simplify_eq].
  - apply lookup_ge_None in E. unfold grown in E.
    rewrite length_app, length_insert in E. simpl in E. lia.
Qed.

Lemma reward_bounds w n : (0 <= reward w n)%Q ∧ (reward w n <= 1)%Q.
Proof.
  unfold reward. destruct w as [w|]; [destruct (player_just_moved n =? w)|];
    split; unfold Qle; simpl; lia.
Qed.

Lemma update_bounds n r :
  (0 <= r)%Q → (r <= 1)%Q →
  (0 <= wins n)%Q → (wins n <= inject_Z (Z.of_nat (visits n)))%Q →
  (0 <= wins (update n r))%Q ∧
  (wins (update n r) <= inject_Z (Z.of_nat (visits (update n r))))%Q.
Proof.
  intros Hr0 Hr1 Hw0 Hw1. cbn [update wins visits]. split.
  - replace 0%Q with (0 + 0)%Q by done. by apply Qplus_le_compat.
  - rewrite Nat2Z.inj_add, inject_Z_plus. by apply Qplus_le_compat.
Qed.

(** What backpropagation needs of the store it starts from: the
    statistics are in order everywhere but at the node it starts from,
    which is new when it can be expanded. *)
Lemma stats_bumped w node (t t' : tree) :
  tree_shape t → bumped w node t t' → is_Some (t !! node) →
  (∀ i n, t !! i = Some n →
     (0 <= wins n)%Q ∧ (wins n <= inject_Z (Z.of_nat (visits n)))%Q ∧
     (i ≠ 0%nat → i ≠ node →
        (1 ≤ visits n)%nat ∧
        (untried_moves n ≠ [] ∨ children n ≠ [] → visits n = S (children_visits t n)))) →
  (∀ n, t !! node = Some n → untried_moves n ≠ [] ∨ children n ≠ [] →
        visits n = 0%nat ∧ children n = []) →
  stats_inv t'.
Proof.
  intros Hsh Hb Hnode Hpre Hnew.
  pose proof (shape_decreasing t Hsh) as Hdec.
  pose proof (bumped_fields w node t t' Hdec Hb) as Hf.
  destruct Hb as [Hlen Hb].
  assert (∀ c, is_Some (t !! c) → anc t node c → visits_at t' c = S (visits_at t c))
    as Hvis_yes.
  { intros c [cn Hc] Ha. unfold visits_at. rewrite Hc.
    destruct (Hb c cn Hc) as [Hyes _]. rewrite (Hyes Ha). cbn [update visits]. lia. }
  assert (∀ c, ¬ anc t node c → visits_at t' c = visits_at t c) as Hvis_no.
  { intros c Hna. unfold visits_at. destruct (t !! c) as [cn|] eqn:Hc.
    - destruct (Hb c cn Hc) as [_ Hno]. by rewrite (Hno Hna).
    - destruct (Hf c) as [[_ ->] | (x & _ & ? & _)]; [done | congruence]. }
  intros i n' Hi'.
  destruct (Hf i) as [[_ ?] | (n & n'' & Hi & Hi'' & _ & _ & _ & _ & Ec & Eu & _)];
    [congruence|].
  assert (n'' = n') as -> by congruence. clear Hi''.
  destruct (Hpre i n Hi) as (Hw0 & Hw1 & Hrest).
  destruct (Hb i n Hi) as [Hyes Hno].
  destruct (reward_bounds w n) as [Hr0 Hr1].
  destruct (anc_dec t node i Hdec) as [Ha | Hna].
  - assert (n' = update n (reward w n)) as -> by (specialize (Hyes Ha); congruence).
    destruct (update_bounds n (reward w n) Hr0 Hr1 Hw0 Hw1) as [Hu0 Hu1].
    split; [done|]. split; [done|]. intros Hi0. cbn [update visits].
    split; [lia|]. intros Hlive. cbn [update untried_moves children] in Hlive.
    rewrite children_visits_sum. cbn [update children].
    destruct (decide (i = node)) as [->|Hin].
    + destruct (Hnew n Hi Hlive) as [-> ->]. done.
    + destruct (Hrest Hi0 Hin) as [_ Hsum]. rewrite (Hsum Hlive).
      destruct (anc_child t node i Ha ltac:(congruence)) as (a & na & Haa & Hna & Hpa).
      assert (a ∈ children n) as Hain.
      { destruct (shape_parent t Hsh a na i Hna Hpa) as (_ & _ & pn & Hpn & Hin').
        by simplify_eq. }
      rewrite children_visits_sum, Nat.add_1_r. f_equal. symmetry.
      apply (sum_list_with_bump _ _ _ a); [by eapply shape_nodup | done | |].
      * apply Hvis_yes; [by eexists | done].
      * intros c Hc Hca. apply Hvis_no. intros Hac. apply Hca.
        destruct (shape_children t Hsh i n c Hi Hc) as (cn & Hcn & Hpc).
        by eapply (anc_child_unique t node c a).
  - assert (n' = n) as -> by (specialize (Hno Hna); congruence).
    split; [done|]. split; [done|]. intros Hi0.
    assert (i ≠ node) as Hin by (intros ->; apply Hna; constructor).
    destruct (Hrest Hi0 Hin) as [H1 Hsum]. split; [done|]. intros Hlive.
    rewrite (Hsum Hlive). f_equal. rewrite !children_visits_sum. symmetry.
    apply sum_list_with_same. intros c Hc. apply Hvis_no.
    intros Hac. apply Hna.
    destruct (shape_children t Hsh i n c Hi Hc) as (cn & Hcn & Hpc).
    by eapply anc_parent.
Qed.

Lemma child_moves_length (t : tree) i n :
  tree_shape t → t !! i = Some n → length (child_moves t n) = length (children n).
Proof.
  intros Hsh Hi. unfold child_moves.
  assert (∀ cs, (∀ c, c ∈ cs → c ∈ children n) →
            length (omap (λ c, t !! c ≫= move) cs) = length cs) as Hlen.
  { induction cs as [|c cs IH]; intros Hcs; [done|]. csimpl.
    destruct (shape_children t Hsh i n c Hi (Hcs c ltac:(left))) as (cn & Hcn & Hp).
    destruct (shape_parent t Hsh c cn i Hcn Hp) as (_ & [mv Hmv] & _).
    rewrite Hcn. simpl. rewrite Hmv. simpl. f_equal. apply IH.
    intros c' Hc'. apply Hcs. by right. }
  by apply Hlen.
Qed.

Section Kept.
Context {F : Type} `{ScoreArith F}.
Variable rng : nat → nat.
Variable self : MCTS F.
Variable root_state : Connect4.
Hypothesis root_wf : wf_state root_state.

Lemma root_cands_pass U k (t t' : tree) pos pos' :
  loop_inv k t → game_tree root_state t → root_cands U k t →
  simulate_once rng self root_state t pos = Ok (t', pos') →
  root_cands U (S k) t'.
Proof.
  intros Hinv Hgt (root & Hr & Hperm & Hlen) Hrun.
  destruct (pass_effect rng self root_state k t pos root_wf Hinv Hgt)
    as (t1 & node & w & t2 & pos2 & Hrun2 & Hsh1 & _ & _ & Hb & Hcase).
  assert (t2 = t') as -> by congruence.
  pose proof (inv_shape _ _ Hinv) as Hsh.
  pose proof (child_moves_length t 0 root Hsh Hr) as Hcm.
  pose proof (Permutation_length Hperm) as HlenU. rewrite length_app in HlenU.
  assert (∃ root1, t1 !! 0%nat = Some root1 ∧
                   untried_moves root1 ++ child_moves t1 root1 ≡ₚ U ∧
                   length (children root1) = (S k `min` length U)%nat)
    as (root1 & Hr1 & Hperm1 & Hlen1).
  { assert (untried_moves root = [] → (S k `min` length U)%nat = length (children root))
      as Hdone by (intros Eu; rewrite Eu in HlenU; simpl in HlenU; lia).
    destruct Hcase as [(-> & Hnone & _) |
                       (j & n & m & u1 & u2 & st0 & Hj & Hu & _ & _ & _ & _ & _ & Hfirst & ->)].
    - exists root. split; [done|]. split; [done|]. symmetry. by apply Hdone, Hnone.
    - assert (j < length t)%nat as Hjlt by (by eapply lookup_lt_Some).
      destruct (init_fields (copy (make_move st0 m).2) (Some j) (Some m))
        as (_ & Hnm & _).
      set (new := MCTSNode_init (copy (make_move st0 m).2) (Some j) (Some m)) in *.
      destruct (decide (j = 0%nat)) as [->|Hj0].
      + assert (n = root) as -> by congruence.
        eexists. split; [apply lookup_grown; [done | right; left; done]|].
        erewrite (grown_child_moves t 0 root (u1 ++ u2) new 0 root); [|done..|].
        2: { apply lookup_grown; [done | right; left; done]. }
        rewrite decide_True by done. rewrite Hnm. cbn [untried_moves children from_option].
        split.
        * rewrite <- Hperm, Hu. rewrite <- (Permutation_middle u1 u2 m). simpl.
          rewrite (Permutation_app_comm (child_moves t root) [m]). simpl.
          by rewrite Permutation_middle.
        * rewrite length_app. cbn [length]. rewrite Hu, length_app in HlenU.
          cbn [length] in HlenU. lia.
      + assert (untried_moves root = []) as Eu.
        { destruct (untried_moves root) eqn:E; [done|]. exfalso. apply Hj0.
          apply (Hfirst root Hr). by rewrite E. }
        exists root. split; [apply lookup_grown; [done | right; right; done]|].
        rewrite (grown_child_moves t j n (u1 ++ u2) new 0 root root Hsh Hj Hr).
        2: { apply lookup_grown; [done | right; right; done]. }
        rewrite decide_False by done. rewrite app_nil_r.
        split; [done|]. symmetry. by apply Hdone. }
  destruct (bumped_fields w node t1 t' (shape_decreasing t1 Hsh1) Hb 0%nat)
    as [[? _] | (x & x' & Hx & Hx' & _ & _ & _ & _ & Ec & Eu & _)]; [congruence|].
  assert (x = root1) as -> by congruence.
  exists x'. split; [done|]. rewrite Eu, Ec. split; [|done].
  assert (child_moves t' x' = child_moves t1 root1) as ->; [|done].
  unfold child_moves at 1. rewrite Ec.
  by apply (bumped_child_moves w node t1 t' root1 (shape_decreasing t1 Hsh1)).
Qed.

Lemma stats_pass k (t t' : tree) pos pos' :
  loop_inv k t → game_tree root_state t → stats_inv t →
  simulate_once rng self root_state t pos = Ok (t', pos') →
  stats_inv t' ∧ (length t ≤ length t' ≤ S (length t))%nat.
Proof.
  intros Hinv Hgt Hstats Hrun.
  destruct (pass_effect rng self root_state k t pos root_wf Hinv Hgt)
    as (t1 & node & w & t2 & pos2 & Hrun2 & Hsh1 & Hnode & Hn0 & Hb & Hcase).
  assert (t2 = t') as -> by congruence.
  pose proof Hb as [Hlen _].
  destruct Hcase as [(-> & _ & nn & Hnn & Hu & Hc) |
                     (j & n & m & u1 & u2 & st0 & Hj & Hu & _ & _ & _ & _ & -> & _ & ->)].
  - split; [|lia].
    apply (stats_bumped w node t t' Hsh1 Hb Hnode).
    + intros i n Hi. destruct (Hstats i n Hi) as (? & ? & Hrest).
      split; [done|]. split; [done|]. intros Hi0 _. by apply Hrest.
    + intros n Hn [Hl | Hl]; simplify_eq.
  - assert (j < length t)%nat as Hjlt by (by eapply lookup_lt_Some).
    destruct (init_fields (copy (make_move st0 m).2) (Some j) (Some m))
      as (Hnp & Hnm & Hnc & Hnv).
    destruct (init_state (copy (make_move st0 m).2) (Some j) (Some m))
      as (_ & _ & _ & Hnw).
    set (new := MCTSNode_init (copy (make_move st0 m).2) (Some j) (Some m)) in *.
    destruct Hinv as [Hsh _ _].
    split; [|unfold grown in Hlen; rewrite length_app, length_insert in Hlen;
             simpl in Hlen; lia].
    apply (stats_bumped w (length t) _ t' Hsh1 Hb Hnode).
    + intros i x Hi.
      apply (lookup_grown t j n (u1 ++ u2) new i x Hjlt) in Hi
        as [[-> ->] | [[-> ->] | [Hne Hi]]].
      * rewrite Hnw, Hnv. split; [done|]. split; [done|]. done.
      * destruct (Hstats j n Hj) as (? & ? & Hrest).
        split; [done|]. split; [done|]. intros Hj0 _.
        destruct (Hrest Hj0) as [Hone Hsum]. split; [done|]. intros _.
        cbn [visits]. rewrite Hsum by (left; rewrite Hu; by destruct u1).
        f_equal. rewrite !children_visits_sum. cbn [children].
        rewrite sum_list_with_app. simpl.
        assert (visits_at (grown t j n (u1 ++ u2) new) (length t) = 0%nat) as ->.
        { unfold visits_at.
          rewrite (proj2 (lookup_grown t j n (u1 ++ u2) new (length t) new Hjlt));
            [done | by left]. }
        rewrite (sum_list_with_same (visits_at t) (visits_at (grown t j n (u1 ++ u2) new)));
          [lia|].
        intros c Hc. apply grown_visits_at; [done|].
        destruct (shape_children t Hsh j n c Hj Hc) as (cn & Hcn & _).
        by eapply lookup_lt_Some.
      * destruct (Hstats i x Hi) as (? & ? & Hrest).
        split; [done|]. split; [done|]. intros Hi0 _.
        destruct (Hrest Hi0) as [Hone Hsum]. split; [done|]. intros Hlive.
        rewrite (Hsum Hlive). f_equal. rewrite !children_visits_sum. symmetry.
        apply sum_list_with_same. intros c Hc. apply grown_visits_at; [done|].
        destruct (shape_children t Hsh i x c Hi Hc) as (cn & Hcn & _).
        by eapply lookup_lt_Some.
    + intros x Hx _.
      apply (lookup_grown t j n (u1 ++ u2) new (length t) x Hjlt) in Hx
        as [[_ ->] | [[E _] | [_ Hx]]]; [done | lia |].
      apply lookup_lt_Some in Hx. lia.
Qed.
End Kept.

(** ** The whole search *)

Lemma tactical_checks_single root a :
  ¬ winning_line (board root) → open_columns (board root) = [a] →
  tactical_checks root = (Return (Some a), root).
Proof.
  intros Hno Hopen. apply check_win_None_iff in Hno.
  pose proof (init_untried (copy root) None None) as Hu.
  rewrite board_copy, Hno, Hopen in Hu.
  unfold tactical_checks. cbv zeta. by rewrite Hu.
Qed.

(** What the tactical checks have established when they hand over to
    the main loop. *)
Lemma search_root root rn rs :
  let ai := player_at root (current_turn root) in
  let human := player_at root (current_turn root + 1) in
  wf_state root → tactical_checks root = (Search rn, rs) →
  ¬ winning_line (board root) ∧ (2 ≤ length (open_columns (board root)))%nat ∧
  rs = root ∧ state rn = copy root ∧ wins rn = 0%Q ∧
  (∀ m, m ∈ open_columns (board root) → ¬ immediate_win (board root) ai m) ∧
  NoDup (untried_moves rn) ∧
  (∀ m, m ∈ untried_moves rn → m ∈ open_columns (board root)) ∧
  ((∃ m, m ∈ open_columns (board root) ∧ ¬ winning_reply (board root) ai human m) →
   ∀ m, m ∈ untried_moves rn ↔
        m ∈ open_columns (board root) ∧ ¬ winning_reply (board root) ai human m) ∧
  ((∀ m, m ∈ open_columns (board root) → winning_reply (board root) ai human m) →
   untried_moves rn = open_columns (board root)).
Proof.
  intros ai human Hroot Hsearch. pose proof Hroot as [[Hwf _] _].
  assert (¬ winning_line (board root)) as Hno.
  { intros Hw. by rewrite (tactical_checks_won root Hroot Hw) in Hsearch. }
  split; [done|].
  pose proof (open_columns_NoDup (board root)) as Hnd.
  destruct (open_columns (board root)) as [|a [|b l]] eqn:Hopen.
  { by rewrite (tactical_checks_no_moves root Hopen) in Hsearch. }
  { by rewrite (tactical_checks_single root a Hno Hopen) in Hsearch. }
  split; [simpl; lia|].
  assert (∀ m, m ∈ open_columns (board root) →
            (opponent_can_win root human (simulate_move root m None None)
               (open_columns (simulate_move root m None None)) = false
             ↔ ¬ winning_reply (board root) ai human m)) as Hsafe.
  { intros m Hm. rewrite <- not_true_iff_false.
    rewrite opponent_can_win_true; [done | by apply simulate_move_on_wf |].
    rewrite Hopen in Hm.
    pose proof (tactical_checks_open root a b l Hno Hopen) as Ht. cbn zeta in Ht.
    destruct (first_hit _ _) as [mv|] eqn:Ef; [by rewrite Ht in Hsearch|].
    pose proof (proj1 (first_hit_None _ _) Ef m Hm) as Hm'. cbv beta in Hm'.
    apply no_line_after_move; [done | done |]. intros Hwin.
    apply check_win_immediate in Hwin; [|done..]. unfold ai in Hwin.
    change (simulate_move root m None None)
      with (simulate_move_on (board root) m (player_at root (current_turn root))) in Hm'.
    rewrite Hwin in Hm'. by rewrite String.eqb_refl in Hm'. }
  pose proof (safe_scan_spec root human (open_columns (board root)) []) as Hscan.
  rewrite app_nil_l in Hscan.
  specialize (Hscan ltac:(intros m Hm; apply open_after_move;
                          [rewrite Hopen; simpl; lia | done])).
  rewrite Hopen in Hsafe, Hscan.
  pose proof (tactical_checks_open root a b l Hno Hopen) as Ht. cbn zeta in Ht.
  destruct (first_hit _ _) as [mv|] eqn:Ef; [by rewrite Ht in Hsearch|].
  assert (∀ m, m ∈ a :: b :: l → ¬ immediate_win (board root) ai m) as Hnowin.
  { intros m Hm Hwin.
    pose proof (proj1 (first_hit_None _ _) Ef m Hm) as Hm'. cbv beta in Hm'.
    apply check_win_immediate in Hwin; [|done..]. unfold ai in Hwin.
    change (simulate_move root m None None)
      with (simulate_move_on (board root) m (player_at root (current_turn root))) in Hm'.
    rewrite Hwin in Hm'. by rewrite String.eqb_refl in Hm'. }
  unfold human in Hscan at 1. rewrite Hscan in Ht.
  set (safe := filter _ (a :: b :: l)) in *.
  assert (∀ m, m ∈ safe ↔ m ∈ a :: b :: l ∧ ¬ winning_reply (board root) ai human m)
    as Hsafe_in.
  { intros m. unfold safe. rewrite list_elem_of_filter. split.
    - intros [Hs Hm]. split; [done|]. by apply Hsafe.
    - intros [Hm Hs]. split; [|done]. by apply Hsafe. }
  assert (filter (λ m, m ∈ safe) (a :: b :: l) = safe) as Hcommon.
  { unfold safe. apply filter_iff_on. intros m Hm.
    rewrite list_elem_of_filter. tauto. }
  rewrite Hcommon in Ht. rewrite Ht in Hsearch. injection Hsearch as <- <-.
  cbn [state wins untried_moves].
  do 4 (split; [done|]).
  assert (NoDup safe) as Hnds by (by apply list.NoDup_filter).
  split; [destruct safe; done|].
  split.
  { intros m Hm. destruct safe as [|s0 ss] eqn:Es; [done|]. by apply Hsafe_in. }
  split.
  - intros (m0 & Hm0 & Hs0).
    assert (m0 ∈ safe) as Hin0 by (by apply Hsafe_in).
    destruct safe as [|s0 ss] eqn:Es; [by apply elem_of_nil in Hin0|].
    intros m. apply Hsafe_in.
  - intros Hall. destruct safe as [|s0 ss] eqn:Es; [done|].
    exfalso. assert (s0 ∈ s0 :: ss) as Hin0 by left.
    apply Hsafe_in in Hin0 as [Hm Hs]. by apply Hs, Hall.
Qed.

Lemma tactical_checks_Return root m rs :
  wf_state root → tactical_checks root = (Return (Some m), rs) →
  m ∈ open_columns (board root) ∧ ¬ winning_line (board root) ∧
  (open_columns (board root) = [m] ∨
   immediate_win (board root) (player_at root (current_turn root)) m).
Proof.
  intros Hroot Hret. pose proof Hroot as [[Hwf _] _].
  assert (¬ winning_line (board root)) as Hno.
  { intros Hw. by rewrite (tactical_checks_won root Hroot Hw) in Hret. }
  destruct (open_columns (board root)) as [|a [|b l]] eqn:Hopen.
  { by rewrite (tactical_checks_no_moves root Hopen) in Hret. }
  { rewrite (tactical_checks_single root a Hno Hopen) in Hret. injection Hret as <- _.
    split; [left|]. split; [done | by left]. }
  pose proof (tactical_checks_open root a b l Hno Hopen) as Ht. cbn zeta in Ht.
  destruct (first_hit _ _) as [mv|] eqn:Ef.
  - rewrite Ht in Hret. injection Hret as <- _.
    apply first_hit_Some in Ef as (mv' & Hin & Ef).
    destruct (check_win_on_board _) as [t|] eqn:Ew; [|done].
    destruct (t =? player_at root (current_turn root)) eqn:Et; [|done].
    apply String.eqb_eq in Et. subst t. injection Ef as ->.
    split; [done|]. split; [done|]. right. by apply check_win_immediate.
  - destruct (safe_scan _ _ _ _) as [safe rs']. by rewrite Ht in Hret.
Qed.

Lemma game_tree_init root rn rs :
  wf_state root → tactical_checks root = (Search rn, rs) →
  game_tree root [rn] ∧ root_cands (untried_moves rn) 0 [rn] ∧ stats_inv [rn].
Proof.
  intros Hroot Hsearch.
  destruct (search_root root rn rs Hroot Hsearch)
    as (Hno & Hlen & _ & Hst & Hw & _ & Hnd & Hlegal & _).
  destruct (tactical_checks_Search root rn rs Hsearch) as (Hp & Hm & Hc & Hv & Hu).
  assert (∀ i n, [rn] !! i = Some n → i = 0%nat ∧ n = rn) as Hone.
  { intros [|i] n Hi; simpl in Hi; [by simplify_eq | by destruct i]. }
  assert (child_moves [rn] rn = []) as Hcm by (unfold child_moves; by rewrite Hc).
  split; [split|split].
  - exists rn. by rewrite Hst.
  - intros i n Hi. destruct (Hone i n Hi) as [-> ->]. rewrite Hst.
    destruct Hroot as [Hvb Hpl]. split; [by rewrite board_copy | done].
  - intros i n p Hi Hpar. destruct (Hone i n Hi) as [-> ->]. congruence.
  - intros i n Hi. destruct (Hone i n Hi) as [-> ->]. rewrite Hcm, app_nil_r.
    split; [done|]. intros m Hin. rewrite Hst, board_copy. by apply Hlegal.
  - intros i n Hi _. destruct (Hone i n Hi) as [-> ->]. by rewrite Hst, board_copy.
  - intros i n Hi. destruct (Hone i n Hi) as [-> ->]. rewrite Hst, board_copy.
    intros [Hw' | Hfull]; [done|]. rewrite Hfull in Hlen. simpl in Hlen. lia.
  - exists rn. split; [done|]. rewrite Hcm, app_nil_r, Hc. done.
  - intros i n Hi. destruct (Hone i n Hi) as [-> ->]. rewrite Hw, Hv.
    split; [done|]. split; [done|]. done.
Qed.

Section Run.
Context {F : Type} `{ScoreArith F}.
Variable rng : nat → nat.
Variable self : MCTS F.
Variable root_state : Connect4.
Hypothesis root_wf : wf_state root_state.

Lemma run_simulations_keeps U n k (t : tree) pos :
  loop_inv k t → game_tree root_state t → root_cands U k t → stats_inv t →
  (length t ≤ S k)%nat →
  ∃ t' pos',
    run_simulations rng self root_state n t pos = Ok (t', pos') ∧
    loop_inv (n + k) t' ∧ game_tree root_state t' ∧ root_cands U (n + k) t' ∧
    stats_inv t' ∧ (length t' ≤ S (n + k))%nat.
Proof.
  revert k t pos. induction n as [|n IH]; intros k t pos Hinv Hgt Hc Hs Hlen.
  - by exists t, pos.
  - rewrite run_simulations_step.
    destruct (simulate_once_inv rng self root_state (wf_state_playable _ root_wf) k t pos Hinv)
      as (t1 & pos1 & Hrun & Hinv1 & _).
    rewrite Hrun, bind_Ok. cbn beta iota.
    pose proof (game_tree_pass rng self root_state root_wf k t t1 pos pos1 Hinv Hgt Hrun)
      as Hgt1.
    pose proof (root_cands_pass rng self root_state root_wf U k t t1 pos pos1
                  Hinv Hgt Hc Hrun) as Hc1.
    destruct (stats_pass rng self root_state root_wf k t t1 pos pos1 Hinv Hgt Hs Hrun)
      as [Hs1 Hlen1].
    destruct (IH (S k) t1 pos1 Hinv1 Hgt1 Hc1 Hs1 ltac:(lia))
      as (t' & pos' & -> & Hinv' & Hgt' & Hc' & Hs' & Hlen').
    exists t', pos'. replace (S n + k)%nat with (n + S k)%nat by lia. done.
Qed.

Lemma search_keeps rn rs n :
  tactical_checks root_state = (Search rn, rs) →
  ∃ t pos,
    run_simulations rng self root_state n [rn] 0%nat = Ok (t, pos) ∧
    loop_inv n t ∧ game_tree root_state t ∧ root_cands (untried_moves rn) n t ∧
    stats_inv t ∧ (length t ≤ S n)%nat.
Proof.
  intros Hsearch.
  destruct (game_tree_init root_state rn rs root_wf Hsearch) as (Hgt & Hc & Hs).
  destruct (tactical_checks_Search root_state rn rs Hsearch) as (Hp & Hm & Hch & Hv & Hu).
  destruct (run_simulations_keeps (untried_moves rn) n 0 [rn] 0%nat
              (loop_inv_init rn Hp Hch Hv Hu) Hgt Hc Hs ltac:(simpl; lia))
    as (t & pos & Hrun & Hinv & Hgt' & Hc' & Hs' & Hlen).
  rewrite Nat.add_0_r in Hinv, Hc', Hlen. exists t, pos. done.
Qed.
End Run.

(** X15.  The store of the main loop is a game tree: after any number of
    passes from the root the tactical checks hand over, the root's
    snapshot shows the board of [root_state]; every child's snapshot is
    its parent's after the child's move, a legal one, played by the side
    to move, which the child records as [player_just_moved]; the untried
    moves and the children's moves of a node are legal and pairwise
    distinct, so no move is expanded twice; no node with an untried move
    or a child has a winning line; a snapshot with a winning line or
    without open column is flagged as over; and each pass adds at most one
    node. *)
Theorem search_builds_game_tree {F : Type} `{ScoreArith F}
    (rng : nat → nat) (self : MCTS F) (root : Connect4) (rn : MCTSNode) (rs : Connect4) :
  wf_state root → tactical_checks root = (Search rn, rs) →
  ∀ k, ∃ t pos,
    run_simulations rng self root k [rn] 0%nat = Ok (t, pos) ∧
    game_tree root t ∧ tree_shape t ∧ (length t ≤ S k)%nat.
Proof.
  intros Hroot Hsearch k.
  destruct (search_keeps rng self root Hroot rn rs k Hsearch)
    as (t & pos & Hrun & Hinv & Hgt & _ & _ & Hlen).
  exists t, pos. split; [done|]. split; [done|]. split; [by destruct Hinv | done].
Qed.

Lemma search_builds_game_tree_witness :
  wf_state must_block_game ∧
  ∃ t pos,
    run_simulations (H := real_arith) (λ n, n)
      (mkMCTS _ 50%nat (Rdefinitions.IZR 1)) must_block_game 50
      [mkNode (copy must_block_game) None None [] 0%Q 0%nat [3] "Y"] 0%nat = Ok (t, pos) ∧
    game_tree must_block_game t.
Proof.
  split; [exact must_block_wf|].
  destruct (search_builds_game_tree (H := real_arith) (λ n, n)
              (mkMCTS _ 50%nat (Rdefinitions.IZR 1)) must_block_game _ _
              must_block_wf must_block_search 50%nat)
    as (t & pos & Hrun & Hgt & _).
  exists t, pos. split; [exact Hrun | exact Hgt].
Defined.

(** X16.  The statistics after any number of passes: at every node the
    wins lie between 0 and the visits; every node but the root has at
    least one visit, and one that has an untried move or a child has
    exactly one visit more than its children together (the visit of the
    pass that created it). *)
Theorem search_statistics {F : Type} `{ScoreArith F}
    (rng : nat → nat) (self : MCTS F) (root : Connect4) (rn : MCTSNode) (rs : Connect4) :
  wf_state root → tactical_checks root = (Search rn, rs) →
  ∀ k, ∃ t pos,
    run_simulations rng self root k [rn] 0%nat = Ok (t, pos) ∧
    ∀ i n, t !! i = Some n →
      (0 <= wins n)%Q ∧ (wins n <= inject_Z (Z.of_nat (visits n)))%Q ∧
      (i ≠ 0%nat →
         (1 ≤ visits n)%nat ∧
         (untried_moves n ≠ [] ∨ children n ≠ [] → visits n = S (children_visits t n))).
Proof.
  intros Hroot Hsearch k.
  destruct (search_keeps rng self root Hroot rn rs k Hsearch)
    as (t & pos & Hrun & _ & _ & _ & Hs & _).
  exists t, pos. split; [done|]. exact Hs.
Qed.

Lemma search_statistics_witness :
  wf_state must_block_game ∧
  ∃ t pos,
    run_simulations (H := real_arith) (λ n, n)
      (mkMCTS _ 50%nat (Rdefinitions.IZR 1)) must_block_game 50
      [mkNode (copy must_block_game) None None [] 0%Q 0%nat [3] "Y"] 0%nat = Ok (t, pos) ∧
    ∀ i n, t !! i = Some n → (wins n <= inject_Z (Z.of_nat (visits n)))%Q.
Proof.
  split; [exact must_block_wf|].
  destruct (search_statistics (H := real_arith) (λ n, n)
              (mkMCTS _ 50%nat (Rdefinitions.IZR 1)) must_block_game _ _
              must_block_wf must_block_search 50%nat)
    as (t & pos & Hrun & Hs).
  exists t, pos. split; [exact Hrun|]. intros i n Hi.
  destruct (Hs i n Hi) as (_ & Hw & _). exact Hw.
Defined.

(** X17.  The main loop expands the root first: after [k] passes the
    untried moves of the root and the moves of its children are together
    the candidates the tactical checks left, each once, and the root has
    a child for [k] of them; once the passes are as many as the candidates
    every candidate has a child, with at least one visit. *)
Theorem search_expands_candidates {F : Type} `{ScoreArith F}
    (rng : nat → nat) (self : MCTS F) (root : Connect4) (rn : MCTSNode) (rs : Connect4) :
  wf_state root → tactical_checks root = (Search rn, rs) →
  ∀ k, ∃ t pos rootk,
    run_simulations rng self root k [rn] 0%nat = Ok (t, pos) ∧
    t !! 0%nat = Some rootk ∧
    untried_moves rootk ++ child_moves t rootk ≡ₚ untried_moves rn ∧
    length (children rootk) = (k `min` length (untried_moves rn))%nat ∧
    ((length (untried_moves rn) ≤ k)%nat →
     untried_moves rootk = [] ∧ child_moves t rootk ≡ₚ untried_moves rn ∧
     ∀ c, c ∈ children rootk → (1 ≤ visits_at t c)%nat).
Proof.
  intros Hroot Hsearch k.
  destruct (search_keeps rng self root Hroot rn rs k Hsearch)
    as (t & pos & Hrun & Hinv & _ & (rootk & Hr & Hperm & Hlen) & Hs & _).
  exists t, pos, rootk. do 4 (split; [done|]). intros Hk.
  pose proof (inv_shape _ _ Hinv) as Hsh.
  pose proof (child_moves_length t 0 rootk Hsh Hr) as Hcm.
  pose proof (Permutation_length Hperm) as HlenU. rewrite length_app in HlenU.
  assert (untried_moves rootk = []) as Eu.
  { apply length_zero_iff_nil. lia. }
  split; [done|]. split; [by rewrite Eu in Hperm|].
  intros c Hc. destruct (shape_child_index t 0 rootk c Hsh Hr Hc) as (Hlt & cn & Hcn & _).
  unfold visits_at. rewrite Hcn.
  destruct (Hs c cn Hcn) as (_ & _ & Hrest). by destruct Hrest; [lia|].
Qed.

Lemma search_expands_candidates_witness :
  wf_state must_block_game ∧
  ∃ t pos rootk,
    run_simulations (H := real_arith) (λ n, n)
      (mkMCTS _ 50%nat (Rdefinitions.IZR 1)) must_block_game 50
      [mkNode (copy must_block_game) None None [] 0%Q 0%nat [3] "Y"] 0%nat = Ok (t, pos) ∧
    t !! 0%nat = Some rootk ∧ untried_moves rootk = [] ∧ child_moves t rootk ≡ₚ [3].
Proof.
  split; [exact must_block_wf|].
  destruct (search_expands_candidates (H := real_arith) (λ n, n)
              (mkMCTS _ 50%nat (Rdefinitions.IZR 1)) must_block_game _ _
              must_block_wf must_block_search 50%nat)
    as (t & pos & rootk & Hrun & Hr & _ & _ & Hall).
  destruct Hall as (Hu & Hc & _); [simpl; lia|].
  exists t, pos, rootk. split; [exact Hrun|]. split; [exact Hr|].
  split; [exact Hu | exact Hc].
Defined.

Lemma most_visited_move_child (t : tree) root m :
  t !! 0%nat = Some root → (∀ c, c ∈ children root → is_Some (t !! c)) →
  most_visited_move t = Ok (Some m) → m ∈ child_moves t root.
Proof.
  intros Hr Hin. unfold most_visited_move. rewrite (node_at_Some _ _ _ Hr), bind_Ok.
  destruct (keyed_visits_spec t (children root) Hin) as (ks & -> & _ & Hks).
  rewrite bind_Ok. destruct (last_item (sorted Nat.ltb ks)) as [[v c]|] eqn:El; [|done].
  apply last_item_in, elem_of_sorted, Hks in El as (Hc & cn & Hcn & _).
  rewrite (node_at_Some _ _ _ Hcn), bind_Ok. intros [= Hm].
  apply elem_of_child_moves. eauto.
Qed.

Lemma search_result_candidate {F : Type} `{ScoreArith F}
    (rng : nat → nat) (self : MCTS F) (root : Connect4) rn rs m (t : tree) pos :
  wf_state root → tactical_checks root = (Search rn, rs) →
  (get_best_move rng self root).1 = Ok (Some m, t, pos) →
  m ∈ untried_moves rn.
Proof.
  intros Hroot Et Hret. unfold get_best_move in Hret. rewrite Et in Hret.
  cbn [fst] in Hret.
  destruct (search_keeps rng self root Hroot rn rs (simulations self) Et)
    as (t' & pos' & Hrun & Hinv & Hgt & (rootn & Hr & Hcands & _) & _).
  rewrite Hrun, bind_Ok in Hret. cbn beta iota in Hret.
  destruct (most_visited_move t') as [mv| |] eqn:Emv; [|done..].
  rewrite bind_Ok in Hret. injection Hret as -> -> ->.
  rewrite <- Hcands. apply elem_of_app. right.
  apply (most_visited_move_child t rootn m Hr); [|done].
  intros c Hc. destruct (shape_children t (inv_shape _ _ Hinv) 0%nat rootn c Hr Hc)
    as (cn & Hcn & _). by eexists.
Qed.

Lemma get_best_move_legal {F : Type} `{ScoreArith F}
    (rng : nat → nat) (self : MCTS F) (root : Connect4) m (t : tree) pos :
  wf_state root → (get_best_move rng self root).1 = Ok (Some m, t, pos) →
  m ∈ open_columns (board root).
Proof.
  intros Hroot Hret. destruct (tactical_checks root) as [[r|rn] rs] eqn:Et.
  - rewrite (get_best_move_Return rng self root r rs Et) in Hret. cbn [fst] in Hret.
    injection Hret as -> _ _. by destruct (tactical_checks_Return root m rs Hroot Et).
  - pose proof (search_result_candidate rng self root rn rs m t pos Hroot Et Hret) as Hin.
    destruct (search_root root rn rs Hroot Et) as (_ & _ & _ & _ & _ & _ & _ & Hlegal & _).
    by apply Hlegal.
Qed.

(** X18.  A move [get_best_move] returns is legal, and the root it was
    asked about has no winning line; when the side to move has no
    immediate win but some move after which the opponent has no immediate
    win either, the returned move is such a move. *)
Theorem get_best_move_legal_safe {F : Type} `{ScoreArith F}
    (rng : nat → nat) (self : MCTS F) (root : Connect4) (m : Z) (t : tree) (pos : nat) :
  let ai := player_at root (current_turn root) in
  let human := player_at root (current_turn root + 1) in
  wf_state root → (get_best_move rng self root).1 = Ok (Some m, t, pos) →
  m ∈ open_columns (board root) ∧ ¬ winning_line (board root) ∧
  ((∀ m', m' ∈ open_columns (board root) → ¬ immediate_win (board root) ai m') →
   (∃ m', m' ∈ open_columns (board root) ∧ ¬ winning_reply (board root) ai human m') →
   ¬ winning_reply (board root) ai human m).
Proof.
  intros ai human Hroot Hret.
  split; [by eapply get_best_move_legal|].
  destruct (tactical_checks root) as [[r|rn] rs] eqn:Et.
  - rewrite (get_best_move_Return rng self root r rs Et) in Hret. cbn [fst] in Hret.
    injection Hret as -> _ _.
    destruct (tactical_checks_Return root m rs Hroot Et) as (Hm & Hno & Hcase).
    split; [done|]. intros Hnowin (m' & Hm' & Hsafe).
    destruct Hcase as [Hone | Hwin]; [|by apply Hnowin in Hwin].
    rewrite Hone in Hm'. apply list_elem_of_singleton in Hm'. by subst m'.
  - pose proof (search_result_candidate rng self root rn rs m t pos Hroot Et Hret) as Hin.
    destruct (search_root root rn rs Hroot Et)
      as (Hno & _ & _ & _ & _ & _ & _ & _ & Hsafe & _).
    split; [done|]. intros _ Hex. by apply (Hsafe Hex m).
Qed.

Lemma get_best_move_legal_safe_witness :
  wf_state must_block_game ∧
  ∃ m t pos,
    (get_best_move (H := real_arith) (λ n, n) (mkMCTS _ 50%nat (Rdefinitions.IZR 1))
                   must_block_game).1 = Ok (Some m, t, pos) ∧
    m ∈ open_columns (board must_block_game).
Proof.
  split; [exact must_block_wf|].
  destruct (search_end (H := real_arith) (λ n, n) (mkMCTS _ 50%nat (Rdefinitions.IZR 1))
              must_block_game _ _ must_block_wf must_block_search ltac:(simpl; lia))
    as (t & pos & rootn & c & cn & m & _ & _ & _ & _ & _ & _ & _ & _ & _ & Hg).
  exists m, t, pos.
  assert ((get_best_move (H := real_arith) (λ n, n) (mkMCTS _ 50%nat (Rdefinitions.IZR 1))
                         must_block_game).1 = Ok (Some m, t, pos)) as Hret
    by (rewrite Hg; reflexivity).
  split; [exact Hret|].
  exact (proj1 (get_best_move_legal_safe (H := real_arith) (λ n, n)
                  (mkMCTS _ 50%nat (Rdefinitions.IZR 1)) must_block_game m t pos
                  must_block_wf Hret)).
Defined.

(** X19.  With a single open column and no winning line [get_best_move]
    returns that column at once, whatever the budget and whatever the
    move leads to: the store holds the fresh root only, the random source
    is not read and [root_state] is unchanged. *)
Theorem get_best_move_single_move {F : Type} `{ScoreArith F}
    (rng : nat → nat) (self : MCTS F) (root : Connect4) (m : Z) :
  ¬ winning_line (board root) → open_columns (board root) = [m] →
  get_best_move rng self root =
    (Ok (Some m, [MCTSNode_init (copy root) None None], 0%nat), root).
Proof.
  intros Hno Hopen. apply get_best_move_Return. by apply tactical_checks_single.
Qed.

Lemma get_best_move_single_move_witness :
  ¬ winning_line (board single_column_game) ∧
  get_best_move (H := real_arith) (λ n, n) (mkMCTS _ 1000%nat (Rdefinitions.IZR 1))
                single_column_game =
    (Ok (Some 6, [MCTSNode_init (copy single_column_game) None None], 0%nat),
     single_column_game).
Proof.
  assert (¬ winning_line (board single_column_game)) as Hno
    by (apply check_win_None_iff; vm_compute; reflexivity).
  split; [exact Hno|].
  apply (get_best_move_single_move (H := real_arith) (λ n, n)
           (mkMCTS _ 1000%nat (Rdefinitions.IZR 1)) single_column_game 6 Hno).
  vm_compute. reflexivity.
Defined.

Lemma tactical_checks_searches root :
  wf_state root → ¬ winning_line (board root) →
  (2 ≤ length (open_columns (board root)))%nat →
  (∀ m, m ∈ open_columns (board root) →
        ¬ immediate_win (board root) (player_at root (current_turn root)) m) →
  ∃ rn, tactical_checks root = (Search rn, root).
Proof.
  intros [[Hwf _] _] Hno Hlen Hnowin.
  pose proof (tactical_checks_root root) as Hrs.
  destruct (open_columns (board root)) as [|a [|b l]] eqn:Hopen; simpl in Hlen; [lia..|].
  pose proof (tactical_checks_open root a b l Hno Hopen) as Ht. cbn zeta in Ht.
  destruct (first_hit _ _) as [mv|] eqn:Ef.
  { exfalso. apply first_hit_Some in Ef as (mv' & Hin & Ef).
    destruct (check_win_on_board _) as [t|] eqn:Ew; [|done].
    destruct (t =? player_at root (current_turn root)) eqn:Et; [|done].
    apply String.eqb_eq in Et. subst t.
    apply (Hnowin mv' Hin). by apply check_win_immediate. }
  destruct (safe_scan _ _ _ _) as [safe rs']. rewrite Ht in Hrs. cbn [snd] in Hrs.
  subst rs'. by eexists.
Qed.

(** X20.  With a budget of zero simulations [get_best_move] raises
    [IndexError] whenever it reaches the main loop, that is on a root
    without winning line, with at least two open columns and no immediate
    win: the final sort finds no child. *)
Theorem get_best_move_no_budget {F : Type} `{ScoreArith F}
    (rng : nat → nat) (self : MCTS F) (root : Connect4) :
  wf_state root → ¬ winning_line (board root) →
  (2 ≤ length (open_columns (board root)))%nat →
  (∀ m, m ∈ open_columns (board root) →
        ¬ immediate_win (board root) (player_at root (current_turn root)) m) →
  simulations self = 0%nat →
  get_best_move rng self root = (Raise IndexError, root).
Proof.
  intros Hroot Hno Hlen Hnowin Hzero.
  destruct (tactical_checks_searches root Hroot Hno Hlen Hnowin) as [rn Ht].
  destruct (tactical_checks_Search root rn root Ht) as (_ & _ & Hc & _).
  unfold get_best_move. rewrite Ht, Hzero. cbn [run_simulations].
  rewrite bind_Ok. cbn beta iota. unfold most_visited_move.
  rewrite (node_at_Some [rn] 0 rn eq_refl), bind_Ok, Hc. reflexivity.
Qed.

Lemma get_best_move_no_budget_witness :
  wf_state must_block_game ∧ ¬ winning_line (board must_block_game) ∧
  get_best_move (H := real_arith) (λ n, n) (mkMCTS _ 0%nat (Rdefinitions.IZR 1))
                must_block_game = (Raise IndexError, must_block_game).
Proof.
  assert (¬ winning_line (board must_block_game)) as Hno
    by (apply check_win_None_iff; vm_compute; reflexivity).
  split; [exact must_block_wf|]. split; [exact Hno|].
  apply (get_best_move_no_budget (H := real_arith) (λ n, n)
           (mkMCTS _ 0%nat (Rdefinitions.IZR 1)) must_block_game must_block_wf Hno).
  - vm_compute. lia.
  - assert (open_columns (board must_block_game) = [0; 1; 2; 3; 4; 5; 6]) as ->
      by (vm_compute; reflexivity).
    intros m Hm Hw. destruct must_block_wf as [[Hb _] _].
    apply (check_win_immediate _ _ _ Hb Hno) in Hw.
    rewrite !elem_of_cons, elem_of_nil in Hm.
    destruct Hm as [-> | [-> | [-> | [-> | [-> | [-> | [-> | []]]]]]]];
      vm_compute in Hw; discriminate.
  - reflexivity.
Defined.

(** X21.  When the rollout of a pass starts, the working state shows the
    board and the turn of the snapshot of the node the pass arrived at, a
    node other than the root, but it carries the [game_over] flag of
    [root_state]: where the snapshot has a winning line or no open column
    the snapshot is flagged as over, the working state only if
    [root_state] was. *)
Theorem descend_reaches_snapshot {F : Type} `{ScoreArith F}
    (rng : nat → nat) (self : MCTS F) (root : Connect4) (rn : MCTSNode) (rs : Connect4) :
  wf_state root → tactical_checks root = (Search rn, rs) →
  ∀ k, ∃ t pos t1 node st pos1 nn,
    run_simulations rng self root k [rn] 0%nat = Ok (t, pos) ∧
    descend rng self root t pos = Ok (t1, node, st, pos1) ∧
    node ≠ 0%nat ∧ t1 !! node = Some nn ∧
    board st = board (state nn) ∧ current_turn st = current_turn (state nn) ∧
    game_over st = game_over root ∧
    (winning_line (board st) ∨ open_columns (board st) = [] →
     game_over (state nn) = true).
Proof.
  intros Hroot Hsearch k.
  destruct (search_keeps rng self root Hroot rn rs k Hsearch)
    as (t & pos & Hrun & Hinv & Hgt & _).
  destruct (descend_effect rng self root k t pos Hroot Hinv Hgt)
    as (t1 & node & st & pos1 & Hd & Hst & Hg & Hsh1 & Hn0 & (nn & Hnode & Hb & Ht) & Hcase).
  exists t, pos, t1, node, st, pos1, nn.
  do 4 (split; [done|]). split; [done|]. split; [done|]. split; [done|].
  assert (game_tree root t1) as Hgt1.
  { destruct Hcase as [(-> & _) |
                       (j & n & m & u1 & u2 & st0 & Hj & Hu & _ & Hst0 & Hb0 & Ht0 & _ & _ & _ & _ & ->)];
      [done|].
    apply game_tree_grown; try done. by destruct Hinv. }
  rewrite <- Hb. by apply (gt_flag _ _ Hgt1 node nn).
Qed.

Lemma descend_reaches_snapshot_witness :
  wf_state must_block_game ∧
  ∃ t pos t1 node st pos1 nn,
    run_simulations (H := real_arith) (λ n, n)
      (mkMCTS _ 50%nat (Rdefinitions.IZR 1)) must_block_game 50
      [mkNode (copy must_block_game) None None [] 0%Q 0%nat [3] "Y"] 0%nat = Ok (t, pos) ∧
    descend (H := real_arith) (λ n, n) (mkMCTS _ 50%nat (Rdefinitions.IZR 1))
      must_block_game t pos = Ok (t1, node, st, pos1) ∧
    t1 !! node = Some nn ∧ board st = board (state nn).
Proof.
  split; [exact must_block_wf|].
  destruct (descend_reaches_snapshot (H := real_arith) (λ n, n)
              (mkMCTS _ 50%nat (Rdefinitions.IZR 1)) must_block_game _ _
              must_block_wf must_block_search 50%nat)
    as (t & pos & t1 & node & st & pos1 & nn & Hrun & Hd & _ & Hn & Hb & _).
  exists t, pos, t1, node, st, pos1, nn.
  split; [exact Hrun|]. split; [exact Hd|]. split; [exact Hn | exact Hb].
Defined.

(** * Properties of the game loop *)

Lemma human_turn_full g inputs :
  open_columns (board g) = [] → human_turn g inputs = None.
Proof.
  revert g. induction inputs as [|[x|] inputs IH]; intros g Hfull; simpl; [done| |by apply IH].
  case_bool_decide; [|by apply IH].
  unfold _get_available_moves. rewrite Hfull.
  rewrite bool_decide_eq_false_2 by apply not_elem_of_nil. by apply IH.
Qed.

Lemma human_turn_moves g inputs g' rest :
  human_turn g inputs = Some (g', rest) →
  ∃ skipped x,
    inputs = skipped ++ Some x :: rest ∧ (x - 1) ∈ open_columns (board g) ∧
    g' = (make_move g (x - 1)).2 ∧
    ∀ y, y ∈ skipped → y = None ∨ ∃ v, y = Some v ∧ (v - 1) ∉ open_columns (board g).
Proof.
  revert g. induction inputs as [|[x|] inputs IH]; intros g; simpl; [done| |].
  - case_bool_decide as Hrange.
    + unfold _get_available_moves.
      case_bool_decide as Hin.
      * intros [= <- <-]. exists [], x. split; [done|]. split; [done|].
        split; [destruct (open_columns (board g)); [by apply elem_of_nil in Hin | done]|].
        by intros y ?%elem_of_nil.
      * intros Hrec. apply IH in Hrec as (skipped & x' & -> & Hx' & -> & Hskip).
        assert (board (match open_columns (board g) with
                       | [] => set_game_over g true | _ :: _ => g end) = board g) as Hb
          by (by destruct (open_columns (board g))).
        rewrite Hb in Hx', Hskip.
        assert (match open_columns (board g) with
                | [] => set_game_over g true | _ :: _ => g end = g) as ->.
        { destruct (open_columns (board g)); [by apply elem_of_nil in Hx' | done]. }
        exists (Some x :: skipped), x'. split; [done|]. split; [done|]. split; [done|].
        intros y [-> | Hy]%elem_of_cons; [right; by exists x | by apply Hskip].
    + intros Hrec. apply IH in Hrec as (skipped & x' & -> & Hx' & -> & Hskip).
      exists (Some x :: skipped), x'. split; [done|]. split; [done|]. split; [done|].
      intros y [-> | Hy]%elem_of_cons; [|by apply Hskip].
      right. exists x. split; [done|]. intros Hin.
      apply elem_of_open_columns in Hin as [Hin _]. lia.
  - intros Hrec. apply IH in Hrec as (skipped & x' & -> & Hx' & -> & Hskip).
    exists (None :: skipped), x'. split; [done|]. split; [done|]. split; [done|].
    intros y [-> | Hy]%elem_of_cons; [by left | by apply Hskip].
Qed.

(** X22.  The prompt loop of the human's turn skips every line that is
    not a number, not in 1..7 or names a full column, and plays the first
    line that names an open column; it has no other exit, so on a board
    without open column it reads to the end of the input whatever is
    typed. *)
Theorem human_turn_spec (g : Connect4) (inputs : list (option Z)) :
  (open_columns (board g) = [] → human_turn g inputs = None) ∧
  (∀ g' rest, human_turn g inputs = Some (g', rest) →
     ∃ skipped x,
       inputs = skipped ++ Some x :: rest ∧ (x - 1) ∈ open_columns (board g) ∧
       g' = (make_move g (x - 1)).2 ∧
       ∀ y, y ∈ skipped → y = None ∨ ∃ v, y = Some v ∧ (v - 1) ∉ open_columns (board g)) ∧
  (∀ skipped x rest,
     (x - 1) ∈ open_columns (board g) →
     (∀ y, y ∈ skipped → y = None ∨ ∃ v, y = Some v ∧ (v - 1) ∉ open_columns (board g)) →
     human_turn g (skipped ++ Some x :: rest) = Some ((make_move g (x - 1)).2, rest)).
Proof.
  split; [apply human_turn_full|]. split; [apply human_turn_moves|].
  intros skipped x rest Hx Hskip.
  assert (_get_available_moves g None = (open_columns (board g), g)) as Hav.
  { unfold _get_available_moves. destruct (open_columns (board g)); [|done].
    by apply elem_of_nil in Hx. }
  induction skipped as [|y skipped IH]; cbn [human_turn app].
  - rewrite bool_decide_eq_true_2
      by (apply elem_of_open_columns in Hx as [Hx _]; lia).
    rewrite Hav. by rewrite bool_decide_eq_true_2.
  - assert (∀ y', y' ∈ skipped →
              y' = None ∨ ∃ v, y' = Some v ∧ (v - 1) ∉ open_columns (board g)) as Hrest
      by (intros y' Hy'; apply Hskip; by right).
    destruct (Hskip y ltac:(left)) as [-> | (v & -> & Hv)]; [by apply IH|].
    case_bool_decide; [|by apply IH].
    rewrite Hav. rewrite bool_decide_eq_false_2 by done. by apply IH.
Qed.

Lemma human_turn_spec_witness :
  human_turn drawn_game [Some 1; Some 7; None; Some 4] = None ∧
  human_turn new_game [None; Some 9; Some 4; Some 1]
    = Some ((make_move new_game 3).2, [Some 1]).
Proof.
  destruct (human_turn_spec drawn_game [Some 1; Some 7; None; Some 4]) as (Hfull & _).
  destruct (human_turn_spec new_game [None; Some 9; Some 4; Some 1]) as (_ & _ & Hplay).
  split.
  - apply Hfull. vm_compute. reflexivity.
  - apply (Hplay [None; Some 9] 4 [Some 1]).
    + decide_by_compute.
    + intros y Hy. rewrite !elem_of_cons, elem_of_nil in Hy.
      destruct Hy as [-> | [-> | []]]; [by left|]. right. exists 9. split; [done|].
      decide_by_compute.
Defined.

Lemma tactical_checks_None root rs :
  tactical_checks root = (Return None, rs) →
  winning_line (board root) ∨ open_columns (board root) = [].
Proof.
  intros Hret.
  destruct (check_win_on_board (board root)) as [w|] eqn:Ew.
  { left. exists w. by apply check_win_sound. }
  apply check_win_None_iff in Ew.
  destruct (open_columns (board root)) as [|a [|b l]] eqn:Hopen; [by right| |].
  { by rewrite (tactical_checks_single root a Ew Hopen) in Hret. }
  pose proof (tactical_checks_open root a b l Ew Hopen) as Ht. cbn zeta in Ht.
  destruct (first_hit _ _) as [mv|] eqn:Ef; [by rewrite Ht in Hret|].
  destruct (safe_scan _ _ _ _) as [safe rs']. by rewrite Ht in Hret.
Qed.

Lemma after_move g m :
  played g → ¬ winning_line (board g) → game_over g = false →
  m ∈ open_columns (board g) →
  played (_check_winstate (make_move g m).2).2 ∧
  ((∃ w, _check_winstate (make_move g m).2 = (Some w, set_game_over (make_move g m).2 true) ∧
         w ≠ EMPTY ∧ four_in_line (board (make_move g m).2) w ∧
         w = player_at g (current_turn g)) ∨
   (_check_winstate (make_move g m).2 = (None, (make_move g m).2) ∧
    ¬ winning_line (board (make_move g m).2) ∧
    game_over (make_move g m).2 = false ∧
    S (blanks (board (make_move g m).2)) = blanks (board g))).
Proof.
  intros Hreach Hno Hgo Hm.
  split; [by do 2 constructor|].
  destruct (reachable_inv g (played_reachable g Hreach)) as ([[Hwf Hcells] Hpl] & _).
  destruct (make_move_board_is g m Hwf Hm) as (Hb & Ht & Hg & Hl).
  unfold _check_winstate.
  destruct (check_win_on_board (board (make_move g m).2)) as [w|] eqn:Ew.
  - left. pose proof Ew as Ew'. rewrite Hb in Ew'.
    apply (check_win_after_move _ _ _ _ Hwf Hno) in Ew'. subst w.
    exists (player_at g (current_turn g)).
    apply check_win_sound in Ew as [Hne Hline].
    split; [|done].
    by destruct (player_at_token g (current_turn g) Hpl) as [E | E]; rewrite E.
  - right. split; [done|]. split; [by apply check_win_None_iff|]. split; [congruence|].
    destruct (make_move_open g m Hwf Hm) as (r & (Hr & He & _) & ->). cbn [snd board].
    apply elem_of_open_columns in Hm as [Hm _].
    apply blanks_set_cell_exact; [done | done | unfold COLS; lia | done |].
    by destruct (player_at_token g (current_turn g) Hpl) as [E | E]; rewrite E.
Qed.

Section MainLoop.
Context {F : Type} `{ScoreArith F}.
Variable rng : nat → nat.
Variable ai : MCTS F.
Hypothesis budget : (1 ≤ simulations ai)%nat.

Lemma main_loop_step fuel human g inputs pos :
  main_loop rng (S fuel) ai human g inputs pos =
  if game_over g then Draw g
  else
    let moved :=
      if player_at g (current_turn g) =? human then
        match human_turn g inputs with
        | Some (g, inputs) => inl (g, inputs, pos)
        | None => inr EndOfInput
        end
      else
        match get_best_move (λ n, rng (pos + n)%nat) ai g with
        | (Ok (Some move, _, used), g) =>
            inl ((make_move g move).2, inputs, (pos + used)%nat)
        | (Ok (None, _, _), g) => inr (Draw g)
        | (Raise e, _) => inr (Uncaught e)
        | (Stuck, _) => inr OutOfFuel
        end in
    match moved with
    | inr o => o
    | inl (g, inputs, pos) =>
        let '(result, g) := _check_winstate g in
        match result with
        | Some w => Winner w g
        | None => main_loop rng fuel ai human g inputs pos
        end
    end.
Proof. done. Qed.

(** One round of the loop with the human to move, and no winner after
    the move. *)
Lemma main_loop_human_round fuel human g inputs pos g1 inputs1 :
  game_over g = false → player_at g (current_turn g) = human →
  human_turn g inputs = Some (g1, inputs1) →
  main_loop rng (S fuel) ai human g inputs pos =
  match _check_winstate g1 with
  | (Some w, g2) => Winner w g2
  | (None, g2) => main_loop rng fuel ai human g2 inputs1 pos
  end.
Proof.
  intros Hgo Hturn Hh. rewrite main_loop_step, Hgo. cbn zeta.
  rewrite (proj2 (String.eqb_eq _ _) Hturn), Hh. done.
Qed.

(** One round of the loop with the computer to move, when the checks
    before the search decide. *)
Lemma main_loop_computer_round fuel human g inputs pos r rs :
  game_over g = false → player_at g (current_turn g) ≠ human →
  tactical_checks g = (Return r, rs) →
  main_loop rng (S fuel) ai human g inputs pos =
  match r with
  | Some move =>
      match _check_winstate (make_move rs move).2 with
      | (Some w, g2) => Winner w g2
      | (None, g2) => main_loop rng fuel ai human g2 inputs pos
      end
  | None => Draw rs
  end.
Proof.
  intros Hgo Hturn Ht. rewrite main_loop_step, Hgo. cbn zeta.
  rewrite (proj2 (String.eqb_neq _ _) Hturn).
  rewrite (get_best_move_Return _ ai g r rs Ht). destruct r as [m|]; [|reflexivity].
  by rewrite Nat.add_0_r.
Qed.

(** The loop from a position of a game without winner: it ends without
    exception; a winner it announces is the last mover, with four in
    line; it announces a draw only on a full board with the computer to
    move, which is then playing Red. *)
Lemma main_loop_inv fuel (yellow : bool) g inputs pos :
  played g → ¬ winning_line (board g) → game_over g = false →
  (blanks (board g) < fuel)%nat →
  match main_loop rng fuel ai (if yellow then "Y" else "R") g inputs pos with
  | Winner w g' =>
      played g' ∧ w ≠ EMPTY ∧ four_in_line (board g') w ∧
      w = player_at g' (current_turn g' - 1) ∧ game_over g' = true
  | Draw g' =>
      yellow = true ∧ played g' ∧ open_columns (board g') = [] ∧
      ¬ winning_line (board g')
  | Uncaught _ => False
  | EndOfInput => True
  | OutOfFuel => False
  end.
Proof.
  revert g inputs pos. induction fuel as [|fuel IH]; intros g inputs pos Hreach Hno Hgo Hfuel;
    [lia|].
  rewrite main_loop_step, Hgo. cbn zeta.
  destruct (reachable_inv g (played_reachable g Hreach)) as (Hwfs & _).
  pose proof Hwfs as [[Hwf _] Hpl].
  assert (∀ m inputs' pos',
            m ∈ open_columns (board g) →
            match (let '(result, g0) := _check_winstate (make_move g m).2 in
                   match result with
                   | Some w => Winner w g0
                   | None => main_loop rng fuel ai (if yellow then "Y" else "R") g0 inputs' pos'
                   end) with
            | Winner w g' =>
                played g' ∧ w ≠ EMPTY ∧ four_in_line (board g') w ∧
                w = player_at g' (current_turn g' - 1) ∧ game_over g' = true
            | Draw g' =>
                yellow = true ∧ played g' ∧ open_columns (board g') = [] ∧
                ¬ winning_line (board g')
            | Uncaught _ => False
            | EndOfInput => True
            | OutOfFuel => False
            end) as Htail.
  { intros m inputs' pos' Hm.
    destruct (after_move g m Hreach Hno Hgo Hm) as [Hr1 [(w & Ew & Hne & Hline & ->) | (Ew & Hno1 & Hgo1 & Hbl)]].
    - rewrite Ew in Hr1 |- *. cbn [snd] in Hr1. split; [done|]. split; [done|].
      split; [done|]. split; [|done].
      destruct (make_move_board_is g m Hwf Hm) as (_ & Ht & _ & Hl).
      unfold player_at. cbn [set_game_over player_list current_turn]. rewrite Ht, Hl.
      by replace (current_turn g + 1 - 1) with (current_turn g) by lia.
    - rewrite Ew in Hr1 |- *. cbn [snd] in Hr1. apply IH; [done..|lia]. }
  destruct (player_at g (current_turn g) =? (if yellow then "Y" else "R")) eqn:Eturn.
  - destruct (human_turn g inputs) as [[g1 inputs1]|] eqn:Eh; [|done].
    apply human_turn_moves in Eh as (skipped & x & -> & Hx & -> & _).
    by apply Htail.
  - destruct (tactical_checks g) as [[r|rn] rs] eqn:Et.
    + rewrite (get_best_move_Return _ ai g r rs Et).
      pose proof (tactical_checks_root g) as Hrs. rewrite Et in Hrs. cbn [snd] in Hrs.
      subst rs. destruct r as [m|].
      * apply Htail. by destruct (tactical_checks_Return g m g Hwfs Et).
      * destruct (tactical_checks_None g g Et) as [Hw | Hfull]; [done|].
        split; [|done].
        apply (reachable_full g (played_reachable g Hreach)) in Hfull.
        apply String.eqb_neq in Eturn. rewrite Hfull in Eturn.
        unfold player_at in Eturn. rewrite Hpl in Eturn. simpl in Eturn.
        by destruct yellow.
    + destruct (search_end (λ n, rng (pos + n)%nat) ai g rn rs Hwfs Et budget)
        as (t & pos' & _ & _ & _ & m & _ & _ & _ & _ & _ & _ & _ & _ & _ & Hg).
      rewrite Hg. apply Htail.
      apply (get_best_move_legal (λ n, rng (pos + n)%nat) ai g m t pos' Hwfs).
      by rewrite Hg.
Qed.
End MainLoop.

(** X23.  Whatever the random source and whatever is typed, a game of
    [main] ends without uncaught exception other than the end of the
    input, and within its 42 moves.  When it announces a winner, that
    player made the last move and has four in line; it announces a draw
    only when the human plays Yellow, on a full board without winning
    line: with the human playing Red a game without winner ends in the
    prompt.  The same holds of the game loop entered at any position of
    a game that has no winning line and is not flagged as over, with a
    search budget of one simulation or more. *)
Theorem main_outcomes {F : Type} `{ScoreArith F} (rng : nat → nat) :
  (∀ (choice : option bool) (inputs : list (option Z)),
     match main rng choice inputs with
     | Winner w g =>
         played g ∧ w ≠ EMPTY ∧ four_in_line (board g) w ∧
         w = player_at g (current_turn g - 1) ∧ game_over g = true
     | Draw g =>
         choice = Some true ∧ played g ∧ open_columns (board g) = [] ∧
         ¬ winning_line (board g)
     | Uncaught _ => False
     | EndOfInput => True
     | OutOfFuel => False
     end) ∧
  (∀ (ai : MCTS F) (yellow : bool) (g : Connect4) (inputs : list (option Z))
     (pos fuel : nat),
     (1 ≤ simulations ai)%nat →
     played g → ¬ winning_line (board g) → game_over g = false →
     (blanks (board g) < fuel)%nat →
     match main_loop rng fuel ai (if yellow then "Y" else "R") g inputs pos with
     | Winner w g' =>
         played g' ∧ w ≠ EMPTY ∧ four_in_line (board g') w ∧
         w = player_at g' (current_turn g' - 1) ∧ game_over g' = true
     | Draw g' =>
         yellow = true ∧ played g' ∧ open_columns (board g') = [] ∧
         ¬ winning_line (board g')
     | Uncaught _ => False
     | EndOfInput => True
     | OutOfFuel => False
     end).
Proof.
  split; [|intros ai yellow g inputs pos fuel Hb; by apply main_loop_inv].
  intros choice inputs.
  unfold main. destruct choice as [yellow|]; [|done].
  pose proof (main_loop_inv rng (mkMCTS F 1000 (F_of_nat 1)) ltac:(simpl; lia)
                (ROWS * COLS + 1) yellow new_game inputs 0) as Hinv.
  destruct (main_loop _ _ _ _ _ _ _) as [w g | g | e | |].
  - apply Hinv; [constructor | apply check_win_None_iff; vm_compute; reflexivity | done |].
    pose proof (blanks_bound (board new_game)). lia.
  - destruct Hinv as (-> & Hrest);
      [constructor | apply check_win_None_iff; vm_compute; reflexivity | done | | done].
    pose proof (blanks_bound (board new_game)). lia.
  - apply Hinv; [constructor | apply check_win_None_iff; vm_compute; reflexivity | done |].
    pose proof (blanks_bound (board new_game)). lia.
  - done.
  - apply Hinv; [constructor | apply check_win_None_iff; vm_compute; reflexivity | done |].
    pose proof (blanks_bound (board new_game)). lia.
Qed.

(** Three runs of the loop.  The computer, playing Red with three in the
    bottom row, takes the win.  The human, playing Red in the same
    position, types 4 and wins.  The human, playing Yellow, types 7 to
    fill the last cell, and the computer finds no move: a draw. *)
Lemma main_loop_runs :
  main_loop (H := real_arith) (λ n, n) 43 (mkMCTS _ 1000%nat (Rdefinitions.IZR 1)) "Y"
            three_in_row_game [] 0
    = Winner "R" (set_game_over (make_move three_in_row_game 3).2 true) ∧
  main_loop (H := real_arith) (λ n, n) 43 (mkMCTS _ 1000%nat (Rdefinitions.IZR 1)) "R"
            three_in_row_game [None; Some 9; Some 4] 0
    = Winner "R" (set_game_over (make_move three_in_row_game 3).2 true) ∧
  main_loop (H := real_arith) (λ n, n) 43 (mkMCTS _ 1000%nat (Rdefinitions.IZR 1)) "Y"
            last_cell_game [Some 7] 0
    = Draw (make_move last_cell_game 6).2.
Proof.
  split; [|split].
  - rewrite (main_loop_computer_round _ _ 42 "Y" three_in_row_game [] 0%nat
               (Some 3) three_in_row_game);
      [| vm_compute; reflexivity | vm_compute; discriminate | vm_compute; reflexivity].
    replace (_check_winstate (make_move three_in_row_game 3).2)
      with (Some "R", set_game_over (make_move three_in_row_game 3).2 true)
      by (vm_compute; reflexivity).
    reflexivity.
  - rewrite (main_loop_human_round _ _ 42 "R" three_in_row_game _ 0%nat
               (make_move three_in_row_game 3).2 []);
      [| vm_compute; reflexivity | vm_compute; reflexivity | vm_compute; reflexivity].
    replace (_check_winstate (make_move three_in_row_game 3).2)
      with (Some "R", set_game_over (make_move three_in_row_game 3).2 true)
      by (vm_compute; reflexivity).
    reflexivity.
  - rewrite (main_loop_human_round _ _ 42 "Y" last_cell_game _ 0%nat
               (make_move last_cell_game 6).2 []);
      [| vm_compute; reflexivity | vm_compute; reflexivity | vm_compute; reflexivity].
    replace (_check_winstate (make_move last_cell_game 6).2)
      with (@None string, (make_move last_cell_game 6).2) by (vm_compute; reflexivity).
    apply (main_loop_computer_round _ _ 41 "Y" (make_move last_cell_game 6).2 [] 0%nat
             None (make_move last_cell_game 6).2);
      [vm_compute; reflexivity | vm_compute; discriminate | vm_compute; reflexivity].
Qed.

Lemma main_outcomes_witness :
  (main_loop (H := real_arith) (λ n, n) 43 (mkMCTS _ 1000%nat (Rdefinitions.IZR 1)) "Y"
             three_in_row_game [] 0
     = Winner "R" (set_game_over (make_move three_in_row_game 3).2 true) ∧
   played (set_game_over (make_move three_in_row_game 3).2 true) ∧
   four_in_line (board (make_move three_in_row_game 3).2) "R") ∧
  (main_loop (H := real_arith) (λ n, n) 43 (mkMCTS _ 1000%nat (Rdefinitions.IZR 1)) "Y"
             last_cell_game [Some 7] 0
     = Draw (make_move last_cell_game 6).2 ∧
   played (make_move last_cell_game 6).2 ∧
   open_columns (board (make_move last_cell_game 6).2) = [] ∧
   ¬ winning_line (board (make_move last_cell_game 6).2)).
Proof.
  destruct main_loop_runs as (Hwin & _ & Hdraw).
  split.
  - split; [exact Hwin|].
    pose proof (proj2 (main_outcomes (H := real_arith) (λ n, n))
                  (mkMCTS _ 1000%nat (Rdefinitions.IZR 1)) true three_in_row_game
                  [] 0%nat 43%nat) as Hrun.
    change (if true then "Y" else "R") with "Y" in Hrun. rewrite Hwin in Hrun.
    destruct Hrun as (Hp & _ & Hline & _).
    + simpl. lia.
    + apply played_play.
    + apply check_win_None_iff. vm_compute. reflexivity.
    + reflexivity.
    + vm_compute. lia.
    + split; [exact Hp | exact Hline].
  - split; [exact Hdraw|].
    pose proof (proj2 (main_outcomes (H := real_arith) (λ n, n))
                  (mkMCTS _ 1000%nat (Rdefinitions.IZR 1)) true last_cell_game
                  [Some 7] 0%nat 43%nat) as Hrun.
    change (if true then "Y" else "R") with "Y" in Hrun. rewrite Hdraw in Hrun.
    destruct Hrun as (_ & Hp & Hfull & Hno).
    + simpl. lia.
    + apply played_play.
    + apply check_win_None_iff. vm_compute. reflexivity.
    + reflexivity.
    + vm_compute. lia.
    + split; [exact Hp|]. split; [exact Hfull | exact Hno].
Defined.

(** X24.  On a full board that is not flagged as over the game loop asks
    the human for a move and never gets one, whatever is typed, when it
    is the human's turn; when it is the computer's turn it announces a
    draw. *)
Theorem main_loop_full_board {F : Type} `{ScoreArith F}
    (rng : nat → nat) (fuel : nat) (ai : MCTS F) (human : string) (g : Connect4)
    (inputs : list (option Z)) (pos : nat) :
  game_over g = false → open_columns (board g) = [] →
  (player_at g (current_turn g) = human →
   main_loop rng (S fuel) ai human g inputs pos = EndOfInput) ∧
  (player_at g (current_turn g) ≠ human →
   main_loop rng (S fuel) ai human g inputs pos = Draw g).
Proof.
  intros Hgo Hfull. rewrite main_loop_step, Hgo. cbn zeta. split.
  - intros Hturn. rewrite (proj2 (String.eqb_eq _ _) Hturn).
    by rewrite (human_turn_full g inputs Hfull).
  - intros Hturn. rewrite (proj2 (String.eqb_neq _ _) Hturn).
    by rewrite (get_best_move_Return _ ai g None g (tactical_checks_no_moves g Hfull)).
Qed.

Lemma main_loop_full_board_witness :
  game_over drawn_game = false ∧ open_columns (board drawn_game) = [] ∧
  main_loop (H := real_arith) (λ n, n) 43 (mkMCTS _ 1000%nat (Rdefinitions.IZR 1)) "R"
            drawn_game [Some 1; Some 2; Some 3; Some 4; Some 5; Some 6; Some 7] 0
    = EndOfInput.
Proof.
  assert (game_over drawn_game = false) as Hgo by (vm_compute; reflexivity).
  assert (open_columns (board drawn_game) = []) as Hfull by (vm_compute; reflexivity).
  split; [exact Hgo|]. split; [exact Hfull|].
  apply (main_loop_full_board (H := real_arith) (λ n, n) 42
           (mkMCTS _ 1000%nat (Rdefinitions.IZR 1)) "R" drawn_game _ 0 Hgo Hfull).
  vm_compute. reflexivity.
Defined.
